(** * Pastella wallet engine: mnemonic, varint, Base58 and address codecs

    A shallow embedding of [src/utils/walletGenerator.ts] and of the address
    validator of [src/utils/helpers.ts], together with the properties of the
    key-derivation and address-codec chain.

    Conventions of the embedding:
    - a JavaScript [number] that holds an integer is a [Z]; the 32-bit
      operators ([&], [|], [^], [>>>]) are written with their wrap-around;
    - a [bigint] is a [Z];
    - a [Uint8Array] is a [list byte];
    - a JavaScript string whose code units are below 256 is a [string];
    - a function that may [throw] returns in the error monad [Result]. *)

From Stdlib Require Import ZArith NArith List String Ascii Bool Lia Arith.
From Stdlib.Strings Require Import Byte.
From Equations Require Import Equations.
Import ListNotations.

Local Open Scope Z_scope.

(** ** Errors raised by the engine *)

(** One constructor per [throw] site of the source (the message of the
    JavaScript [Error] is given next to each), plus the run-time errors
    of the language itself. *)
Inductive error : Type :=
| InvalidLength                 (* 'Mnemonic must have exactly 25 words' *)
| UnknownWord (word : string)   (* `Word not found in wordlist: ${word}` *)
| EncodingError                 (* 'Invalid mnemonic encoding' *)
| InvalidChecksum               (* 'Invalid mnemonic checksum' *)
| InvalidSize                   (* 'Invalid size' *)
| EntropyExhausted              (* 'Failed to generate valid scalar after 1000 attempts' *)
| RangeError                    (* DataView / TypedArray.set out of bounds, scalar out of range *)
| TypeError                     (* BigInt(undefined), undefined.substr *)
| LibraryError.                 (* raised inside an imported library *)

Definition Result (A : Type) : Type := sum error A.

Definition ok {A} (a : A) : Result A := inr a.
Definition throw {A} (e : error) : Result A := inl e.

Definition bind {A B} (r : Result A) (k : A -> Result B) : Result B :=
  match r with
  | inl e => inl e
  | inr a => k a
  end.

Notation "'let*' x ':=' r 'in' k" := (bind r (fun x => k))
  (at level 10, x name, r at level 100, k at level 200).

(** ** JavaScript 32-bit integer operators *)

Module JS.

Definition two32 : Z := 2 ^ 32.

(** [ToUint32] and [ToInt32] of ECMA-262 on an integral number. *)
Definition ToUint32 (x : Z) : Z := x mod two32.

Definition ToInt32 (x : Z) : Z :=
  let m := x mod two32 in
  if 2 ^ 31 <=? m then m - two32 else m.

(** [a & b], [a | b], [a ^ b]: both operands go through [ToInt32] and the
    result is a signed 32-bit integer. *)
Definition and (a b : Z) : Z := ToInt32 (Z.land (ToInt32 a) (ToInt32 b)).
Definition or (a b : Z) : Z := ToInt32 (Z.lor (ToInt32 a) (ToInt32 b)).
Definition xor (a b : Z) : Z := ToInt32 (Z.lxor (ToInt32 a) (ToInt32 b)).

(** [a >>> n]: the left operand goes through [ToUint32], the shift count
    is taken modulo 32, and the result is unsigned. *)
Definition ushr (a n : Z) : Z := Z.shiftr (ToUint32 a) (ToUint32 n mod 32).

End JS.

(** ** Typed arrays *)

(** Storing a number into a [Uint8Array] slot keeps its low 8 bits. *)
Definition u8 (x : Z) : byte :=
  match Byte.of_N (Z.to_N (x mod 256)) with
  | Some b => b
  | None => x00
  end.

Definition byteZ (b : byte) : Z := Z.of_N (Byte.to_N b).

(** [a[i]] on an array: [None] stands for [undefined]. *)
Definition at_index {A} (a : list A) (i : Z) : option A :=
  if i <? 0 then None else nth_error a (Z.to_nat i).

(** [a.slice(lo, hi)] for [0 <= lo <= hi]. *)
Definition slice {A} (a : list A) (lo hi : nat) : list A :=
  firstn (hi - lo) (skipn lo a).

(** ** Strings *)

Local Open Scope string_scope.
Local Open Scope list_scope.
Local Open Scope Z_scope.

Definition charCode (c : ascii) : Z := Z.of_N (N_of_ascii c).

(** White space and line terminators of ECMA-262 among the code units
    below 256: TAB, LF, VT, FF, CR, SP and NBSP.  They are what [\s]
    matches and what [trim] removes. *)
Definition is_space (c : ascii) : bool :=
  let n := N_of_ascii c in
  (((9 <=? n) && (n <=? 13)) || (n =? 32) || (n =? 160))%N.

Fixpoint trimStart (s : string) : string :=
  match s with
  | EmptyString => EmptyString
  | String c s' => if is_space c then trimStart s' else s
  end.

(** [trimEnd]: a character is dropped when it is white space and everything
    after it has been dropped. *)
Fixpoint trimEnd (s : string) : string :=
  match s with
  | EmptyString => EmptyString
  | String c s' =>
      match trimEnd s' with
      | EmptyString => if is_space c then EmptyString else String c EmptyString
      | t => String c t
      end
  end.

Definition trim (s : string) : string := trimEnd (trimStart s).

(** [s.split(/\s+/)]: the pieces between the maximal runs of white space.
    [cur] is the piece being read; [in_gap] says that the last character
    read was white space (the piece before it was already emitted). *)
Fixpoint split_ws_aux (s : string) (cur : string) (in_gap : bool) : list string :=
  match s with
  | EmptyString => [cur]
  | String c s' =>
      if is_space c then
        if in_gap then split_ws_aux s' cur true
        else cur :: split_ws_aux s' EmptyString true
      else split_ws_aux s' (cur ++ String c EmptyString)%string false
  end.

Definition split_ws (s : string) : list string := split_ws_aux s EmptyString false.

(** [words.join(sep)] is [String.concat sep words]. *)

(** [s.substr(0, n)]. *)
Fixpoint substr0 (n : nat) (s : string) : string :=
  match n, s with
  | O, _ => EmptyString
  | _, EmptyString => EmptyString
  | S n', String c s' => String c (substr0 n' s')
  end.

(** ** The word list *)

(** [WORDLIST]: the 1626 words, in the order of the source. *)
Definition WORDLIST : list string := [
  "abbey"; "abducts"; "ability"; "ablaze"; "abnormal"; "abort"; "abrasive"; "absorb";
  "abyss"; "academy"; "aces"; "aching"; "acidic"; "acoustic"; "acquire"; "across";
  "actress"; "acumen"; "adapt"; "addicted"; "adept"; "adhesive"; "adjust"; "adopt";
  "adrenalin"; "adult"; "adventure"; "aerial"; "afar"; "affair"; "afield"; "afloat";
  "afoot"; "afraid"; "after"; "against"; "agenda"; "aggravate"; "agile"; "aglow";
  "agnostic"; "agony"; "agreed"; "ahead"; "aided"; "ailments"; "aimless"; "airport";
  "aisle"; "ajar"; "akin"; "alarms"; "album"; "alchemy"; "alerts"; "algebra";
  "alkaline"; "alley"; "almost"; "aloof"; "alpine"; "already"; "also"; "altitude";
  "alumni"; "always"; "amaze"; "ambush"; "amended"; "amidst"; "ammo"; "amnesty";
  "among"; "amply"; "amused"; "anchor"; "android"; "anecdote"; "angled"; "ankle";
  "annoyed"; "answers"; "antics"; "anvil"; "anxiety"; "anybody"; "apart"; "apex";
  "aphid"; "aplomb"; "apology"; "apply"; "apricot"; "aptitude"; "aquarium"; "arbitrary";
  "archer"; "ardent"; "arena"; "argue"; "arises"; "army"; "around"; "arrow";
  "arsenic"; "artistic"; "ascend"; "ashtray"; "aside"; "asked"; "asleep"; "aspire";
  "assorted"; "asylum"; "athlete"; "atlas"; "atom"; "atrium"; "attire"; "auburn";
  "auctions"; "audio"; "august"; "aunt"; "austere"; "autumn"; "avatar"; "avidly";
  "avoid"; "awakened"; "awesome"; "awful"; "awkward"; "awning"; "awoken"; "axes";
  "axis"; "axle"; "aztec"; "azure"; "baby"; "bacon"; "badge"; "baffles";
  "bagpipe"; "bailed"; "bakery"; "balding"; "bamboo"; "banjo"; "baptism"; "basin";
  "batch"; "bawled"; "bays"; "because"; "beer"; "befit"; "begun"; "behind";
  "being"; "below"; "bemused"; "benches"; "berries"; "bested"; "betting"; "bevel";
  "beware"; "beyond"; "bias"; "bicycle"; "bids"; "bifocals"; "biggest"; "bikini";
  "bimonthly"; "binocular"; "biology"; "biplane"; "birth"; "biscuit"; "bite"; "biweekly";
  "blender"; "blip"; "bluntly"; "boat"; "bobsled"; "bodies"; "bogeys"; "boil";
  "boldly"; "bomb"; "border"; "boss"; "both"; "bounced"; "bovine"; "bowling";
  "boxes"; "boyfriend"; "broken"; "brunt"; "bubble"; "buckets"; "budget"; "buffet";
  "bugs"; "building"; "bulb"; "bumper"; "bunch"; "business"; "butter"; "buying";
  "buzzer"; "bygones"; "byline"; "bypass"; "cabin"; "cactus"; "cadets"; "cafe";
  "cage"; "cajun"; "cake"; "calamity"; "camp"; "candy"; "casket"; "catch";
  "cause"; "cavernous"; "cease"; "cedar"; "ceiling"; "cell"; "cement"; "cent";
  "certain"; "chlorine"; "chrome"; "cider"; "cigar"; "cinema"; "circle"; "cistern";
  "citadel"; "civilian"; "claim"; "click"; "clue"; "coal"; "cobra"; "cocoa";
  "code"; "coexist"; "coffee"; "cogs"; "cohesive"; "coils"; "colony"; "comb";
  "cool"; "copy"; "corrode"; "costume"; "cottage"; "cousin"; "cowl"; "criminal";
  "cube"; "cucumber"; "cuddled"; "cuffs"; "cuisine"; "cunning"; "cupcake"; "custom";
  "cycling"; "cylinder"; "cynical"; "dabbing"; "dads"; "daft"; "dagger"; "daily";
  "damp"; "dangerous"; "dapper"; "darted"; "dash"; "dating"; "dauntless"; "dawn";
  "daytime"; "dazed"; "debut"; "decay"; "dedicated"; "deepest"; "deftly"; "degrees";
  "dehydrate"; "deity"; "dejected"; "delayed"; "demonstrate"; "dented"; "deodorant"; "depth";
  "desk"; "devoid"; "dewdrop"; "dexterity"; "dialect"; "dice"; "diet"; "different";
  "digit"; "dilute"; "dime"; "dinner"; "diode"; "diplomat"; "directed"; "distance";
  "ditch"; "divers"; "dizzy"; "doctor"; "dodge"; "does"; "dogs"; "doing";
  "dolphin"; "domestic"; "donuts"; "doorway"; "dormant"; "dosage"; "dotted"; "double";
  "dove"; "down"; "dozen"; "dreams"; "drinks"; "drowning"; "drunk"; "drying";
  "dual"; "dubbed"; "duckling"; "dude"; "duets"; "duke"; "dullness"; "dummy";
  "dunes"; "duplex"; "duration"; "dusted"; "duties"; "dwarf"; "dwelt"; "dwindling";
  "dying"; "dynamite"; "dyslexic"; "each"; "eagle"; "earth"; "easy"; "eating";
  "eavesdrop"; "eccentric"; "echo"; "eclipse"; "economics"; "ecstatic"; "eden"; "edgy";
  "edited"; "educated"; "eels"; "efficient"; "eggs"; "egotistic"; "eight"; "either";
  "eject"; "elapse"; "elbow"; "eldest"; "eleven"; "elite"; "elope"; "else";
  "eluded"; "emails"; "ember"; "emerge"; "emit"; "emotion"; "empty"; "emulate";
  "energy"; "enforce"; "enhanced"; "enigma"; "enjoy"; "enlist"; "enmity"; "enough";
  "enraged"; "ensign"; "entrance"; "envy"; "epoxy"; "equip"; "erase"; "erected";
  "erosion"; "error"; "eskimos"; "espionage"; "essential"; "estate"; "etched"; "eternal";
  "ethics"; "etiquette"; "evaluate"; "evenings"; "evicted"; "evolved"; "examine"; "excess";
  "exhale"; "exit"; "exotic"; "exquisite"; "extra"; "exult"; "fabrics"; "factual";
  "fading"; "fainted"; "faked"; "fall"; "family"; "fancy"; "farming"; "fatal";
  "faulty"; "fawns"; "faxed"; "fazed"; "feast"; "february"; "federal"; "feel";
  "feline"; "females"; "fences"; "ferry"; "festival"; "fetches"; "fever"; "fewest";
  "fiat"; "fibula"; "fictional"; "fidget"; "fierce"; "fifteen"; "fight"; "films";
  "firm"; "fishing"; "fitting"; "five"; "fixate"; "fizzle"; "fleet"; "flippant";
  "flying"; "foamy"; "focus"; "foes"; "foggy"; "foiled"; "folding"; "fonts";
  "foolish"; "fossil"; "fountain"; "fowls"; "foxes"; "foyer"; "framed"; "friendly";
  "frown"; "fruit"; "frying"; "fudge"; "fuel"; "fugitive"; "fully"; "fuming";
  "fungal"; "furnished"; "fuselage"; "future"; "fuzzy"; "gables"; "gadget"; "gags";
  "gained"; "galaxy"; "gambit"; "gang"; "gasp"; "gather"; "gauze"; "gave";
  "gawk"; "gaze"; "gearbox"; "gecko"; "geek"; "gels"; "gemstone"; "general";
  "geometry"; "germs"; "gesture"; "getting"; "geyser"; "ghetto"; "ghost"; "giant";
  "giddy"; "gifts"; "gigantic"; "gills"; "gimmick"; "ginger"; "girth"; "giving";
  "glass"; "gleeful"; "glide"; "gnaw"; "gnome"; "goat"; "goblet"; "godfather";
  "goes"; "goggles"; "going"; "goldfish"; "gone"; "goodbye"; "gopher"; "gorilla";
  "gossip"; "gotten"; "gourmet"; "governing"; "gown"; "greater"; "grunt"; "guarded";
  "guest"; "guide"; "gulp"; "gumball"; "guru"; "gusts"; "gutter"; "guys";
  "gymnast"; "gypsy"; "gyrate"; "habitat"; "hacksaw"; "haggled"; "hairy"; "hamburger";
  "happens"; "hashing"; "hatchet"; "haunted"; "having"; "hawk"; "haystack"; "hazard";
  "hectare"; "hedgehog"; "heels"; "hefty"; "height"; "hemlock"; "hence"; "heron";
  "hesitate"; "hexagon"; "hickory"; "hiding"; "highway"; "hijack"; "hiker"; "hills";
  "himself"; "hinder"; "hippo"; "hire"; "history"; "hitched"; "hive"; "hoax";
  "hobby"; "hockey"; "hoisting"; "hold"; "honked"; "hookup"; "hope"; "hornet";
  "hospital"; "hotel"; "hounded"; "hover"; "howls"; "hubcaps"; "huddle"; "huge";
  "hull"; "humid"; "hunter"; "hurried"; "husband"; "huts"; "hybrid"; "hydrogen";
  "hyper"; "iceberg"; "icing"; "icon"; "identity"; "idiom"; "idled"; "idols";
  "igloo"; "ignore"; "iguana"; "illness"; "imagine"; "imbalance"; "imitate"; "impel";
  "inactive"; "inbound"; "incur"; "industrial"; "inexact"; "inflamed"; "ingested"; "initiate";
  "injury"; "inkling"; "inline"; "inmate"; "innocent"; "inorganic"; "input"; "inquest";
  "inroads"; "insult"; "intended"; "inundate"; "invoke"; "inwardly"; "ionic"; "irate";
  "iris"; "irony"; "irritate"; "island"; "isolated"; "issued"; "italics"; "itches";
  "items"; "itinerary"; "itself"; "ivory"; "jabbed"; "jackets"; "jaded"; "jagged";
  "jailed"; "jamming"; "january"; "jargon"; "jaunt"; "javelin"; "jaws"; "jazz";
  "jeans"; "jeers"; "jellyfish"; "jeopardy"; "jerseys"; "jester"; "jetting"; "jewels";
  "jigsaw"; "jingle"; "jittery"; "jive"; "jobs"; "jockey"; "jogger"; "joining";
  "joking"; "jolted"; "jostle"; "journal"; "joyous"; "jubilee"; "judge"; "juggled";
  "juicy"; "jukebox"; "july"; "jump"; "junk"; "jury"; "justice"; "juvenile";
  "kangaroo"; "karate"; "keep"; "kennel"; "kept"; "kernels"; "kettle"; "keyboard";
  "kickoff"; "kidneys"; "king"; "kiosk"; "kisses"; "kitchens"; "kiwi"; "knapsack";
  "knee"; "knife"; "knowledge"; "knuckle"; "koala"; "laboratory"; "ladder"; "lagoon";
  "lair"; "lakes"; "lamb"; "language"; "laptop"; "large"; "last"; "later";
  "launching"; "lava"; "lawsuit"; "layout"; "lazy"; "lectures"; "ledge"; "leech";
  "left"; "legion"; "leisure"; "lemon"; "lending"; "leopard"; "lesson"; "lettuce";
  "lexicon"; "liar"; "library"; "licks"; "lids"; "lied"; "lifestyle"; "light";
  "likewise"; "lilac"; "limits"; "linen"; "lion"; "lipstick"; "liquid"; "listen";
  "lively"; "loaded"; "lobster"; "locker"; "lodge"; "lofty"; "logic"; "loincloth";
  "long"; "looking"; "lopped"; "lordship"; "losing"; "lottery"; "loudly"; "love";
  "lower"; "loyal"; "lucky"; "luggage"; "lukewarm"; "lullaby"; "lumber"; "lunar";
  "lurk"; "lush"; "luxury"; "lymph"; "lynx"; "lyrics"; "macro"; "madness";
  "magically"; "mailed"; "major"; "makeup"; "malady"; "mammal"; "maps"; "masterful";
  "match"; "maul"; "maverick"; "maximum"; "mayor"; "maze"; "meant"; "mechanic";
  "medicate"; "meeting"; "megabyte"; "melting"; "memoir"; "menu"; "merger"; "mesh";
  "metro"; "mews"; "mice"; "midst"; "mighty"; "mime"; "mirror"; "misery";
  "mittens"; "mixture"; "moat"; "mobile"; "mocked"; "mohawk"; "moisture"; "molten";
  "moment"; "money"; "moon"; "mops"; "morsel"; "mostly"; "motherly"; "mouth";
  "movement"; "mowing"; "much"; "muddy"; "muffin"; "mugged"; "mullet"; "mumble";
  "mundane"; "muppet"; "mural"; "musical"; "muzzle"; "myriad"; "mystery"; "myth";
  "nabbing"; "nagged"; "nail"; "names"; "nanny"; "napkin"; "narrate"; "nasty";
  "natural"; "nautical"; "navy"; "nearby"; "necklace"; "needed"; "negative"; "neither";
  "neon"; "nephew"; "nerves"; "nestle"; "network"; "neutral"; "never"; "newt";
  "nexus"; "nibs"; "niche"; "niece"; "nifty"; "nightly"; "nimbly"; "nineteen";
  "nirvana"; "nitrogen"; "nobody"; "nocturnal"; "nodes"; "noises"; "nomad"; "noodles";
  "northern"; "nostril"; "noted"; "nouns"; "novelty"; "nowhere"; "nozzle"; "nuance";
  "nucleus"; "nudged"; "nugget"; "nuisance"; "null"; "number"; "nuns"; "nurse";
  "nutshell"; "nylon"; "oaks"; "oars"; "oasis"; "oatmeal"; "obedient"; "object";
  "obliged"; "obnoxious"; "observant"; "obtains"; "obvious"; "occur"; "ocean"; "october";
  "odds"; "odometer"; "offend"; "often"; "oilfield"; "ointment"; "okay"; "older";
  "olive"; "olympics"; "omega"; "omission"; "omnibus"; "onboard"; "oncoming"; "oneself";
  "ongoing"; "onion"; "online"; "onslaught"; "onto"; "onward"; "oozed"; "opacity";
  "opened"; "opposite"; "optical"; "opus"; "orange"; "orbit"; "orchid"; "orders";
  "organs"; "origin"; "ornament"; "orphans"; "oscar"; "ostrich"; "otherwise"; "otter";
  "ouch"; "ought"; "ounce"; "ourselves"; "oust"; "outbreak"; "oval"; "oven";
  "owed"; "owls"; "owner"; "oxidant"; "oxygen"; "oyster"; "ozone"; "pact";
  "paddles"; "pager"; "pairing"; "palace"; "pamphlet"; "pancakes"; "paper"; "paradise";
  "pastry"; "patio"; "pause"; "pavements"; "pawnshop"; "payment"; "peaches"; "pebbles";
  "peculiar"; "pedantic"; "peeled"; "pegs"; "pelican"; "pencil"; "people"; "pepper";
  "perfect"; "pests"; "petals"; "phase"; "pheasants"; "phone"; "phrases"; "physics";
  "piano"; "picked"; "pierce"; "pigment"; "piloted"; "pimple"; "pinched"; "pioneer";
  "pipeline"; "pirate"; "pistons"; "pitched"; "pivot"; "pixels"; "pizza"; "playful";
  "pledge"; "pliers"; "plotting"; "plus"; "plywood"; "poaching"; "pockets"; "podcast";
  "poetry"; "point"; "poker"; "polar"; "ponies"; "pool"; "popular"; "portents";
  "possible"; "potato"; "pouch"; "poverty"; "powder"; "pram"; "present"; "pride";
  "problems"; "pruned"; "prying"; "psychic"; "public"; "puck"; "puddle"; "puffin";
  "pulp"; "pumpkins"; "punch"; "puppy"; "purged"; "push"; "putty"; "puzzled";
  "pylons"; "pyramid"; "python"; "queen"; "quick"; "quote"; "rabbits"; "racetrack";
  "radar"; "rafts"; "rage"; "railway"; "raking"; "rally"; "ramped"; "randomly";
  "rapid"; "rarest"; "rash"; "rated"; "ravine"; "rays"; "razor"; "react";
  "rebel"; "recipe"; "reduce"; "reef"; "refer"; "regular"; "reheat"; "reinvest";
  "rejoices"; "rekindle"; "relic"; "remedy"; "renting"; "reorder"; "repent"; "request";
  "reruns"; "rest"; "return"; "reunion"; "revamp"; "rewind"; "rhino"; "rhythm";
  "ribbon"; "richly"; "ridges"; "rift"; "rigid"; "rims"; "ringing"; "riots";
  "ripped"; "rising"; "ritual"; "river"; "roared"; "robot"; "rockets"; "rodent";
  "rogue"; "roles"; "romance"; "roomy"; "roped"; "roster"; "rotate"; "rounded";
  "rover"; "rowboat"; "royal"; "ruby"; "rudely"; "ruffled"; "rugged"; "ruined";
  "ruling"; "rumble"; "runway"; "rural"; "rustled"; "ruthless"; "sabotage"; "sack";
  "sadness"; "safety"; "saga"; "sailor"; "sake"; "salads"; "sample"; "sanity";
  "sapling"; "sarcasm"; "sash"; "satin"; "saucepan"; "saved"; "sawmill"; "saxophone";
  "sayings"; "scamper"; "scenic"; "school"; "science"; "scoop"; "scrub"; "scuba";
  "seasons"; "second"; "sedan"; "seeded"; "segments"; "seismic"; "selfish"; "semifinal";
  "sensible"; "september"; "sequence"; "serving"; "session"; "setup"; "seventh"; "sewage";
  "shackles"; "shelter"; "shipped"; "shocking"; "shrugged"; "shuffled"; "shyness"; "siblings";
  "sickness"; "sidekick"; "sieve"; "sifting"; "sighting"; "silk"; "simplest"; "sincerely";
  "sipped"; "siren"; "situated"; "sixteen"; "sizes"; "skater"; "skew"; "skirting";
  "skulls"; "skydive"; "slackens"; "sleepless"; "slid"; "slower"; "slug"; "smash";
  "smelting"; "smidgen"; "smog"; "smuggled"; "snake"; "sneeze"; "sniff"; "snout";
  "snug"; "soapy"; "sober"; "soccer"; "soda"; "software"; "soggy"; "soil";
  "solved"; "somewhere"; "sonic"; "soothe"; "soprano"; "sorry"; "southern"; "sovereign";
  "sowed"; "soya"; "space"; "speedy"; "sphere"; "spiders"; "splendid"; "spout";
  "sprig"; "spud"; "spying"; "square"; "stacking"; "stellar"; "stick"; "stockpile";
  "strained"; "stunning"; "stylishly"; "subtly"; "succeed"; "suddenly"; "suede"; "suffice";
  "sugar"; "suitcase"; "sulking"; "summon"; "sunken"; "superior"; "surfer"; "sushi";
  "suture"; "swagger"; "swept"; "swiftly"; "sword"; "swung"; "syllabus"; "symptoms";
  "syndrome"; "syringe"; "system"; "taboo"; "tacit"; "tadpoles"; "tagged"; "tail";
  "taken"; "talent"; "tamper"; "tanks"; "tapestry"; "tarnished"; "tasked"; "tattoo";
  "taunts"; "tavern"; "tawny"; "taxi"; "teardrop"; "technical"; "tedious"; "teeming";
  "tell"; "template"; "tender"; "tepid"; "tequila"; "terminal"; "testing"; "tether";
  "textbook"; "thaw"; "theatrics"; "thirsty"; "thorn"; "threaten"; "thumbs"; "thwart";
  "ticket"; "tidy"; "tiers"; "tiger"; "tilt"; "timber"; "tinted"; "tipsy";
  "tirade"; "tissue"; "titans"; "toaster"; "tobacco"; "today"; "toenail"; "toffee";
  "together"; "toilet"; "token"; "tolerant"; "tomorrow"; "tonic"; "toolbox"; "topic";
  "torch"; "tossed"; "total"; "touchy"; "towel"; "toxic"; "toyed"; "trash";
  "trendy"; "tribal"; "trolling"; "truth"; "trying"; "tsunami"; "tubes"; "tucks";
  "tudor"; "tuesday"; "tufts"; "tugs"; "tuition"; "tulips"; "tumbling"; "tunnel";
  "turnip"; "tusks"; "tutor"; "tuxedo"; "twang"; "tweezers"; "twice"; "twofold";
  "tycoon"; "typist"; "tyrant"; "ugly"; "ulcers"; "ultimate"; "umbrella"; "umpire";
  "unafraid"; "unbending"; "uncle"; "under"; "uneven"; "unfit"; "ungainly"; "unhappy";
  "union"; "unjustly"; "unknown"; "unlikely"; "unmask"; "unnoticed"; "unopened"; "unplugs";
  "unquoted"; "unrest"; "unsafe"; "until"; "unusual"; "unveil"; "unwind"; "unzip";
  "upbeat"; "upcoming"; "update"; "upgrade"; "uphill"; "upkeep"; "upload"; "upon";
  "upper"; "upright"; "upstairs"; "uptight"; "upwards"; "urban"; "urchins"; "urgent";
  "usage"; "useful"; "usher"; "using"; "usual"; "utensils"; "utility"; "utmost";
  "utopia"; "uttered"; "vacation"; "vague"; "vain"; "value"; "vampire"; "vane";
  "vapidly"; "vary"; "vastness"; "vats"; "vaults"; "vector"; "veered"; "vegan";
  "vehicle"; "vein"; "velvet"; "venomous"; "verification"; "vessel"; "veteran"; "vexed";
  "vials"; "vibrate"; "victim"; "video"; "viewpoint"; "vigilant"; "viking"; "village";
  "vinegar"; "violin"; "vipers"; "virtual"; "visited"; "vitals"; "vivid"; "vixen";
  "vocal"; "vogue"; "voice"; "volcano"; "vortex"; "voted"; "voucher"; "vowels";
  "voyage"; "vulture"; "wade"; "waffle"; "wagtail"; "waist"; "waking"; "wallets";
  "wanted"; "warped"; "washing"; "water"; "waveform"; "waxing"; "wayside"; "weavers";
  "website"; "wedge"; "weekday"; "weird"; "welders"; "went"; "wept"; "were";
  "western"; "wetsuit"; "whale"; "when"; "whipped"; "whole"; "wickets"; "width";
  "wield"; "wife"; "wiggle"; "wildly"; "winter"; "wipeout"; "wiring"; "wise";
  "withdrawn"; "wives"; "wizard"; "wobbly"; "woes"; "woken"; "wolf"; "womanly";
  "wonders"; "woozy"; "worry"; "wounded"; "woven"; "wrap"; "wrist"; "wrong";
  "yacht"; "yahoo"; "yanks"; "yard"; "yawning"; "yearbook"; "yellow"; "yesterday";
  "yeti"; "yields"; "yodel"; "yoga"; "younger"; "yoyo"; "zapped"; "zeal";
  "zebra"; "zero"; "zesty"; "zigzags"; "zinger"; "zippers"; "zodiac"; "zombie";
  "zones"; "zoom"
].

Definition wlLen : Z := 1626.

(** [for (let i = start; ...; i += step)] with a body that may throw: the
    loop is a fold over the values taken by [i]. *)
Fixpoint for_each {S} (idx : list Z) (body : Z -> S -> Result S) (s : S) : Result S :=
  match idx with
  | [] => ok s
  | i :: idx' => let* s' := body i s in for_each idx' body s'
  end.

(** The values [0, step, 2*step, ...] of a counter that runs [n] times. *)
Definition steps (n : nat) (step : Z) : list Z :=
  map (fun k => step * Z.of_nat k) (seq 0 n).

(** ** CRC-32 *)

Definition crc32_step (crc : Z) : Z :=
  if JS.and crc 1 =? 0 then JS.ushr crc 1
  else JS.xor 0xEDB88320 (JS.ushr crc 1).

(** [table[i]]: eight steps from [i], stored in a [Uint32Array]. *)
Definition crc32_table : list Z :=
  map (fun i => JS.ToUint32 (Nat.iter 8 crc32_step (Z.of_nat i))) (seq 0 256).

Fixpoint crc32_loop (str : string) (crc : Z) : Z :=
  match str with
  | EmptyString => crc
  | String c str' =>
      crc32_loop str'
        (JS.xor (JS.ushr crc 8)
           (nth (Z.to_nat (JS.and (JS.xor crc (charCode c)) 0xFF)) crc32_table 0))
  end.

Definition crc32 (str : string) : Z :=
  JS.ushr (JS.xor (crc32_loop str 0xFFFFFFFF) 0xFFFFFFFF) 0.

(** ** Mnemonic codec *)

(** [WORDLIST.indexOf(word)]: the first position of [word], or [-1]. *)
Fixpoint indexOf (l : list string) (word : string) : Z :=
  match l with
  | [] => -1
  | x :: l' =>
      if String.eqb x word then 0
      else let r := indexOf l' word in
           if r =? -1 then -1 else r + 1
  end.

Definition getWordIndex (word : string) : Result Z :=
  let index := indexOf WORDLIST word in
  if index =? -1 then throw (UnknownWord word) else ok index.

(** [view.setUint32(0, val, true)] followed by the four [getUint8]. *)
Definition setUint32LE (val : Z) : list byte :=
  let v := JS.ToUint32 val in
  [u8 v; u8 (Z.shiftr v 8); u8 (Z.shiftr v 16); u8 (Z.shiftr v 24)].

(** [new DataView(bytes.buffer, i, 4).getUint32(0, true)]; the view cannot
    be built when it would reach past the end of the buffer. *)
Definition getUint32LE (bytes : list byte) (i : Z) : Result Z :=
  match slice bytes (Z.to_nat i) (Z.to_nat i + 4) with
  | [b0; b1; b2; b3] =>
      ok (byteZ b0 + Z.shiftl (byteZ b1) 8 + Z.shiftl (byteZ b2) 16
          + Z.shiftl (byteZ b3) 24)
  | _ => throw RangeError
  end.

(** The value rebuilt from three word indices. [%] of JavaScript is the
    remainder that takes the sign of the dividend, [Z.rem]. *)
Definition triplet_value (w1 w2 w3 : Z) : Z :=
  w1 + wlLen * Z.rem ((wlLen - w1) + w2) wlLen
     + wlLen * wlLen * Z.rem ((wlLen - w2) + w3) wlLen.

(** [dataWords[i]] handed to [getWordIndex]; an absent entry is looked up
    as [undefined], which no word equals. *)
Definition wordIndexAt (dataWords : list string) (i : Z) : Result Z :=
  match at_index dataWords i with
  | Some w => getWordIndex w
  | None => throw (UnknownWord "undefined")
  end.

Definition mnemonicToPrivateKey_body (dataWords : list string) (i : Z)
    (privateKeyBytes : list byte) : Result (list byte) :=
  let* w1 := wordIndexAt dataWords i in
  let* w2 := wordIndexAt dataWords (i + 1) in
  let* w3 := wordIndexAt dataWords (i + 2) in
  let val := triplet_value w1 w2 w3 in
  if negb (Z.rem val wlLen =? w1) then throw EncodingError
  else ok (privateKeyBytes ++ setUint32LE val).

Definition mnemonicToPrivateKey (mnemonic : string) : Result (list byte) :=
  let words := split_ws (trim mnemonic) in
  if negb (List.length words =? 25)%nat then throw InvalidLength
  else
    let dataWords := slice words 0 24 in
    for_each (steps 8 3) (mnemonicToPrivateKey_body dataWords) [].

(** [calculateChecksumWord]: [None] is the [undefined] read past the end of
    [words]. *)
Definition calculateChecksumWord (words : list string) : option string :=
  let trimmed := String.concat "" (map (substr0 3) words) in
  let hash := crc32 trimmed in
  let checksumIndex := Z.rem hash 24 in
  at_index words checksumIndex.

(** [WORDLIST[w]] pushed on [words]. An [undefined] entry would make
    [calculateChecksumWord] fail on [word.substr]. *)
Definition wordAt (w : Z) : Result string :=
  match at_index WORDLIST w with
  | Some word => ok word
  | None => throw TypeError
  end.

Definition privateKeyToMnemonic_body (privateKeyBytes : list byte) (i : Z)
    (words : list string) : Result (list string) :=
  let* val := getUint32LE privateKeyBytes i in
  let w1 := Z.rem val wlLen in
  let w2 := Z.rem (val / wlLen + w1) wlLen in
  let w3 := Z.rem (val / wlLen / wlLen + w2) wlLen in
  let* word1 := wordAt w1 in
  let* word2 := wordAt w2 in
  let* word3 := wordAt w3 in
  ok (words ++ [word1; word2; word3]).

(** The 25 words of [privateKeyToMnemonic], before [join]. A checksum word
    that is [undefined] is rendered by [join] as the empty string. *)
Definition privateKeyToMnemonic_words (privateKeyBytes : list byte)
    : Result (list string) :=
  let* words := for_each (steps 8 4) (privateKeyToMnemonic_body privateKeyBytes) [] in
  let checksumWord := calculateChecksumWord words in
  ok (words ++ [match checksumWord with Some w => w | None => "" end]).

Definition privateKeyToMnemonic (privateKeyBytes : list byte) : Result string :=
  let* words := privateKeyToMnemonic_words privateKeyBytes in
  ok (String.concat " " words).

Definition verifyMnemonicChecksum (mnemonic : string) : bool :=
  let words := split_ws (trim mnemonic) in
  if negb (List.length words =? 25)%nat then false
  else
    let dataWords := slice words 0 24 in
    let expectedChecksum := calculateChecksumWord dataWords in
    match expectedChecksum, at_index words 24 with
    | Some e, Some a => String.eqb e a
    | _, _ => false
    end.

(** ** Hexadecimal *)

Definition hex_digit_value (c : ascii) : option Z :=
  let n := charCode c in
  if (48 <=? n) && (n <=? 57) then Some (n - 48)
  else if (97 <=? n) && (n <=? 102) then Some (n - 87)
  else if (65 <=? n) && (n <=? 70) then Some (n - 55)
  else None.

(** The longest prefix of hexadecimal digits, read as a number; [None]
    when there is no digit at all. *)
Fixpoint hex_prefix (s : string) (acc : option Z) : option Z :=
  match s with
  | EmptyString => acc
  | String c s' =>
      match hex_digit_value c with
      | Some d => hex_prefix s' (Some (16 * match acc with Some a => a | None => 0 end + d))
      | None => acc
      end
  end.

Definition strip_0x (s : string) : string :=
  match s with
  | String "0" (String "x" s') => s'
  | String "0" (String "X" s') => s'
  | _ => s
  end.

(** [parseInt(s, 16)]: leading white space, a sign and a [0x] prefix are
    skipped; [None] is [NaN]. *)
Definition parseInt16 (s : string) : option Z :=
  match trimStart s with
  | String "-" s' => option_map Z.opp (hex_prefix (strip_0x s') None)
  | String "+" s' => hex_prefix (strip_0x s') None
  | s' => hex_prefix (strip_0x s') None
  end.

(** [hex.substr(2 * i, 2)] for each [i] below [floor(hex.length / 2)]. *)
Fixpoint hex_pairs (hex : string) : list string :=
  match hex with
  | String a (String b hex') => String a (String b EmptyString) :: hex_pairs hex'
  | _ => []
  end.

(** A [NaN] stored in a [Uint8Array] becomes 0. *)
Definition hexToBytes (hex : string) : list byte :=
  map (fun p => match parseInt16 p with Some v => u8 v | None => x00 end)
      (hex_pairs hex).

Definition hex_char (d : Z) : ascii :=
  ascii_of_N (Z.to_N (if d <? 10 then 48 + d else 87 + d)).

(** [b.toString(16).padStart(2, '0')]. *)
Definition byteToHex (b : byte) : string :=
  String (hex_char (byteZ b / 16)) (String (hex_char (byteZ b mod 16)) EmptyString).

Definition bytesToHex (bytes : list byte) : string :=
  String.concat "" (map byteToHex bytes).

(** ** Varint *)

(** The [while (num >= 0x80)] loop of [encodeVarint]: it returns the bytes
    pushed and the last value of [num]. *)
Equations? encodeVarint_loop (num : Z) (bytes : list Z) : list Z * Z
    by wf (Z.to_nat (Z.log2 num)) lt :=
  encodeVarint_loop num bytes with Z_le_gt_dec 0x80 num => {
    | left _ =>
        let byte := JS.or (JS.and num 0x7f) 0x80 in
        encodeVarint_loop (JS.ushr num 7) (bytes ++ [byte]);
    | right _ => (bytes, num) }.
Proof.
  unfold JS.ushr, JS.ToUint32, JS.two32.
  change (7 mod 2 ^ 32 mod 32) with 7.
  assert (Hm : 0 <= num mod 2 ^ 32 <= num).
  { split; [apply Z.mod_pos_bound; lia | apply Z.mod_le; lia]. }
  assert (H7 : 7 <= Z.log2 num).
  { apply Z.log2_le_pow2; lia. }
  assert (Hs : Z.log2 (Z.shiftr (num mod 2 ^ 32) 7) <= Z.log2 num - 7).
  { destruct (Z.eq_dec (num mod 2 ^ 32) 0) as [E|E].
    - rewrite E, Z.shiftr_0_l. simpl. lia.
    - rewrite Z.log2_shiftr by lia.
      pose proof (Z.log2_le_mono _ _ (proj2 Hm)). lia. }
  pose proof (Z.log2_nonneg (Z.shiftr (num mod 2 ^ 32) 7)).
  lia.
Qed.

Definition encodeVarint (num : Z) : list byte :=
  let '(bytes, num') := encodeVarint_loop num [] in
  map u8 (bytes ++ [JS.and num' 0xff]).

(** ** Block-based Base58 *)

Definition BASE58_ALPHABET : string :=
  "123456789ABCDEFGHJKLMNPQRSTUVWXYZabcdefghijkmnopqrstuvwxyz".

Definition ENCODED_BLOCK_SIZES : list Z := [0; 2; 3; 5; 6; 7; 9; 10; 11].
Definition FULL_BLOCK_SIZE : Z := 8.
Definition FULL_ENCODED_BLOCK_SIZE : Z := 11.

(** [BASE58_ALPHABET[k]] as it is seen by [join]: a one-character string,
    or nothing for [undefined]. *)
Definition alphabet_at (k : Z) : string :=
  if k <? 0 then EmptyString
  else match String.get (Z.to_nat k) BASE58_ALPHABET with
       | Some c => String c EmptyString
       | None => EmptyString
       end.

(** [ENCODED_BLOCK_SIZES[k]], for [0 <= k <= 8]. *)
Definition encoded_block_size (k : Z) : Z := nth (Z.to_nat k) ENCODED_BLOCK_SIZES 0.

Fixpoint list_update {A} (a : list A) (i : nat) (v : A) : list A :=
  match a, i with
  | [], _ => []
  | _ :: a', O => v :: a'
  | x :: a', S i' => x :: list_update a' i' v
  end.

(** [result[idx] = v] on a JavaScript array of strings, as [join] sees it:
    a negative index creates a property that [join] ignores, an index past
    the end extends the array with holes, which [join] renders empty. *)
Definition array_set (a : list string) (idx : Z) (v : string) : list string :=
  if idx <? 0 then a
  else if idx <? Z.of_nat (List.length a) then list_update a (Z.to_nat idx) v
  else a ++ repeat EmptyString (Z.to_nat idx - List.length a) ++ [v].

(** [uint8BeToBigInt]: [buffer[offset + i]] past the end is [undefined],
    on which [BigInt] throws. *)
Fixpoint uint8Be_loop (buffer : list byte) (offset : Z) (idx : list Z) (num : Z)
    : Result Z :=
  match idx with
  | [] => ok num
  | i :: idx' =>
      match at_index buffer (offset + i) with
      | Some b => uint8Be_loop buffer offset idx' (Z.lor (Z.shiftl num 8) (byteZ b))
      | None => throw TypeError
      end
  end.

Definition uint8BeToBigInt (buffer : list byte) (offset size : Z) : Result Z :=
  if (size <? 1) || (8 <? size) then throw InvalidSize
  else uint8Be_loop buffer offset (steps (Z.to_nat size) 1) 0.

(** The [while (num > 0n)] loop that writes the digits of one block from
    right to left. On [bigint], [/] and [%] truncate. *)
Definition digits_left (num : Z) : nat :=
  if 0 <? num then S (Z.to_nat (Z.log2 num)) else O.

Equations? base58_digits (num : Z) (j : Z) (resultStart : Z) (result : list string)
    : list string by wf (digits_left num) lt :=
  base58_digits num j resultStart result with Z_lt_ge_dec 0 num => {
    | left _ =>
        let remainder := Z.rem num 58 in
        base58_digits (Z.quot num 58) (j - 1) resultStart
          (array_set result (resultStart + j) (alphabet_at remainder));
    | right _ => result }.
Proof.
  rename l into Hn. unfold digits_left.
  destruct (Z.ltb_spec 0 num) as [_|]; [|lia].
  destruct (Z.ltb_spec 0 (Z.quot num 58)) as [Hq|]; [|lia].
  assert (Hle : 58 * Z.quot num 58 <= num).
  { pose proof (Z.quot_rem' num 58).
    pose proof (Z.rem_nonneg num 58). lia. }
  pose proof (Z.log2_spec _ Hq) as [Hlo _].
  assert (Hk : Z.log2 (Z.quot num 58) + 1 <= Z.log2 num).
  { apply Z.log2_le_pow2; [lia|].
    rewrite Z.pow_add_r by (try apply Z.log2_nonneg; lia). lia. }
  pose proof (Z.log2_nonneg (Z.quot num 58)). lia.
Qed.

Definition encode_block (buffer : list byte) (blockStart resultStart size : Z)
    (result : list string) : Result (list string) :=
  let* num := uint8BeToBigInt buffer blockStart size in
  let j := encoded_block_size size - 1 in
  ok (base58_digits num j resultStart result).

Definition base58Encode (buffer : list byte) : Result string :=
  let len := Z.of_nat (List.length buffer) in
  if len =? 0 then ok EmptyString
  else
    let fullBlockCount := len / FULL_BLOCK_SIZE in
    let lastBlockSize := Z.rem len FULL_BLOCK_SIZE in
    let resultSize :=
      fullBlockCount * FULL_ENCODED_BLOCK_SIZE + encoded_block_size lastBlockSize in
    let result := repeat "1" (Z.to_nat resultSize) in
    let* result :=
      for_each (steps (Z.to_nat fullBlockCount) 1)
        (fun i result =>
           encode_block buffer (i * FULL_BLOCK_SIZE) (i * FULL_ENCODED_BLOCK_SIZE)
             FULL_BLOCK_SIZE result)
        result in
    let* result :=
      if 0 <? lastBlockSize then
        encode_block buffer (fullBlockCount * FULL_BLOCK_SIZE)
          (fullBlockCount * FULL_ENCODED_BLOCK_SIZE) lastBlockSize result
      else ok result in
    ok (String.concat "" result).

(** [target.set(source, offset)] on a [Uint8Array]. *)
Definition u8_set (target source : list byte) (offset : nat) : Result (list byte) :=
  if (offset + List.length source <=? List.length target)%nat then
    ok (firstn offset target ++ source ++ skipn (offset + List.length source) target)
  else throw RangeError.

(** ** Keys, addresses and wallets *)

Record WalletData : Type := {
  address : string;
  privateKey : string;
  publicKey : string;
  mnemonic : string
}.

Record KeyPair : Type := {
  kp_publicKey : list byte;
  kp_privateKey : list byte
}.

(** The curve order l = 2^252 + 27742317777372353535851937790883648493. *)
Definition curveOrder : Z :=
  0x1000000000000000000000000000000014def9dea2f79cd65812631a5cf5d3ed.

(** CRYPTONOTE_PUBLIC_ADDRESS_BASE58_PREFIX *)
Definition PREFIX : Z := 0x198004.

(** The loop [scalarBigInt |= BigInt(privateKeyBytes[i]) << (BigInt(i) * 8n)]
    for [i] below 32. *)
Definition bytesToScalar (privateKeyBytes : list byte) : Result Z :=
  for_each (steps 32 1)
    (fun i scalarBigInt =>
       match at_index privateKeyBytes i with
       | Some b => ok (Z.lor scalarBigInt (Z.shiftl (byteZ b) (i * 8)))
       | None => throw TypeError
       end)
    0.

(** The number of draws that the retry loop of [generateWallet] may still
    make once [attempts] draws are done. *)
Definition attempts_left (attempts : Z) : nat := Z.to_nat (1000 - attempts).

Section Engine.

(** The imported libraries. [BASE_multiply] is
    [Ed25519.Point.BASE.multiply] of @noble/ed25519, which may reject its
    argument; [toBytes] is [point.toBytes()]; [keccak256] is the function
    of js-sha3, which returns the digest in hexadecimal. *)
Variable Point : Type.
Variable BASE_multiply : Z -> Result Point.
Variable toBytes : Point -> list byte.
Variable keccak256 : list byte -> string.

(** [generateRandomBytes(32)]: the outcome of the k-th call. *)
Variable generateRandomBytes : nat -> Result (list byte).

Definition generateEd25519Keypair (privateKeyBytes : list byte) (ensureValid : bool)
    : Result KeyPair :=
  let* scalarBigInt := bytesToScalar privateKeyBytes in
  let scalarToUse :=
    if ensureValid && (curveOrder <=? scalarBigInt)
    then Z.rem scalarBigInt curveOrder
    else scalarBigInt in
  let* point := BASE_multiply scalarToUse in
  let publicKeyBytes := toBytes point in
  ok {| kp_publicKey := publicKeyBytes; kp_privateKey := privateKeyBytes |}.

Definition publicKeyToAddress (publicKeyBytes : list byte) : Result string :=
  let prefixBytes := encodeVarint PREFIX in
  let buffer := repeat x00 (List.length prefixBytes + List.length publicKeyBytes) in
  let* buffer := u8_set buffer prefixBytes 0 in
  let* buffer := u8_set buffer publicKeyBytes (List.length prefixBytes) in
  let hashHex := keccak256 buffer in
  let hashBytes := hexToBytes hashHex in
  let checksum := slice hashBytes 0 4 in
  let finalBuffer := repeat x00 (List.length buffer + 4) in
  let* finalBuffer := u8_set finalBuffer buffer 0 in
  let* finalBuffer := u8_set finalBuffer checksum (List.length buffer) in
  base58Encode finalBuffer.

(** The [do ... while (scalarBigInt >= curveOrder && attempts < 1000)] loop
    of [generateWallet], entered with [attempts] draws already made; it
    returns the last draw and the final value of [attempts]. *)
Equations? draw_loop (attempts : Z) : Result (list byte * Z)
    by wf (attempts_left attempts) lt :=
  draw_loop attempts with generateRandomBytes (Z.to_nat attempts) => {
    | inl e => throw e;
    | inr privateKeyBytes with bytesToScalar privateKeyBytes => {
        | inl e => throw e;
        | inr scalarBigInt
            with Z_le_gt_dec curveOrder scalarBigInt, Z_lt_ge_dec (attempts + 1) 1000 => {
            | left _, left _ => draw_loop (attempts + 1);
            | _, _ => ok (privateKeyBytes, attempts + 1) } } }.
Proof. unfold attempts_left. lia. Qed.

Definition generateWallet : Result WalletData :=
  let* drawn := draw_loop 0 in
  let '(privateKeyBytes, attempts) := drawn in
  if 1000 <=? attempts then throw EntropyExhausted
  else
    let* mnemonic := privateKeyToMnemonic privateKeyBytes in
    let* keypair := generateEd25519Keypair privateKeyBytes true in
    let* address := publicKeyToAddress (kp_publicKey keypair) in
    ok {| privateKey := bytesToHex privateKeyBytes;
          publicKey := bytesToHex (kp_publicKey keypair);
          address := address;
          mnemonic := mnemonic |}.

Definition importFromMnemonic (mnemonic : string) : Result WalletData :=
  if negb (verifyMnemonicChecksum mnemonic) then throw InvalidChecksum
  else
    let* privateKeyBytes := mnemonicToPrivateKey mnemonic in
    let* keypair := generateEd25519Keypair privateKeyBytes false in
    let* address := publicKeyToAddress (kp_publicKey keypair) in
    ok {| privateKey := bytesToHex privateKeyBytes;
          publicKey := bytesToHex (kp_publicKey keypair);
          address := address;
          mnemonic := mnemonic |}.

Definition importFromPrivateKey (privateKeyHex : string) : Result WalletData :=
  let privateKeyBytes := hexToBytes privateKeyHex in
  let* keypair := generateEd25519Keypair privateKeyBytes false in
  let* address := publicKeyToAddress (kp_publicKey keypair) in
  let* mnemonic := privateKeyToMnemonic privateKeyBytes in
  ok {| privateKey := privateKeyHex;
        publicKey := bytesToHex (kp_publicKey keypair);
        address := address;
        mnemonic := mnemonic |}.

End Engine.

(** ** Address validation ([utils/helpers.ts]) *)

(** [x !== n] for an array element [x] and a number [n]; [None] is
    [undefined], which differs from every number. *)
Definition strict_neq (x : option byte) (n : Z) : bool :=
  match x with
  | Some b => negb (byteZ b =? n)
  | None => true
  end.

(** [x !== y] for two array elements. *)
Definition strict_neq_elt (x y : option byte) : bool :=
  match x, y with
  | Some a, Some b => negb (byteZ a =? byteZ b)
  | None, None => false
  | _, _ => true
  end.

Section Validator.

(** [bs58.decode] of the bs58 package and the [cn_fast_hash] that the
    validator calls; either may throw. *)
Variable bs58_decode : string -> Result (list byte).
Variable cn_fast_hash : list byte -> Result (list byte).

(** The body of the [try] block. *)
Definition isValidWalletAddress_try (address : string) : Result bool :=
  let* decoded := bs58_decode address in
  if (List.length decoded <? 38)%nat then ok false
  else
    let prefix := slice decoded 0 2 in
    let publicKey := slice decoded 2 34 in
    let checksum := slice decoded 34 38 in
    if strict_neq (at_index prefix 0) 0x19
       || strict_neq (at_index prefix 1) 0x80
       || strict_neq (at_index prefix 2) 0x04
    then ok false
    else
      let addressWithoutChecksum := repeat x00 34 in
      let* addressWithoutChecksum := u8_set addressWithoutChecksum prefix 0 in
      let* addressWithoutChecksum := u8_set addressWithoutChecksum publicKey 2 in
      let* hash := cn_fast_hash addressWithoutChecksum in
      let expectedChecksum := slice hash 0 4 in
      ok (negb (existsb
                  (fun i => strict_neq_elt (at_index checksum i)
                                           (at_index expectedChecksum i))
                  (steps 4 1))).

Definition isValidWalletAddress (address : string) : bool :=
  if (String.length address =? 0)%nat then false
  else if negb (String.prefix "PAS" address) then false
  else if (String.length address <? 50)%nat || (100 <? String.length address)%nat
  then false
  else
    match isValidWalletAddress_try address with
    | inr b => b
    | inl _ => false   (* catch (error) { ...; return false; } *)
    end.

End Validator.

(** ** Hash formats ([utils/helpers.ts]) *)

(** What [[a-f0-9]] matches under the [i] flag. *)
Definition is_hex_char (c : ascii) : bool :=
  let n := charCode c in
  ((48 <=? n) && (n <=? 57)) || ((97 <=? n) && (n <=? 102)) || ((65 <=? n) && (n <=? 70)).

Fixpoint string_forallb (p : ascii -> bool) (s : string) : bool :=
  match s with
  | EmptyString => true
  | String c s' => p c && string_forallb p s'
  end.

(** [/^[a-f0-9]{64}$/i.test(hash)]. *)
Definition test_hash64 (hash : string) : bool :=
  (String.length hash =? 64)%nat && string_forallb is_hex_char hash.

Definition isValidBlockHash (hash : string) : bool :=
  if (String.length hash =? 0)%nat then false else test_hash64 hash.

Definition isValidTxHash (hash : string) : bool :=
  if (String.length hash =? 0)%nat then false else test_hash64 hash.

(** ** Display helpers ([utils/helpers.ts]) *)

(** The clamping of an index argument of [substring] to [0 .. len]. *)
Definition clamp_index (len x : Z) : Z := Z.max 0 (Z.min x len).

(** [s.substring(a, b)]: both indices are clamped and swapped if needed. *)
Definition js_substring (s : string) (a b : Z) : string :=
  let len := Z.of_nat (String.length s) in
  let a' := clamp_index len a in
  let b' := clamp_index len b in
  let lo := Z.min a' b' in
  let hi := Z.max a' b' in
  String.substring (Z.to_nat lo) (Z.to_nat (hi - lo)) s.

(** [s.substring(a)]. *)
Definition js_substring_from (s : string) (a : Z) : string :=
  js_substring s a (Z.of_nat (String.length s)).

Definition truncateHash (hash : string) (startLength endLength : Z) : string :=
  if (String.length hash =? 0)%nat then ""
  else if Z.of_nat (String.length hash) <=? startLength + endLength then hash
  else (js_substring hash 0 startLength ++ "..."
        ++ js_substring_from hash (Z.of_nat (String.length hash) - endLength))%string.

(** * Vocabulary of the statements *)

(** The definitions below are not part of the program: they name the
    quantities that the properties speak about, and the concrete inputs on
    which the properties are exercised. *)

Fixpoint no_space (s : string) : bool :=
  match s with
  | EmptyString => true
  | String c s' => negb (is_space c) && no_space s'
  end.

(** A word that [split] gives back unchanged: not empty, no white space. *)
Definition clean_word (w : string) : bool :=
  negb (String.eqb w "") && no_space w.

Fixpoint distinct (l : list string) : bool :=
  match l with
  | [] => true
  | x :: l' => negb (existsb (String.eqb x) l') && distinct l'
  end.

(** [WORDLIST[w]] for an index in range. *)
Definition word (w : Z) : string := nth (Z.to_nat w) WORDLIST "".

Definition index1 (val : Z) : Z := Z.rem val wlLen.

Definition index2 (val : Z) : Z := Z.rem (val / wlLen + index1 val) wlLen.

Definition index3 (val : Z) : Z := Z.rem (val / wlLen / wlLen + index2 val) wlLen.

Definition uint32_of (b0 b1 b2 b3 : byte) : Z :=
  byteZ b0 + Z.shiftl (byteZ b1) 8 + Z.shiftl (byteZ b2) 16 + Z.shiftl (byteZ b3) 24.

(** The [k]-th group of four bytes of a seed. *)
Definition group (seed : list byte) (k : nat) : list byte :=
  slice seed (4 * k) (4 * k + 4).

Definition group_value (seed : list byte) (k : nat) : Z :=
  match group seed k with
  | [b0; b1; b2; b3] => uint32_of b0 b1 b2 b3
  | _ => 0
  end.

Definition triplet_words (val : Z) : list string :=
  [word (index1 val); word (index2 val); word (index3 val)].

(** The 24 data words of a seed. *)
Definition data_words (seed : list byte) : list string :=
  flat_map (fun k => triplet_words (group_value seed k)) (seq 0 8).

(** The index that [getWordIndex] finds at position [i], when it finds one. *)
Definition found_index (dataWords : list string) (i : Z) : Z :=
  match wordIndexAt dataWords i with
  | inr w => w
  | inl _ => 0
  end.

Definition decoded_group (dataWords : list string) (k : nat) : list byte :=
  let i := 3 * Z.of_nat k in
  setUint32LE (triplet_value (found_index dataWords i) (found_index dataWords (i + 1))
                 (found_index dataWords (i + 2))).

(** The value of a sequence of seven-bit groups, least significant first,
    closed by [last]. *)
Definition groups_value (more : list Z) (last : Z) : Z :=
  fold_right (fun z acc => z mod 128 + 128 * acc) last more.

(** The bytes of a varint: every byte but the last has the high bit set, the
    last has it clear. *)
Definition varint_wf (bs : list byte) : Prop :=
  exists init last,
    bs = init ++ [last]
    /\ Forall (fun b => 0x80 <= byteZ b) init
    /\ byteZ last < 0x80
    /\ (init = [] \/ 0 < byteZ last).

(** The number that a varint carries: seven bits per byte, least
    significant group first. *)
Fixpoint varint_value (bs : list byte) : Z :=
  match bs with
  | [] => 0
  | b :: r => byteZ b mod 128 + 128 * varint_value r
  end.

(** The result array of the encoder: [n] slots of one character each. *)
Definition slots (n : nat) (a : list string) : Prop :=
  List.length a = n /\ Forall (fun c => String.length c = 1%nat) a.

Definition zero_seed : list byte := repeat x00 32.

Definition one_seed : list byte := x01 :: repeat x00 31.

Definition sample_mnemonic : string :=
  "abbey abbey abbey abbey abbey abbey abbey abbey abbey abbey abbey abbey abbey abbey abbey abbey abbey abbey abbey abbey abbey abbey abbey abbey zoom".


(** A source of randomness whose first 999 draws are out of range (all bytes
    0xff) and whose 1000th draw is the valid scalar 1. *)
Definition late_rng (k : nat) : Result (list byte) :=
  ok (if (k <? 999)%nat then repeat xff 32 else one_seed).

Definition mnemonic_24_words : string :=
  "abbey abbey abbey abbey abbey abbey abbey abbey abbey abbey abbey abbey abbey abbey abbey abbey abbey abbey abbey abbey abbey abbey abbey abbey".

Definition mnemonic_bad_checksum : string :=
  "abbey abbey abbey abbey abbey abbey abbey abbey abbey abbey abbey abbey abbey abbey abbey abbey abbey abbey abbey abbey abbey abbey abbey abbey zoom".

Definition mnemonic_unknown_word : string :=
  "xyzzy xyzzy xyzzy xyzzy xyzzy xyzzy xyzzy xyzzy xyzzy xyzzy xyzzy xyzzy xyzzy xyzzy xyzzy xyzzy xyzzy xyzzy xyzzy xyzzy xyzzy xyzzy xyzzy xyzzy xyzzy".

(** A stand-in for the imported libraries, to run the engine on concrete
    inputs. The multiplication has the range check of
    [Point.BASE.multiply] of @noble/ed25519, which throws a [RangeError]
    unless [0 < n < curveOrder]; points are constant. The digest is 32 bytes
    read off the input, and [keccak256] renders it in hexadecimal as js-sha3
    does. *)
Module Stub.
Definition Point : Type := unit.
Definition BASE_multiply (n : Z) : Result Point :=
  if (0 <? n) && (n <? curveOrder) then ok tt else throw RangeError.
Definition toBytes (p : Point) : list byte := repeat x00 32.
Definition digest (b : list byte) : list byte := firstn 32 (b ++ repeat x00 32).
Definition keccak256 (b : list byte) : string := bytesToHex (digest b).
End Stub.

(** The k-th draw is 32 bytes or more whose scalar is at or above the
    curve order. *)
Definition rejected_draw (generateRandomBytes : nat -> Result (list byte)) (k : nat)
    : Prop :=
  exists privateKeyBytes scalar,
    generateRandomBytes k = ok privateKeyBytes
    /\ bytesToScalar privateKeyBytes = ok scalar
    /\ curveOrder <= scalar.

(** The k-th draw is [privateKeyBytes], of scalar [scalar] below the curve
    order. *)
Definition accepted_draw (generateRandomBytes : nat -> Result (list byte)) (k : nat)
    (privateKeyBytes : list byte) (scalar : Z) : Prop :=
  generateRandomBytes k = ok privateKeyBytes
  /\ bytesToScalar privateKeyBytes = ok scalar
  /\ scalar < curveOrder.

(** The number that bytes denote, least significant byte first. *)
Definition le_value (bytes : list byte) : Z :=
  fold_right (fun b acc => byteZ b + 256 * acc) 0 bytes.

(** A lower-case hexadecimal digit. *)
Definition is_lower_hex (c : ascii) : bool :=
  let n := charCode c in
  ((48 <=? n) && (n <=? 57)) || ((97 <=? n) && (n <=? 102)).

Definition abbey24 : list string := repeat "abbey" 24.

(** A source of randomness that always draws the scalar 1. *)
Definition one_rng (k : nat) : Result (list byte) := ok one_seed.

(** A source of randomness that always draws 32 bytes 0xff. *)
Definition ff_rng (k : nat) : Result (list byte) := ok (repeat xff 32).

(** The number that bytes denote, most significant byte first. *)
Definition be_value (bytes : list byte) : Z :=
  fold_left (fun acc b => acc * 256 + byteZ b) bytes 0.

(** [n] Base58 digits of [num], most significant first; the missing leading
    digits are the digit zero, the first symbol of the alphabet. *)
Fixpoint digit_slots (n : nat) (num : Z) : list string :=
  match n with
  | O => []
  | S n' => digit_slots n' (num / 58) ++ [alphabet_at (num mod 58)]
  end.

(** The characters of one block of [size] bytes starting at [start]. *)
Definition block_slots (buffer : list byte) (start size : nat) : list string :=
  digit_slots (Z.to_nat (encoded_block_size (Z.of_nat size)))
    (be_value (slice buffer start (start + size))).

(** All the characters of the encoding: the full blocks of 8 bytes, then the
    last block if the length is not a multiple of 8. *)
Definition all_slots (buffer : list byte) : list string :=
  let len := List.length buffer in
  flat_map (fun k => block_slots buffer (8 * k) 8) (seq 0 (len / 8))
  ++ block_slots buffer (8 * (len / 8)) (len mod 8).

(** The position of a one-character string in the alphabet. *)
Definition digit_of (c : string) : Z :=
  match String.index 0 c BASE58_ALPHABET with
  | Some i => Z.of_nat i
  | None => 0
  end.

(** The number that Base58 digits denote, most significant first. *)
Definition slots_value (l : list string) : Z :=
  fold_left (fun acc c => acc * 58 + digit_of c) l 0.

(** The value that [mnemonicToPrivateKey] rebuilds from the [k]-th triplet of
    data words, before it is stored in 32 bits. *)
Definition decoded_value (dataWords : list string) (k : nat) : Z :=
  let i := 3 * Z.of_nat k in
  triplet_value (found_index dataWords i) (found_index dataWords (i + 1))
    (found_index dataWords (i + 2)).

(** Two mnemonics of list words, each with its own checksum word. *)
Definition wrapping_mnemonic : string :=
  String.concat " " (flat_map (fun _ : nat => ["abbey"; "abducts"; "abbey"]) (seq 0 8)
                     ++ ["abbey"]).

Definition plain_mnemonic : string :=
  String.concat " " (flat_map (fun _ : nat => ["rapid"; "divers"; "divers"]) (seq 0 8)
                     ++ ["divers"]).

(** A private key in hexadecimal, 64 digits. *)
Definition hex_key : string :=
  "0100000000000000000000000000000000000000000000000000000000000000".

(** * Properties *)

(** ** The error monad *)

Lemma bind_ok {A B} (r : Result A) (k : A -> Result B) (a : A) :
  r = ok a -> bind r k = k a.
Proof. intros ->. reflexivity. Qed.

Lemma bind_throw {A B} (r : Result A) (k : A -> Result B) (e : error) :
  r = throw e -> bind r k = throw e.
Proof. intros ->. reflexivity. Qed.

Lemma ok_inj {A} (a b : A) : ok a = ok b -> a = b.
Proof. intros H. injection H as ->. reflexivity. Qed.

Lemma ok_not_throw {A} (a : A) (e : error) : ok a <> throw e.
Proof. discriminate. Qed.

(** ** Bytes *)

Lemma byteZ_range (b : byte) : 0 <= byteZ b < 256.
Proof.
  unfold byteZ. pose proof (Byte.to_N_bounded b). lia.
Qed.

Lemma byteZ_u8 (x : Z) : byteZ (u8 x) = x mod 256.
Proof.
  unfold u8, byteZ.
  assert (Hr : 0 <= x mod 256 < 256) by (apply Z.mod_pos_bound; lia).
  destruct (Byte.of_N (Z.to_N (x mod 256))) as [b|] eqn:E.
  - apply Byte.to_of_N in E. rewrite E. lia.
  - apply Byte.of_N_None_iff in E. lia.
Qed.

Lemma u8_byteZ (b : byte) : u8 (byteZ b) = b.
Proof.
  unfold u8. rewrite Z.mod_small by apply byteZ_range.
  unfold byteZ. rewrite N2Z.id, Byte.of_to_N. reflexivity.
Qed.

Lemma byteZ_inj (a b : byte) : byteZ a = byteZ b -> a = b.
Proof.
  intros H. rewrite <- (u8_byteZ a), <- (u8_byteZ b), H. reflexivity.
Qed.

(** ** Arrays *)

Lemma slice_length {A} (a : list A) (lo hi : nat) :
  List.length (slice a lo hi) = Nat.min (hi - lo) (List.length a - lo).
Proof. unfold slice. rewrite length_firstn, length_skipn. reflexivity. Qed.

Lemma at_index_beyond {A} (a : list A) (i : Z) :
  Z.of_nat (List.length a) <= i -> at_index a i = None.
Proof.
  intros H. unfold at_index.
  destruct (Z.ltb_spec i 0); [reflexivity|].
  apply nth_error_None. lia.
Qed.

(** ** The address validator *)

(** The third prefix byte is read from a two-byte slice. *)
Lemma validator_prefix_third_byte (decoded : list byte) :
  strict_neq (at_index (slice decoded 0 2) 2) 0x04 = true.
Proof.
  rewrite at_index_beyond; [reflexivity|].
  rewrite slice_length. lia.
Qed.

(** C3. Whatever [bs58.decode] and [cn_fast_hash] compute, the validator
    answers [false] on every address: the prefix test reads index 2 of the
    two-byte slice [decoded.slice(0, 2)], finds [undefined], and rejects. *)
Theorem isValidWalletAddress_always_false
    (bs58_decode : string -> Result (list byte))
    (cn_fast_hash : list byte -> Result (list byte))
    (address : string) :
  isValidWalletAddress bs58_decode cn_fast_hash address = false.
Proof.
  unfold isValidWalletAddress.
  destruct (String.length address =? 0)%nat; [reflexivity|].
  destruct (negb (String.prefix "PAS" address)); [reflexivity|].
  destruct ((String.length address <? 50)%nat || (100 <? String.length address)%nat);
    [reflexivity|].
  unfold isValidWalletAddress_try.
  destruct (bs58_decode address) as [e|decoded]; [reflexivity|].
  cbn [bind].
  destruct (List.length decoded <? 38)%nat; [reflexivity|].
  rewrite validator_prefix_third_byte, !orb_true_r. reflexivity.
Qed.

(** ** Splitting and joining words *)

Lemma append_nil_r (s : string) : (s ++ "")%string = s.
Proof. induction s; simpl; congruence. Qed.

Lemma append_assoc (a b c : string) : ((a ++ b) ++ c)%string = (a ++ b ++ c)%string.
Proof. induction a; simpl; congruence. Qed.

Lemma clean_word_cons (w : string) :
  clean_word w = true ->
  exists c w', w = String c w' /\ is_space c = false /\ no_space w' = true.
Proof.
  destruct w as [|c w']; [discriminate|].
  unfold clean_word. simpl. intros H.
  apply andb_true_iff in H as [Hc Hw].
  exists c, w'. repeat split; [|assumption].
  now apply negb_true_iff.
Qed.

Lemma trimEnd_clean (w : string) : clean_word w = true -> trimEnd w = w.
Proof.
  induction w as [|c w' IH]; [discriminate|].
  intros H. destruct (clean_word_cons _ H) as (c0 & w0 & E & Hc & Hw).
  injection E as <- <-.
  destruct w' as [|d w''].
  - simpl. rewrite Hc. reflexivity.
  - assert (Hw' : clean_word (String d w'') = true) by exact Hw.
    specialize (IH Hw').
    change (trimEnd (String c (String d w'')))
      with (match trimEnd (String d w'') with
            | EmptyString => if is_space c then EmptyString else String c EmptyString
            | t => String c t
            end).
    rewrite IH. reflexivity.
Qed.

Lemma trimEnd_app_clean (a w : string) :
  clean_word w = true -> trimEnd (a ++ w) = (a ++ w)%string.
Proof.
  intros H. induction a as [|x a IH].
  - now apply trimEnd_clean.
  - simpl. rewrite IH.
    destruct (clean_word_cons _ H) as (c & w' & -> & _ & _).
    destruct a; reflexivity.
Qed.

Lemma concat_last (sep : string) (ws : list string) (w : string) :
  exists a, String.concat sep (ws ++ [w]) = (a ++ w)%string.
Proof.
  induction ws as [|x ws [a IH]].
  - exists "". reflexivity.
  - exists (x ++ sep ++ a)%string.
    change (String.concat sep ((x :: ws) ++ [w]))
      with (String.concat sep (x :: ws ++ [w])).
    destruct (ws ++ [w]) as [|y r] eqn:E.
    + destruct ws; discriminate.
    + change (String.concat sep (x :: y :: r))
        with (x ++ sep ++ String.concat sep (y :: r))%string.
      rewrite IH, !append_assoc. reflexivity.
Qed.

Lemma trim_concat_clean (ws : list string) :
  Forall (fun w => clean_word w = true) ws ->
  trim (String.concat " " ws) = String.concat " " ws.
Proof.
  intros H. unfold trim.
  destruct ws as [|w r]; [reflexivity|].
  assert (Hs : trimStart (String.concat " " (w :: r)) = String.concat " " (w :: r)).
  { inversion H as [|? ? Hw _]; subst.
    destruct (clean_word_cons _ Hw) as (c & w' & -> & Hc & _).
    destruct r; simpl; rewrite Hc; reflexivity. }
  rewrite Hs.
  destruct (exists_last (l := w :: r)) as (ws' & z & E); [discriminate|].
  rewrite E in *.
  destruct (concat_last " " ws' z) as [a ->].
  apply trimEnd_app_clean.
  apply Forall_app in H as [_ H]. now inversion H.
Qed.

Lemma split_word (w rest cur : string) :
  no_space w = true ->
  split_ws_aux (w ++ rest) cur false = split_ws_aux rest (cur ++ w) false.
Proof.
  revert cur. induction w as [|c w IH]; intros cur H.
  - simpl. now rewrite append_nil_r.
  - simpl in H. apply andb_true_iff in H as [Hc Hw].
    apply negb_true_iff in Hc.
    simpl. rewrite Hc, IH by assumption.
    rewrite append_assoc. reflexivity.
Qed.

Lemma split_clean_word (w rest cur : string) (g : bool) :
  clean_word w = true ->
  split_ws_aux (w ++ rest) cur g = split_ws_aux rest (cur ++ w) false.
Proof.
  intros H. destruct (clean_word_cons _ H) as (c & w' & -> & Hc & Hw).
  simpl. rewrite Hc, split_word by assumption.
  rewrite append_assoc. reflexivity.
Qed.

Lemma split_concat_clean (ws : list string) :
  Forall (fun w => clean_word w = true) ws ->
  forall w cur g, clean_word w = true ->
  split_ws_aux (String.concat " " (w :: ws)) cur g = (cur ++ w)%string :: ws.
Proof.
  induction 1 as [|x r Hx Hr IH]; intros w cur g Hw.
  - simpl. rewrite <- (append_nil_r w) at 1.
    rewrite split_clean_word by assumption. reflexivity.
  - change (String.concat " " (w :: x :: r))
      with (w ++ " " ++ String.concat " " (x :: r))%string.
    rewrite split_clean_word by assumption.
    change (" " ++ String.concat " " (x :: r))%string
      with (String " " (String.concat " " (x :: r))).
    cbn [split_ws_aux]. change (is_space " ") with true. cbn iota.
    rewrite IH by assumption. reflexivity.
Qed.

(** Joining clean words with a space and splitting again is the identity. *)
Lemma split_trim_concat (ws : list string) :
  ws <> [] ->
  Forall (fun w => clean_word w = true) ws ->
  split_ws (trim (String.concat " " ws)) = ws.
Proof.
  intros Hne H. rewrite trim_concat_clean by assumption.
  destruct ws as [|w r]; [congruence|].
  inversion H; subst. unfold split_ws.
  rewrite split_concat_clean by assumption. reflexivity.
Qed.

(** ** The word list *)

Lemma WORDLIST_length : List.length WORDLIST = 1626%nat.
Proof. vm_compute. reflexivity. Qed.

Lemma WORDLIST_distinct : distinct WORDLIST = true.
Proof. vm_compute. reflexivity. Qed.

Lemma WORDLIST_clean : forallb clean_word WORDLIST = true.
Proof. vm_compute. reflexivity. Qed.

(** The list is only ever inspected through the three facts above. *)
#[global] Opaque WORDLIST.

Lemma indexOf_range (l : list string) (w : string) :
  indexOf l w = -1 \/ 0 <= indexOf l w < Z.of_nat (List.length l).
Proof.
  induction l as [|x l IH]; [now left|].
  cbn [indexOf List.length].
  destruct (String.eqb x w); [right; lia|].
  destruct (Z.eqb_spec (indexOf l w) (-1)); [now left|right; lia].
Qed.

Lemma indexOf_absent (l : list string) (w : string) :
  existsb (String.eqb w) l = false -> indexOf l w = -1.
Proof.
  induction l as [|x l IH]; [reflexivity|].
  cbn [existsb indexOf]. intros H.
  apply orb_false_iff in H as [Hx Hl].
  rewrite String.eqb_sym, Hx, (IH Hl). reflexivity.
Qed.

Lemma indexOf_found (l : list string) (w : string) :
  indexOf l w <> -1 -> nth_error l (Z.to_nat (indexOf l w)) = Some w.
Proof.
  induction l as [|x l IH]; [now intros []|].
  cbn [indexOf].
  destruct (String.eqb_spec x w) as [->|Hx]; [reflexivity|].
  destruct (Z.eqb_spec (indexOf l w) (-1)) as [|Hn]; [congruence|].
  intros _. destruct (indexOf_range l w) as [|Hr]; [congruence|].
  replace (Z.to_nat (indexOf l w + 1)) with (S (Z.to_nat (indexOf l w))) by lia.
  now apply IH.
Qed.

Lemma indexOf_nth (l : list string) (i : nat) (w : string) :
  distinct l = true -> nth_error l i = Some w -> indexOf l w = Z.of_nat i.
Proof.
  revert i. induction l as [|x l IH]; intros i Hd Hn.
  - destruct i; discriminate.
  - cbn [distinct] in Hd. apply andb_true_iff in Hd as [Hx Hd].
    apply negb_true_iff in Hx.
    destruct i as [|i]; cbn [nth_error] in Hn.
    + injection Hn as ->. cbn [indexOf]. rewrite String.eqb_refl. reflexivity.
    + cbn [indexOf].
      destruct (String.eqb_spec x w) as [->|_].
      * (* [w] would occur twice *)
        apply nth_error_In in Hn.
        assert (existsb (String.eqb w) l = true).
        { apply existsb_exists. exists w. split; [assumption|apply String.eqb_refl]. }
        congruence.
      * rewrite (IH i Hd Hn).
        destruct (Z.eqb_spec (Z.of_nat i) (-1)); lia.
Qed.

Lemma at_index_word (w : Z) :
  0 <= w < wlLen -> at_index WORDLIST w = Some (word w).
Proof.
  intros H. unfold at_index, word, wlLen in *.
  destruct (Z.ltb_spec w 0); [lia|].
  apply nth_error_nth'. rewrite WORDLIST_length. lia.
Qed.

Lemma wordAt_ok (w : Z) : 0 <= w < wlLen -> wordAt w = ok (word w).
Proof. intros H. unfold wordAt. now rewrite at_index_word. Qed.

Lemma word_In (w : Z) : 0 <= w < wlLen -> In (word w) WORDLIST.
Proof.
  intros H. apply at_index_word in H. unfold at_index in H.
  destruct (w <? 0); [discriminate|]. eapply nth_error_In; eassumption.
Qed.

Lemma word_clean (w : Z) : 0 <= w < wlLen -> clean_word (word w) = true.
Proof.
  intros H. pose proof WORDLIST_clean as Hc.
  rewrite forallb_forall in Hc. apply Hc, word_In, H.
Qed.

Lemma getWordIndex_word (w : Z) : 0 <= w < wlLen -> getWordIndex (word w) = ok w.
Proof.
  intros H. unfold getWordIndex; cbv zeta.
  assert (E : indexOf WORDLIST (word w) = w).
  { pose proof (at_index_word w H) as Ha. unfold at_index in Ha.
    destruct (Z.ltb_spec w 0); [lia|].
    rewrite (indexOf_nth _ _ _ WORDLIST_distinct Ha). lia. }
  rewrite E. destruct (Z.eqb_spec w (-1)); [lia|reflexivity].
Qed.

(** A successful lookup returns an index of the word list. *)
Lemma getWordIndex_range (w : string) (i : Z) :
  getWordIndex w = ok i -> 0 <= i < wlLen.
Proof.
  unfold getWordIndex; cbv zeta.
  destruct (Z.eqb_spec (indexOf WORDLIST w) (-1)) as [|Hn];
    [intros E; now apply eq_sym, ok_not_throw in E|].
  intros E. apply ok_inj in E. subst i.
  destruct (indexOf_range WORDLIST w) as [|Hr]; [contradiction|].
  rewrite WORDLIST_length in Hr. unfold wlLen. lia.
Qed.

Lemma getWordIndex_unknown (w : string) :
  ~ In w WORDLIST -> getWordIndex w = throw (UnknownWord w).
Proof.
  intros H. unfold getWordIndex.
  rewrite indexOf_absent; [reflexivity|].
  destruct (existsb (String.eqb w) WORDLIST) eqn:E; [|reflexivity].
  apply existsb_exists in E as (x & Hx & Hw).
  apply String.eqb_eq in Hw. subst. contradiction.
Qed.

Lemma getWordIndex_known (w : string) :
  In w WORDLIST -> exists i, getWordIndex w = ok i.
Proof.
  intros H. apply In_nth_error in H as [n Hn].
  unfold getWordIndex; cbv zeta.
  rewrite (indexOf_nth _ _ _ WORDLIST_distinct Hn).
  destruct (Z.eqb_spec (Z.of_nat n) (-1)); [lia|]. eexists. reflexivity.
Qed.

(** ** Loops *)

Lemma for_each_app_from {A} (step : Z) (body : Z -> list A -> Result (list A))
    (f : nat -> list A) (n a : nat) :
  (forall k s, (a <= k < a + n)%nat -> body (step * Z.of_nat k) s = ok (s ++ f k)) ->
  forall s,
    for_each (map (fun k => step * Z.of_nat k) (seq a n)) body s
    = ok (s ++ flat_map f (seq a n)).
Proof.
  revert a. induction n as [|n IH]; intros a H s.
  - simpl. now rewrite app_nil_r.
  - cbn [seq map for_each flat_map].
    rewrite H by lia. cbn [bind ok].
    rewrite IH by (intros; apply H; lia).
    now rewrite app_assoc.
Qed.

Lemma for_each_app {A} (step : Z) (body : Z -> list A -> Result (list A))
    (f : nat -> list A) (n : nat) :
  (forall k s, (k < n)%nat -> body (step * Z.of_nat k) s = ok (s ++ f k)) ->
  forall s, for_each (steps n step) body s = ok (s ++ flat_map f (seq 0 n)).
Proof.
  intros H. apply for_each_app_from. intros; apply H; lia.
Qed.

(** The first iteration that throws ends the loop with its error. *)
Lemma for_each_throw_from {A} (step : Z) (body : Z -> list A -> Result (list A))
    (f : nat -> list A) (e : error) (n a j : nat) :
  (a <= j < a + n)%nat ->
  (forall k s, (a <= k < j)%nat -> body (step * Z.of_nat k) s = ok (s ++ f k)) ->
  (forall s, body (step * Z.of_nat j) s = throw e) ->
  forall s, for_each (map (fun k => step * Z.of_nat k) (seq a n)) body s = throw e.
Proof.
  revert a. induction n as [|n IH]; intros a Hj Hok He s; [lia|].
  cbn [seq map for_each].
  destruct (Nat.eq_dec a j) as [->|Hne].
  - now rewrite He.
  - rewrite Hok by lia. cbn [bind ok].
    apply IH; [lia| |assumption].
    intros; apply Hok; lia.
Qed.

Lemma nth_error_flat_map3 {A} (f : nat -> list A) (n a k j : nat) :
  (forall x, List.length (f x) = 3%nat) ->
  (k < n)%nat -> (j < 3)%nat ->
  nth_error (flat_map f (seq a n)) (3 * k + j) = nth_error (f (a + k)%nat) j.
Proof.
  intros Hf. revert a k. induction n as [|n IH]; intros a k Hk Hj; [lia|].
  cbn [seq flat_map].
  destruct k as [|k].
  - rewrite nth_error_app1 by (rewrite Hf; lia).
    now rewrite Nat.add_0_r.
  - rewrite nth_error_app2 by (rewrite Hf; lia).
    rewrite Hf.
    replace (3 * S k + j - 3)%nat with (3 * k + j)%nat by lia.
    rewrite IH by lia. f_equal. f_equal. lia.
Qed.

Lemma flat_map_length3 {A} (f : nat -> list A) (n a : nat) :
  (forall x, List.length (f x) = 3%nat) ->
  List.length (flat_map f (seq a n)) = (3 * n)%nat.
Proof.
  intros Hf. revert a. induction n as [|n IH]; intros a; [reflexivity|].
  cbn [seq flat_map]. rewrite length_app, Hf, IH. lia.
Qed.

(** ** Word triplets *)

Lemma index_ranges (val : Z) :
  0 <= val ->
  0 <= index1 val < wlLen /\ 0 <= index2 val < wlLen /\ 0 <= index3 val < wlLen.
Proof.
  intros Hv. unfold index3, index2, index1, wlLen.
  assert (H1 : 0 <= val / 1626) by (apply Z.div_pos; lia).
  assert (H2 : 0 <= val / 1626 / 1626) by (apply Z.div_pos; lia).
  rewrite (Z.rem_mod_nonneg val) by lia.
  pose proof (Z.mod_pos_bound val 1626 ltac:(lia)).
  rewrite (Z.rem_mod_nonneg (val / 1626 + _)) by lia.
  pose proof (Z.mod_pos_bound (val / 1626 + val mod 1626) 1626 ltac:(lia)).
  rewrite (Z.rem_mod_nonneg (val / 1626 / 1626 + _)) by lia.
  pose proof (Z.mod_pos_bound
                (val / 1626 / 1626 + (val / 1626 + val mod 1626) mod 1626) 1626
                ltac:(lia)).
  lia.
Qed.

(** The value rebuilt from three indices keeps the first index as its
    residue, whatever the indices are. *)
Lemma triplet_value_residue (w1 w2 w3 : Z) :
  0 <= w1 < wlLen -> 0 <= w2 < wlLen -> 0 <= w3 < wlLen ->
  Z.rem (triplet_value w1 w2 w3) wlLen = w1
  /\ 0 <= triplet_value w1 w2 w3 < wlLen * wlLen * wlLen.
Proof.
  unfold triplet_value, wlLen. intros H1 H2 H3.
  rewrite (Z.rem_mod_nonneg (1626 - w1 + w2)) by lia.
  rewrite (Z.rem_mod_nonneg (1626 - w2 + w3)) by lia.
  pose proof (Z.mod_pos_bound (1626 - w1 + w2) 1626 ltac:(lia)) as Ha.
  pose proof (Z.mod_pos_bound (1626 - w2 + w3) 1626 ltac:(lia)) as Hb.
  set (a := (1626 - w1 + w2) mod 1626) in *.
  set (b := (1626 - w2 + w3) mod 1626) in *.
  split; [|lia].
  rewrite Z.rem_mod_nonneg by lia.
  replace (w1 + 1626 * a + 1626 * 1626 * b) with (w1 + (a + 1626 * b) * 1626) by lia.
  rewrite Z.mod_add by lia. apply Z.mod_small. lia.
Qed.

(** Decoding the three indices of a 32-bit value gives the value back. *)
Lemma triplet_value_indices (val : Z) :
  0 <= val < 2 ^ 32 ->
  triplet_value (index1 val) (index2 val) (index3 val) = val.
Proof.
  intros Hv.
  destruct (index_ranges val (proj1 Hv)) as (R1 & R2 & R3).
  unfold triplet_value.
  rewrite (Z.rem_mod_nonneg (wlLen - _ + _)) by (unfold wlLen in *; lia).
  rewrite (Z.rem_mod_nonneg (wlLen - _ + _)) by (unfold wlLen in *; lia).
  revert R1 R2 R3. unfold index3, index2, index1, wlLen.
  assert (H1 : 0 <= val / 1626) by (apply Z.div_pos; lia).
  assert (H2 : 0 <= val / 1626 / 1626) by (apply Z.div_pos; lia).
  rewrite (Z.rem_mod_nonneg val) by lia.
  pose proof (Z.mod_pos_bound val 1626 ltac:(lia)).
  rewrite (Z.rem_mod_nonneg (val / 1626 + _)) by lia.
  pose proof (Z.mod_pos_bound (val / 1626 + val mod 1626) 1626 ltac:(lia)).
  rewrite (Z.rem_mod_nonneg (val / 1626 / 1626 + _)) by lia.
  intros _ _ _.
  change (2 ^ 32) with 4294967296 in Hv.
  Z.div_mod_to_equations. lia.
Qed.

(** ** Little-endian 32-bit groups *)

Lemma uint32_of_range (b0 b1 b2 b3 : byte) : 0 <= uint32_of b0 b1 b2 b3 < 2 ^ 32.
Proof.
  unfold uint32_of. rewrite !Z.shiftl_mul_pow2 by lia.
  pose proof (byteZ_range b0). pose proof (byteZ_range b1).
  pose proof (byteZ_range b2). pose proof (byteZ_range b3).
  change (2 ^ 8) with 256. change (2 ^ 16) with 65536.
  change (2 ^ 24) with 16777216. change (2 ^ 32) with 4294967296. lia.
Qed.

Lemma setUint32LE_uint32_of (b0 b1 b2 b3 : byte) :
  setUint32LE (uint32_of b0 b1 b2 b3) = [b0; b1; b2; b3].
Proof.
  unfold setUint32LE, JS.ToUint32, JS.two32.
  rewrite (Z.mod_small _ _ (uint32_of_range b0 b1 b2 b3)).
  unfold uint32_of. rewrite !Z.shiftl_mul_pow2, !Z.shiftr_div_pow2 by lia.
  pose proof (byteZ_range b0). pose proof (byteZ_range b1).
  pose proof (byteZ_range b2). pose proof (byteZ_range b3).
  change (2 ^ 8) with 256. change (2 ^ 16) with 65536.
  change (2 ^ 24) with 16777216.
  repeat f_equal; apply byteZ_inj; rewrite byteZ_u8;
    Z.div_mod_to_equations; lia.
Qed.

Lemma getUint32LE_slice (bytes : list byte) (i : Z) (b0 b1 b2 b3 : byte) :
  slice bytes (Z.to_nat i) (Z.to_nat i + 4) = [b0; b1; b2; b3] ->
  getUint32LE bytes i = ok (uint32_of b0 b1 b2 b3).
Proof. intros H. unfold getUint32LE. rewrite H. reflexivity. Qed.

Lemma getUint32LE_short (bytes : list byte) (i : Z) :
  (List.length bytes < Z.to_nat i + 4)%nat -> getUint32LE bytes i = throw RangeError.
Proof.
  intros H. unfold getUint32LE.
  pose proof (slice_length bytes (Z.to_nat i) (Z.to_nat i + 4)) as L.
  destruct (slice bytes (Z.to_nat i) (Z.to_nat i + 4)) as [|a [|b [|c [|d [|x r]]]]];
    try reflexivity; cbn [List.length] in L; lia.
Qed.

Lemma group_four (seed : list byte) (k : nat) :
  (4 * k + 4 <= List.length seed)%nat ->
  exists b0 b1 b2 b3, group seed k = [b0; b1; b2; b3].
Proof.
  intros H. pose proof (slice_length seed (4 * k) (4 * k + 4)) as L.
  unfold group.
  destruct (slice seed (4 * k) (4 * k + 4)) as [|a [|b [|c [|d [|x r]]]]];
    cbn [List.length] in L; try lia.
  now exists a, b, c, d.
Qed.

Lemma group_value_range (seed : list byte) (k : nat) :
  0 <= group_value seed k < 2 ^ 32.
Proof.
  unfold group_value.
  destruct (group seed k) as [|a [|b [|c [|d [|x r]]]]];
    try (change (2 ^ 32) with 4294967296; lia).
  apply uint32_of_range.
Qed.

Lemma setUint32LE_group (seed : list byte) (k : nat) :
  (4 * k + 4 <= List.length seed)%nat ->
  setUint32LE (group_value seed k) = group seed k.
Proof.
  intros H. unfold group_value.
  destruct (group_four seed k H) as (b0 & b1 & b2 & b3 & ->).
  apply setUint32LE_uint32_of.
Qed.

Lemma getUint32LE_group (seed : list byte) (k : nat) :
  (4 * k + 4 <= List.length seed)%nat ->
  getUint32LE seed (4 * Z.of_nat k) = ok (group_value seed k).
Proof.
  intros H. unfold group_value.
  destruct (group_four seed k H) as (b0 & b1 & b2 & b3 & E). rewrite E.
  apply getUint32LE_slice.
  replace (Z.to_nat (4 * Z.of_nat k)) with (4 * k)%nat by lia. exact E.
Qed.

Lemma groups_concat (seed : list byte) :
  List.length seed = 32%nat -> flat_map (group seed) (seq 0 8) = seed.
Proof.
  intros H.
  do 32 (destruct seed as [|? seed]; [discriminate|]).
  destruct seed; [reflexivity|discriminate].
Qed.

(** ** Encoding a seed *)

Lemma privateKeyToMnemonic_body_ok (seed : list byte) (k : nat) (words : list string) :
  (4 * k + 4 <= List.length seed)%nat ->
  privateKeyToMnemonic_body seed (4 * Z.of_nat k) words
  = ok (words ++ triplet_words (group_value seed k)).
Proof.
  intros H. unfold privateKeyToMnemonic_body.
  rewrite (getUint32LE_group seed k H). cbn [bind ok].
  destruct (index_ranges _ (proj1 (group_value_range seed k))) as (R1 & R2 & R3).
  fold (index1 (group_value seed k)).
  fold (index2 (group_value seed k)).
  fold (index3 (group_value seed k)).
  rewrite !wordAt_ok by assumption. reflexivity.
Qed.

Lemma data_words_length (seed : list byte) : List.length (data_words seed) = 24%nat.
Proof. unfold data_words. now rewrite flat_map_length3. Qed.

Lemma data_words_In (seed : list byte) (w : string) :
  In w (data_words seed) -> In w WORDLIST.
Proof.
  unfold data_words. rewrite in_flat_map. intros (k & _ & Hw).
  destruct (index_ranges _ (proj1 (group_value_range seed k))) as (R1 & R2 & R3).
  destruct Hw as [<-|[<-|[<-|[]]]]; now apply word_In.
Qed.

Lemma In_WORDLIST_clean (w : string) : In w WORDLIST -> clean_word w = true.
Proof.
  pose proof WORDLIST_clean as Hc. rewrite forallb_forall in Hc. apply Hc.
Qed.

Lemma crc32_range (str : string) : 0 <= crc32 str < 2 ^ 32.
Proof.
  unfold crc32, JS.ushr, JS.ToUint32, JS.two32.
  change (0 mod 2 ^ 32 mod 32) with 0. rewrite Z.shiftr_0_r.
  apply Z.mod_pos_bound. lia.
Qed.

(** The checksum word of 24 words is one of them, at position
    [crc32 mod 24]. *)
Lemma calculateChecksumWord_24 (words : list string) :
  List.length words = 24%nat ->
  exists w,
    calculateChecksumWord words = Some w
    /\ In w words
    /\ nth_error words
         (Z.to_nat (crc32 (String.concat "" (map (substr0 3) words)) mod 24))
       = Some w.
Proof.
  intros L. unfold calculateChecksumWord; cbv zeta.
  set (h := crc32 _). pose proof (crc32_range (String.concat "" (map (substr0 3) words))) as Hh.
  fold h in Hh.
  rewrite Z.rem_mod_nonneg by lia.
  pose proof (Z.mod_pos_bound h 24 ltac:(lia)) as Hm.
  unfold at_index. destruct (Z.ltb_spec (h mod 24) 0); [lia|].
  destruct (nth_error words (Z.to_nat (h mod 24))) as [w|] eqn:E.
  - exists w. repeat split. eapply nth_error_In; eassumption.
  - apply nth_error_None in E. lia.
Qed.

Lemma privateKeyToMnemonic_words_ok (seed : list byte) :
  (32 <= List.length seed)%nat ->
  exists cs,
    calculateChecksumWord (data_words seed) = Some cs
    /\ privateKeyToMnemonic_words seed = ok (data_words seed ++ [cs]).
Proof.
  intros H. unfold privateKeyToMnemonic_words.
  rewrite (for_each_app 4 _ (fun k => triplet_words (group_value seed k)) 8)
    by (intros; apply privateKeyToMnemonic_body_ok; lia).
  cbn [bind ok app]. fold (data_words seed).
  destruct (calculateChecksumWord_24 _ (data_words_length seed)) as (cs & E & _).
  exists cs. now rewrite E.
Qed.

Lemma mnemonic_words_clean (seed : list byte) (cs : string) :
  In cs (data_words seed) ->
  Forall (fun w => clean_word w = true) (data_words seed ++ [cs]).
Proof.
  intros Hcs. apply Forall_forall. intros w Hw.
  apply In_WORDLIST_clean, (data_words_In seed).
  apply in_app_or in Hw as [Hw|[<-|[]]]; assumption.
Qed.

(** ** Decoding a mnemonic *)

Lemma slice_0_app {A} (a b : list A) : slice (a ++ b) 0 (List.length a) = a.
Proof.
  unfold slice. cbn [skipn]. rewrite Nat.sub_0_r, firstn_app, Nat.sub_diag.
  cbn [firstn]. rewrite app_nil_r. apply firstn_all.
Qed.

Lemma wordIndexAt_ok (dataWords : list string) (i w : Z) :
  wordIndexAt dataWords i = ok w -> 0 <= w < wlLen.
Proof.
  unfold wordIndexAt. destruct (at_index dataWords i) as [x|].
  - apply getWordIndex_range.
  - intros H. now apply eq_sym, ok_not_throw in H.
Qed.

Lemma wordIndexAt_no_EncodingError (dataWords : list string) (i : Z) :
  wordIndexAt dataWords i <> throw EncodingError.
Proof.
  unfold wordIndexAt, getWordIndex.
  destruct (at_index dataWords i) as [x|]; [|discriminate].
  cbv zeta. destruct (indexOf WORDLIST x =? -1); [discriminate|].
  intros H. now apply ok_not_throw in H.
Qed.

(** With three indices found, the consistency test passes and four bytes are
    appended. *)
Lemma mnemonicToPrivateKey_body_ok (dataWords : list string) (i w1 w2 w3 : Z)
    (acc : list byte) :
  wordIndexAt dataWords i = ok w1 ->
  wordIndexAt dataWords (i + 1) = ok w2 ->
  wordIndexAt dataWords (i + 2) = ok w3 ->
  mnemonicToPrivateKey_body dataWords i acc
  = ok (acc ++ setUint32LE (triplet_value w1 w2 w3)).
Proof.
  intros H1 H2 H3. unfold mnemonicToPrivateKey_body.
  rewrite H1, H2, H3. cbn [bind ok]. cbv zeta.
  destruct (triplet_value_residue w1 w2 w3
              (wordIndexAt_ok _ _ _ H1) (wordIndexAt_ok _ _ _ H2)
              (wordIndexAt_ok _ _ _ H3)) as [-> _].
  rewrite Z.eqb_refl. reflexivity.
Qed.

Lemma mnemonicToPrivateKey_body_no_EncodingError (dataWords : list string) (i : Z)
    (acc : list byte) :
  mnemonicToPrivateKey_body dataWords i acc <> throw EncodingError.
Proof.
  destruct (wordIndexAt dataWords i) as [e1|w1] eqn:H1.
  { unfold mnemonicToPrivateKey_body. rewrite H1. cbn [bind].
    intros H. apply (wordIndexAt_no_EncodingError dataWords i). unfold throw in *; congruence. }
  destruct (wordIndexAt dataWords (i + 1)) as [e2|w2] eqn:H2.
  { unfold mnemonicToPrivateKey_body. rewrite H1, H2. cbn [bind].
    intros H. apply (wordIndexAt_no_EncodingError dataWords (i + 1)). unfold throw in *; congruence. }
  destruct (wordIndexAt dataWords (i + 2)) as [e3|w3] eqn:H3.
  { unfold mnemonicToPrivateKey_body. rewrite H1, H2, H3. cbn [bind].
    intros H. apply (wordIndexAt_no_EncodingError dataWords (i + 2)). unfold throw in *; congruence. }
  rewrite (mnemonicToPrivateKey_body_ok _ _ _ _ _ _ H1 H2 H3). discriminate.
Qed.

Lemma for_each_never {S} (P : error -> Prop) (body : Z -> S -> Result S) (idx : list Z) :
  (forall i s e, body i s = throw e -> P e) ->
  forall s e, for_each idx body s = throw e -> P e.
Proof.
  intros H. induction idx as [|i idx IH]; intros s e; cbn [for_each].
  - intros E. now apply ok_not_throw in E.
  - destruct (body i s) as [e'|s'] eqn:E; cbn [bind].
    + intros E'. apply (H i s). unfold throw in *. congruence.
    + apply IH.
Qed.

Lemma at_index_data_words (seed : list byte) (k j : nat) :
  (k < 8)%nat -> (j < 3)%nat ->
  at_index (data_words seed) (3 * Z.of_nat k + Z.of_nat j)
  = nth_error (triplet_words (group_value seed k)) j.
Proof.
  intros Hk Hj. unfold at_index.
  destruct (Z.ltb_spec (3 * Z.of_nat k + Z.of_nat j) 0); [lia|].
  replace (Z.to_nat (3 * Z.of_nat k + Z.of_nat j)) with (3 * k + j)%nat by lia.
  unfold data_words.
  now rewrite (nth_error_flat_map3 _ 8 0 k j) by (auto; lia).
Qed.

Lemma mnemonicToPrivateKey_body_data (seed : list byte) (k : nat) (acc : list byte) :
  (k < 8)%nat -> (32 <= List.length seed)%nat ->
  mnemonicToPrivateKey_body (data_words seed) (3 * Z.of_nat k) acc
  = ok (acc ++ group seed k).
Proof.
  intros Hk Hl.
  pose proof (group_value_range seed k) as Hv.
  destruct (index_ranges _ (proj1 Hv)) as (R1 & R2 & R3).
  rewrite (mnemonicToPrivateKey_body_ok _ _ (index1 (group_value seed k))
             (index2 (group_value seed k)) (index3 (group_value seed k))).
  - rewrite triplet_value_indices by assumption.
    rewrite setUint32LE_group by lia. reflexivity.
  - unfold wordIndexAt.
    replace (3 * Z.of_nat k) with (3 * Z.of_nat k + Z.of_nat 0) by lia.
    rewrite at_index_data_words by lia. cbn [nth_error triplet_words].
    now apply getWordIndex_word.
  - unfold wordIndexAt.
    change 1 with (Z.of_nat 1).
    rewrite at_index_data_words by lia. cbn [nth_error triplet_words].
    now apply getWordIndex_word.
  - unfold wordIndexAt.
    change 2 with (Z.of_nat 2).
    rewrite at_index_data_words by lia. cbn [nth_error triplet_words].
    now apply getWordIndex_word.
Qed.

(** The words of a generated mnemonic, as the decoder and the verifier
    recover them. *)
Lemma generated_mnemonic (seed : list byte) :
  (32 <= List.length seed)%nat ->
  exists cs,
    calculateChecksumWord (data_words seed) = Some cs
    /\ In cs (data_words seed)
    /\ privateKeyToMnemonic seed = ok (String.concat " " (data_words seed ++ [cs]))
    /\ split_ws (trim (String.concat " " (data_words seed ++ [cs])))
       = data_words seed ++ [cs].
Proof.
  intros H.
  destruct (privateKeyToMnemonic_words_ok seed H) as (cs & Hcs & Hw).
  exists cs.
  assert (Hin : In cs (data_words seed)).
  { destruct (calculateChecksumWord_24 _ (data_words_length seed)) as (w & E & Hi & _).
    congruence. }
  repeat split; try assumption.
  - unfold privateKeyToMnemonic. now rewrite Hw.
  - apply split_trim_concat.
    + destruct (data_words seed); discriminate.
    + now apply mnemonic_words_clean.
Qed.

(** C1. For every 32-byte seed, [privateKeyToMnemonic] returns a mnemonic
    and [mnemonicToPrivateKey] decodes that mnemonic to exactly the seed. *)
Theorem mnemonic_roundtrip (seed : list byte) :
  List.length seed = 32%nat ->
  exists m, privateKeyToMnemonic seed = ok m /\ mnemonicToPrivateKey m = ok seed.
Proof.
  intros L.
  destruct (generated_mnemonic seed ltac:(lia)) as (cs & Hcs & Hin & Hm & Hsplit).
  eexists. split; [exact Hm|].
  unfold mnemonicToPrivateKey; cbv zeta. rewrite Hsplit.
  rewrite length_app, data_words_length. cbn [List.length Nat.add Nat.eqb negb].
  rewrite <- (data_words_length seed) at 1. rewrite slice_0_app.
  rewrite (for_each_app 3 _ (group seed) 8)
    by (intros; apply mnemonicToPrivateKey_body_data; lia).
  cbn [app]. now rewrite groups_concat.
Qed.

Lemma mnemonic_roundtrip_witness :
  List.length one_seed = 32%nat
  /\ exists m, privateKeyToMnemonic one_seed = ok m /\ mnemonicToPrivateKey m = ok one_seed.
Proof. split; [reflexivity | apply (mnemonic_roundtrip one_seed); reflexivity]. Defined.

Lemma at_index_last {A} (a : list A) (x : A) :
  at_index (a ++ [x]) (Z.of_nat (List.length a)) = Some x.
Proof.
  unfold at_index. destruct (Z.ltb_spec (Z.of_nat (List.length a)) 0); [lia|].
  rewrite Nat2Z.id, nth_error_app2, Nat.sub_diag by lia. reflexivity.
Qed.

(** C2. For every 32-byte seed the mnemonic of [privateKeyToMnemonic] has 24
    data words followed by a checksum word; [verifyMnemonicChecksum] accepts
    it; the checksum word is the data word at position
    [crc32(first three characters of each data word) mod 24]. *)
Theorem generated_mnemonic_checksum (seed : list byte) :
  List.length seed = 32%nat ->
  exists data cs,
    List.length data = 24%nat
    /\ privateKeyToMnemonic seed = ok (String.concat " " (data ++ [cs]))
    /\ split_ws (trim (String.concat " " (data ++ [cs]))) = data ++ [cs]
    /\ verifyMnemonicChecksum (String.concat " " (data ++ [cs])) = true
    /\ nth_error data
         (Z.to_nat (crc32 (String.concat "" (map (substr0 3) data)) mod 24))
       = Some cs
    /\ In cs data.
Proof.
  intros L.
  destruct (generated_mnemonic seed ltac:(lia)) as (cs & Hcs & Hin & Hm & Hsplit).
  exists (data_words seed), cs.
  pose proof (data_words_length seed) as Hlen.
  repeat split; try assumption.
  - unfold verifyMnemonicChecksum; cbv zeta. rewrite Hsplit.
    rewrite length_app, Hlen. cbn [List.length Nat.add Nat.eqb negb].
    rewrite <- Hlen at 1. rewrite slice_0_app, Hcs.
    change 24 with (Z.of_nat 24). rewrite <- Hlen, at_index_last.
    apply String.eqb_refl.
  - destruct (calculateChecksumWord_24 _ Hlen) as (w & E & _ & Hn).
    congruence.
Qed.

Lemma generated_mnemonic_checksum_witness :
  List.length zero_seed = 32%nat
  /\ exists data cs,
    List.length data = 24%nat
    /\ privateKeyToMnemonic zero_seed = ok (String.concat " " (data ++ [cs]))
    /\ split_ws (trim (String.concat " " (data ++ [cs]))) = data ++ [cs]
    /\ verifyMnemonicChecksum (String.concat " " (data ++ [cs])) = true
    /\ nth_error data
         (Z.to_nat (crc32 (String.concat "" (map (substr0 3) data)) mod 24))
       = Some cs
    /\ In cs data.
Proof.
  split; [reflexivity | apply (generated_mnemonic_checksum zero_seed); reflexivity].
Defined.

Lemma flat_map_length_const {A} (f : nat -> list A) (c n a : nat) :
  (forall x, List.length (f x) = c) ->
  List.length (flat_map f (seq a n)) = (c * n)%nat.
Proof.
  intros Hf. revert a. induction n as [|n IH]; intros a; [cbn; lia|].
  cbn [seq flat_map]. rewrite length_app, Hf, IH. lia.
Qed.

Lemma wordIndexAt_known (dataWords : list string) (i : Z) :
  Forall (fun w => In w WORDLIST) dataWords ->
  0 <= i < Z.of_nat (List.length dataWords) ->
  exists w, wordIndexAt dataWords i = ok w.
Proof.
  intros Hall Hi. unfold wordIndexAt, at_index.
  destruct (Z.ltb_spec i 0); [lia|].
  destruct (nth_error dataWords (Z.to_nat i)) as [x|] eqn:E.
  - apply getWordIndex_known. rewrite Forall_forall in Hall.
    eapply Hall, nth_error_In, E.
  - apply nth_error_None in E. lia.
Qed.

Lemma found_index_ok (dataWords : list string) (i : Z) :
  Forall (fun w => In w WORDLIST) dataWords ->
  0 <= i < Z.of_nat (List.length dataWords) ->
  wordIndexAt dataWords i = ok (found_index dataWords i).
Proof.
  intros Hall Hi. destruct (wordIndexAt_known _ _ Hall Hi) as [w E].
  unfold found_index. now rewrite E.
Qed.

(** C10. [mnemonicToPrivateKey] never raises 'Invalid mnemonic encoding': the
    value rebuilt from three word indices always has the first index as its
    residue modulo 1626. In particular a mnemonic of 25 words whose first 24
    are in the word list decodes to 32 bytes. *)
Theorem mnemonicToPrivateKey_no_EncodingError (mnemonic : string) :
  mnemonicToPrivateKey mnemonic <> throw EncodingError
  /\ (List.length (split_ws (trim mnemonic)) = 25%nat ->
      Forall (fun w => In w WORDLIST) (slice (split_ws (trim mnemonic)) 0 24) ->
      exists seed,
        mnemonicToPrivateKey mnemonic = ok seed /\ List.length seed = 32%nat).
Proof.
  split.
  - unfold mnemonicToPrivateKey; cbv zeta.
    destruct (negb (List.length (split_ws (trim mnemonic)) =? 25)%nat); [discriminate|].
    intros H.
    apply (for_each_never (fun e => e <> EncodingError)
             (mnemonicToPrivateKey_body _) (steps 8 3)
             ltac:(intros i s e E ->;
                   exact (mnemonicToPrivateKey_body_no_EncodingError _ _ _ E))
             [] EncodingError H).
    reflexivity.
  - intros L Hall. unfold mnemonicToPrivateKey; cbv zeta.
    rewrite L. cbn [Nat.eqb negb].
    set (dw := slice (split_ws (trim mnemonic)) 0 24) in *.
    assert (Ldw : List.length dw = 24%nat).
    { unfold dw. rewrite slice_length, L. reflexivity. }
    rewrite (for_each_app 3 _ (decoded_group dw) 8).
    + eexists. split; [reflexivity|].
      cbn [app]. now rewrite (flat_map_length_const _ 4).
    + intros k s Hk. unfold decoded_group; cbv zeta.
      apply mnemonicToPrivateKey_body_ok; apply found_index_ok; try assumption; lia.
Qed.

Lemma In_WORDLIST_dec (w : string) : existsb (String.eqb w) WORDLIST = true -> In w WORDLIST.
Proof.
  intros H. apply existsb_exists in H as (x & Hx & E).
  apply String.eqb_eq in E. now subst.
Qed.

Lemma all_In_WORDLIST_dec (l : list string) :
  forallb (fun w => existsb (String.eqb w) WORDLIST) l = true ->
  Forall (fun w => In w WORDLIST) l.
Proof.
  rewrite forallb_forall, Forall_forall. intros H w Hw.
  now apply In_WORDLIST_dec, H.
Qed.

Lemma mnemonicToPrivateKey_no_EncodingError_witness :
  mnemonicToPrivateKey sample_mnemonic <> throw EncodingError
  /\ exists seed,
       mnemonicToPrivateKey sample_mnemonic = ok seed /\ List.length seed = 32%nat.
Proof.
  destruct (mnemonicToPrivateKey_no_EncodingError sample_mnemonic) as [H1 H2].
  split; [exact H1|].
  apply H2; [reflexivity|].
  apply all_In_WORDLIST_dec. vm_compute. reflexivity.
Defined.

(** ** Varint *)

Lemma ToInt32_small (x : Z) : - 2 ^ 31 <= x < 2 ^ 31 -> JS.ToInt32 x = x.
Proof.
  intros H. unfold JS.ToInt32, JS.two32.
  change (2 ^ 31) with 2147483648 in *. change (2 ^ 32) with 4294967296.
  destruct (Z.leb_spec 2147483648 (x mod 4294967296));
    Z.div_mod_to_equations; lia.
Qed.

Lemma ToInt32_shift (x : Z) : exists k, JS.ToInt32 x = x + k * 2 ^ 32.
Proof.
  unfold JS.ToInt32, JS.two32.
  pose proof (Z.div_mod x (2 ^ 32) ltac:(lia)) as E.
  destruct (2 ^ 31 <=? x mod 2 ^ 32).
  - exists (- (x / 2 ^ 32) - 1). lia.
  - exists (- (x / 2 ^ 32)). lia.
Qed.

Lemma ToInt32_mod (x m : Z) :
  0 < m -> (m | 2 ^ 32) -> JS.ToInt32 x mod m = x mod m.
Proof.
  intros Hm [q Hq]. destruct (ToInt32_shift x) as [k ->].
  rewrite Hq, Z.mul_assoc. apply Z.mod_add. lia.
Qed.

(** [x & (2^n - 1)] keeps the low [n] bits of [x], for [n <= 31]. *)
Lemma JS_and_ones (x n : Z) :
  0 <= n <= 31 -> JS.and x (Z.ones n) = x mod 2 ^ n.
Proof.
  intros Hn. unfold JS.and.
  assert (Hp : 0 < 2 ^ n) by (apply Z.pow_pos_nonneg; lia).
  assert (Hle : 2 ^ n <= 2 ^ 31) by (apply Z.pow_le_mono_r; lia).
  assert (Ho : JS.ToInt32 (Z.ones n) = Z.ones n).
  { apply ToInt32_small. rewrite Z.ones_equiv. lia. }
  rewrite Ho, Z.land_ones by lia.
  rewrite ToInt32_mod; [|lia|].
  - apply ToInt32_small. pose proof (Z.mod_pos_bound x (2 ^ n) Hp). lia.
  - exists (2 ^ (32 - n)). rewrite <- Z.pow_add_r by lia. f_equal. lia.
Qed.

Lemma lor_128 (x : Z) : 0 <= x < 128 -> Z.lor x 128 = x + 128.
Proof.
  intros H.
  assert (E : Z.land x 128 = 0).
  { rewrite <- (Z.mod_small x 128 H) at 1.
    change 128 with (2 ^ 7) at 1. rewrite <- Z.land_ones by lia.
    rewrite <- Z.land_assoc. change (Z.land (Z.ones 7) 128) with 0.
    apply Z.land_0_r. }
  pose proof (Z.add_lor_land x 128). lia.
Qed.

(** The byte pushed in the loop: the low seven bits with the high bit set. *)
Lemma varint_continuation_byte (num : Z) :
  JS.or (JS.and num 0x7f) 0x80 = num mod 128 + 128.
Proof.
  change 0x7f with (Z.ones 7). rewrite JS_and_ones by lia.
  change (2 ^ 7) with 128.
  pose proof (Z.mod_pos_bound num 128 ltac:(lia)) as Hr.
  unfold JS.or.
  rewrite (ToInt32_small (num mod 128)), (ToInt32_small 128)
    by (change (2 ^ 31) with 2147483648; lia).
  rewrite lor_128 by assumption.
  apply ToInt32_small. change (2 ^ 31) with 2147483648. lia.
Qed.

Lemma ushr_7 (num : Z) : 0 <= num < 2 ^ 32 -> JS.ushr num 7 = num / 128.
Proof.
  intros H. unfold JS.ushr, JS.ToUint32, JS.two32.
  change (7 mod 2 ^ 32 mod 32) with 7.
  rewrite Z.mod_small by assumption.
  now rewrite Z.shiftr_div_pow2 by lia.
Qed.

Lemma encodeVarint_loop_stop (num : Z) (bytes : list Z) :
  num < 0x80 -> encodeVarint_loop num bytes = (bytes, num).
Proof.
  intros H. funelim (encodeVarint_loop num bytes); [lia|reflexivity].
Qed.

Lemma encodeVarint_loop_spec (num : Z) (bytes : list Z) :
  0 <= num < 2 ^ 32 ->
  exists more last,
    encodeVarint_loop num bytes = (bytes ++ more, last)
    /\ Forall (fun z => 128 <= z < 256) more
    /\ 0 <= last < 128
    /\ (more = [] \/ 0 < last)
    /\ groups_value more last = num.
Proof.
  funelim (encodeVarint_loop num bytes); intros Hn.
  - assert (Hnext : 0 <= JS.ushr num 7 < 2 ^ 32).
    { rewrite ushr_7 by assumption. change (2 ^ 32) with 4294967296 in *.
      Z.div_mod_to_equations; lia. }
    match goal with
    | IH : 0 <= JS.ushr num 7 < 2 ^ 32 -> _ |- _ =>
        destruct (IH Hnext) as (more & last & E & Hm & Hl & Hc & Hv)
    end.
    exists (JS.or (JS.and num 0x7f) 0x80 :: more), last.
    rewrite E, <- app_assoc. cbn [app].
    pose proof (Z.mod_pos_bound num 128 ltac:(lia)) as Hr.
    repeat split; try lia.
    + constructor; [rewrite varint_continuation_byte; lia|assumption].
    + right. destruct Hc as [->|]; [|assumption].
      cbn [groups_value fold_right] in Hv. rewrite ushr_7 in Hv by assumption.
      Z.div_mod_to_equations; lia.
    + cbn [groups_value fold_right]. fold (groups_value more last).
      rewrite Hv, varint_continuation_byte, ushr_7 by assumption.
      Z.div_mod_to_equations; lia.
  - exists [], num. rewrite app_nil_r. repeat split; try lia.
    + constructor.
    + now left.
Qed.

Lemma u8_small (z : Z) : 0 <= z < 256 -> byteZ (u8 z) = z.
Proof. intros H. rewrite byteZ_u8. now apply Z.mod_small. Qed.

Lemma varint_value_groups (more : list Z) (last : Z) :
  Forall (fun z => 128 <= z < 256) more -> 0 <= last < 128 ->
  varint_value (map u8 (more ++ [last])) = groups_value more last.
Proof.
  intros Hm Hl. induction Hm as [|z more Hz Hm IH].
  - cbn. rewrite u8_small by lia. rewrite Z.mod_small by lia. lia.
  - cbn [app map varint_value groups_value fold_right].
    fold (groups_value more last). rewrite IH, u8_small by lia. reflexivity.
Qed.

(** Below 0x80, negative numbers included, the loop does not run and the
    single byte is the argument modulo 256. *)
Lemma encodeVarint_single (num : Z) : num < 0x80 -> encodeVarint num = [u8 num].
Proof.
  intros H. unfold encodeVarint. rewrite encodeVarint_loop_stop by assumption.
  cbn [app map]. f_equal. apply byteZ_inj. rewrite !byteZ_u8.
  change 0xff with (Z.ones 8). rewrite JS_and_ones by lia.
  change (2 ^ 8) with 256. apply Z.mod_mod. lia.
Qed.

Lemma encodeVarint_uint32 (num : Z) :
  0 <= num < 2 ^ 32 ->
  varint_wf (encodeVarint num) /\ varint_value (encodeVarint num) = num.
Proof.
  intros H.
  destruct (encodeVarint_loop_spec num [] H) as (more & last & E & Hm & Hl & Hc & Hv).
  unfold encodeVarint. rewrite E. cbn [app].
  assert (El : JS.and last 0xff = last).
  { change 0xff with (Z.ones 8). rewrite JS_and_ones by lia.
    apply Z.mod_small. change (2 ^ 8) with 256. lia. }
  rewrite El. split.
  - exists (map u8 more), (u8 last). rewrite map_app. cbn [map].
    repeat split.
    + apply Forall_map. eapply Forall_impl; [|exact Hm].
      cbn beta. intros z Hz. rewrite u8_small; lia.
    + rewrite u8_small; lia.
    + destruct Hc as [->|Hc]; [now left|right]. rewrite u8_small; lia.
  - rewrite varint_value_groups by assumption. exact Hv.
Qed.

(** C9, as the code behaves. [encodeVarint] raises nothing: on a negative
    argument it returns the single byte [n mod 256]. On [0 <= n < 2^32] it
    emits the seven-bit groups of [n], least significant first, every byte
    but the last with the high bit set, and no superfluous final zero. *)
Theorem encodeVarint_spec (n : Z) :
  (n < 0 -> encodeVarint n = [u8 n])
  /\ (0 <= n < 2 ^ 32 ->
      varint_wf (encodeVarint n) /\ varint_value (encodeVarint n) = n).
Proof.
  split.
  - intros H. apply encodeVarint_single. lia.
  - apply encodeVarint_uint32.
Qed.

Lemma encodeVarint_spec_witness :
  encodeVarint (-1) = [u8 (-1)]
  /\ varint_wf (encodeVarint PREFIX) /\ varint_value (encodeVarint PREFIX) = PREFIX.
Proof.
  split.
  - apply (proj1 (encodeVarint_spec (-1))). lia.
  - apply (proj2 (encodeVarint_spec PREFIX)). unfold PREFIX. lia.
Defined.

(** C9, counterexample. On the negative argument -1 the encoder does not
    fail: it returns the one-byte array [0xff]. *)
Lemma encodeVarint_negative_returns : encodeVarint (-1) = [xff].
Proof. vm_compute. reflexivity. Qed.

(** Above 32 bits the unsigned shift drops the high bits: 2^32 is encoded
    like 0 with a continuation byte. *)
Lemma encodeVarint_two32 : encodeVarint (2 ^ 32) = [x80; x00].
Proof. vm_compute. reflexivity. Qed.

Lemma encodeVarint_PREFIX : encodeVarint PREFIX = [x84; x80; x66].
Proof. vm_compute. reflexivity. Qed.

(** ** Block-based Base58 *)

Lemma for_each_inv {S} (I : S -> Prop) (body : Z -> S -> Result S) (idx : list Z) :
  (forall i s, In i idx -> I s -> exists s', body i s = ok s' /\ I s') ->
  forall s, I s -> exists s', for_each idx body s = ok s' /\ I s'.
Proof.
  induction idx as [|i idx IH]; intros H s Hs; cbn [for_each].
  - now exists s.
  - destruct (H i s (or_introl eq_refl) Hs) as (s1 & E & Hs1).
    rewrite E. cbn [bind ok]. apply IH; [|assumption].
    intros; apply H; [now right|assumption].
Qed.

Lemma In_steps (n : nat) (step i : Z) :
  In i (steps n step) -> exists k, (k < n)%nat /\ i = step * Z.of_nat k.
Proof.
  unfold steps. rewrite in_map_iff. intros (k & <- & Hk).
  apply in_seq in Hk. exists k. split; [lia|reflexivity].
Qed.

Lemma string_get_Some (s : string) (n : nat) :
  (n < String.length s)%nat -> exists c, String.get n s = Some c.
Proof.
  revert n. induction s as [|c s IH]; intros n H; cbn [String.length] in H; [lia|].
  destruct n as [|n]; cbn [String.get].
  - now exists c.
  - apply IH. lia.
Qed.

Lemma alphabet_at_length (k : Z) :
  0 <= k < 58 -> String.length (alphabet_at k) = 1%nat.
Proof.
  intros H. unfold alphabet_at.
  destruct (Z.ltb_spec k 0); [lia|].
  destruct (string_get_Some BASE58_ALPHABET (Z.to_nat k)) as [c ->].
  - change (String.length BASE58_ALPHABET) with 58%nat. lia.
  - reflexivity.
Qed.

Lemma list_update_length {A} (a : list A) (i : nat) (v : A) :
  List.length (list_update a i v) = List.length a.
Proof.
  revert i. induction a as [|x a IH]; intros [|i]; cbn; try reflexivity.
  now rewrite IH.
Qed.

Lemma list_update_Forall {A} (P : A -> Prop) (a : list A) (i : nat) (v : A) :
  P v -> Forall P a -> Forall P (list_update a i v).
Proof.
  intros Hv Ha. revert i. induction Ha as [|x a Hx Ha IH]; intros [|i]; cbn;
    constructor; auto.
Qed.

Lemma array_set_slots (n : nat) (a : list string) (idx : Z) (v : string) :
  slots n a -> idx < Z.of_nat n -> String.length v = 1%nat ->
  slots n (array_set a idx v).
Proof.
  intros [L F] Hi Hv. unfold array_set.
  destruct (Z.ltb_spec idx 0); [now split|].
  destruct (Z.ltb_spec idx (Z.of_nat (List.length a))); [|lia].
  split; [now rewrite list_update_length|now apply list_update_Forall].
Qed.

Lemma base58_digits_slots (n : nat) (num j resultStart : Z) (result : list string) :
  slots n result -> resultStart + j < Z.of_nat n ->
  slots n (base58_digits num j resultStart result).
Proof.
  funelim (base58_digits num j resultStart result); intros Hs Hj; [|assumption].
  match goal with IH : forall n, slots n _ -> _ |- _ => apply IH; [|lia] end.
  apply array_set_slots; [assumption|lia|].
  apply alphabet_at_length.
  pose proof (Z.rem_bound_pos num 58 ltac:(lia) ltac:(lia)). lia.
Qed.

Lemma uint8Be_loop_ok (buffer : list byte) (offset : Z) (idx : list Z) (num : Z) :
  Forall (fun i => 0 <= offset + i < Z.of_nat (List.length buffer)) idx ->
  exists r, uint8Be_loop buffer offset idx num = ok r.
Proof.
  intros H. revert num. induction H as [|i idx Hi H IH]; intros num; cbn [uint8Be_loop].
  - now exists num.
  - unfold at_index. destruct (Z.ltb_spec (offset + i) 0); [lia|].
    destruct (nth_error buffer (Z.to_nat (offset + i))) as [b|] eqn:E.
    + apply IH.
    + apply nth_error_None in E. lia.
Qed.

Lemma uint8BeToBigInt_ok (buffer : list byte) (offset size : Z) :
  1 <= size <= 8 -> 0 <= offset -> offset + size <= Z.of_nat (List.length buffer) ->
  exists num, uint8BeToBigInt buffer offset size = ok num.
Proof.
  intros Hs Ho Hl. unfold uint8BeToBigInt.
  destruct (Z.ltb_spec size 1); [lia|]. destruct (Z.ltb_spec 8 size); [lia|].
  cbn [orb]. apply uint8Be_loop_ok, Forall_forall. intros i Hi.
  apply In_steps in Hi as (k & Hk & ->). lia.
Qed.

Lemma encoded_block_size_range (k : Z) :
  0 <= k <= 8 -> 0 <= encoded_block_size k <= 11.
Proof.
  intros H. unfold encoded_block_size, ENCODED_BLOCK_SIZES.
  assert (Hk : (Z.to_nat k <= 8)%nat) by lia.
  destruct (Z.to_nat k) as [|[|[|[|[|[|[|[|[|?]]]]]]]]]; cbn; lia.
Qed.

Lemma encode_block_slots (n : nat) (buffer : list byte)
    (blockStart resultStart size : Z) (result : list string) :
  1 <= size <= 8 -> 0 <= blockStart ->
  blockStart + size <= Z.of_nat (List.length buffer) ->
  resultStart + encoded_block_size size <= Z.of_nat n ->
  slots n result ->
  exists result',
    encode_block buffer blockStart resultStart size result = ok result'
    /\ slots n result'.
Proof.
  intros Hs Hb Hl Hr Hres. unfold encode_block.
  destruct (uint8BeToBigInt_ok buffer blockStart size Hs Hb Hl) as [num ->].
  cbn [bind ok]. eexists. split; [reflexivity|].
  apply base58_digits_slots; [assumption|lia].
Qed.

Lemma concat_slots_length (n : nat) (a : list string) :
  slots n a -> String.length (String.concat "" a) = n.
Proof.
  intros [<- F]. induction F as [|x a Hx F IH]; [reflexivity|].
  destruct a as [|y a].
  - cbn. assumption.
  - change (String.concat "" (x :: y :: a))
      with (x ++ "" ++ String.concat "" (y :: a))%string.
    cbn [String.append].
    assert (La : forall u v, String.length (u ++ v) = (String.length u + String.length v)%nat).
    { induction u; intros; cbn; [reflexivity|now rewrite IHu]. }
    rewrite La, IH, Hx. reflexivity.
Qed.

Lemma repeat_slots (n : nat) : slots n (repeat "1" n).
Proof.
  split; [apply repeat_length|].
  apply Forall_forall. intros x Hx. apply repeat_spec in Hx. now subst.
Qed.

(** The number of characters that [base58Encode] allots to [len] bytes. *)
Lemma base58Encode_slots (buffer : list byte) :
  let len := Z.of_nat (List.length buffer) in
  exists result,
    base58Encode buffer = ok (String.concat "" result)
    /\ slots (Z.to_nat (len / 8 * 11 + encoded_block_size (len mod 8))) result.
Proof.
  cbv zeta. unfold base58Encode; cbv zeta.
  set (len := Z.of_nat (List.length buffer)).
  assert (Hlen : 0 <= len) by (unfold len; lia).
  destruct (Z.eqb_spec len 0) as [E|Hne].
  { exists []. split; [reflexivity|]. rewrite E. split; [reflexivity|constructor]. }
  unfold FULL_BLOCK_SIZE, FULL_ENCODED_BLOCK_SIZE.
  rewrite Z.rem_mod_nonneg by lia.
  pose proof (Z.mod_pos_bound len 8 ltac:(lia)) as Hm.
  pose proof (Z.div_mod len 8 ltac:(lia)) as Hd.
  assert (Hq : 0 <= len / 8) by (apply Z.div_pos; lia).
  pose proof (encoded_block_size_range (len mod 8) ltac:(lia)) as He.
  set (size := len / 8 * 11 + encoded_block_size (len mod 8)) in *.
  destruct (for_each_inv (slots (Z.to_nat size))
              (fun i result => encode_block buffer (i * 8) (i * 11) 8 result)
              (steps (Z.to_nat (len / 8)) 1)) with (s := repeat "1" (Z.to_nat size))
    as (r1 & E1 & S1).
  { intros i r Hi Hr. apply In_steps in Hi as (k & Hk & ->).
    apply encode_block_slots; try assumption; try lia.
    change (encoded_block_size 8) with 11. unfold size. lia. }
  { apply repeat_slots. }
  rewrite E1. cbn [bind ok].
  destruct (Z.ltb_spec 0 (len mod 8)) as [Hpos|Hz].
  - destruct (encode_block_slots (Z.to_nat size) buffer (len / 8 * 8) (len / 8 * 11)
                (len mod 8) r1) as (r2 & E2 & S2); try assumption; try lia.
    rewrite E2. cbn [bind ok]. now exists r2.
  - cbn [bind ok]. now exists r1.
Qed.

(** ** Hexadecimal and typed-array helpers *)

Lemma hex_pairs_length (hex : string) :
  List.length (hex_pairs hex) = Nat.div2 (String.length hex).
Proof.
  enough (H : List.length (hex_pairs hex) = Nat.div2 (String.length hex)
              /\ forall c, List.length (hex_pairs (String c hex))
                           = Nat.div2 (S (String.length hex))) by apply H.
  induction hex as [|a hex [IH1 IH2]].
  - split; reflexivity.
  - split; [apply IH2|].
    intros c. cbn [hex_pairs List.length String.length Nat.div2]. now rewrite IH1.
Qed.

Lemma hexToBytes_length (hex : string) :
  List.length (hexToBytes hex) = Nat.div2 (String.length hex).
Proof. unfold hexToBytes. now rewrite length_map, hex_pairs_length. Qed.

Lemma u8_set_start (source : list byte) (n : nat) :
  u8_set (repeat x00 (List.length source + n)) source 0
  = ok (source ++ repeat x00 n).
Proof.
  unfold u8_set. rewrite repeat_length.
  destruct (Nat.leb_spec (0 + List.length source) (List.length source + n)); [|lia].
  cbn [firstn app Nat.add]. rewrite repeat_app, skipn_app, repeat_length, Nat.sub_diag.
  rewrite skipn_all2 by (rewrite repeat_length; lia). reflexivity.
Qed.

Lemma u8_set_end (a source : list byte) (n : nat) :
  (List.length source <= n)%nat ->
  u8_set (a ++ repeat x00 n) source (List.length a)
  = ok (a ++ source ++ repeat x00 (n - List.length source)).
Proof.
  intros H. unfold u8_set. rewrite length_app, repeat_length.
  destruct (Nat.leb_spec (List.length a + List.length source) (List.length a + n)); [|lia].
  rewrite firstn_app, Nat.sub_diag, firstn_all, app_nil_r. cbn [firstn].
  rewrite skipn_app.
  rewrite skipn_all2 by lia. cbn [app].
  replace (List.length a + List.length source - List.length a)%nat
    with (List.length source) by lia.
  replace n with (List.length source + (n - List.length source))%nat at 1 by lia.
  rewrite repeat_app, skipn_app, repeat_length, Nat.sub_diag.
  rewrite skipn_all2 by (rewrite repeat_length; lia). reflexivity.
Qed.

(** ** The address encoder *)

Section AddressEncoder.

Variable keccak256 : list byte -> string.

(** The buffer that [publicKeyToAddress] hands to [base58Encode]. When the
    digest has fewer than four bytes the missing checksum bytes stay 0. *)
Lemma publicKeyToAddress_buffer (publicKeyBytes : list byte) :
  let body := encodeVarint PREFIX ++ publicKeyBytes in
  let checksum := slice (hexToBytes (keccak256 body)) 0 4 in
  publicKeyToAddress keccak256 publicKeyBytes
  = base58Encode (body ++ checksum ++ repeat x00 (4 - List.length checksum)).
Proof.
  cbv zeta. unfold publicKeyToAddress; cbv zeta.
  rewrite u8_set_start. cbn [bind ok].
  rewrite (u8_set_end (encodeVarint PREFIX) publicKeyBytes) by lia.
  cbn [bind ok]. rewrite Nat.sub_diag. cbn [repeat]. rewrite app_nil_r.
  rewrite Nat.add_comm.
  replace (4 + List.length (encodeVarint PREFIX ++ publicKeyBytes))%nat
    with (List.length (encodeVarint PREFIX ++ publicKeyBytes) + 4)%nat by lia.
  rewrite u8_set_start. cbn [bind ok].
  rewrite u8_set_end by (rewrite slice_length; lia).
  cbn [bind ok]. reflexivity.
Qed.


End AddressEncoder.

(** ** Scalars *)


(** ** Wallets *)

Section EngineProperties.

Variable Point : Type.
Variable BASE_multiply : Z -> Result Point.
Variable toBytes : Point -> list byte.
Variable keccak256 : list byte -> string.



End EngineProperties.

(** ** The retry loop of [generateWallet] *)

Section Generation.

Variable Point : Type.
Variable BASE_multiply : Z -> Result Point.
Variable toBytes : Point -> list byte.
Variable keccak256 : list byte -> string.
Variable generateRandomBytes : nat -> Result (list byte).

Lemma draw_loop_step (attempts : Z) :
  draw_loop generateRandomBytes attempts
  = match generateRandomBytes (Z.to_nat attempts) with
    | inl e => throw e
    | inr privateKeyBytes =>
        match bytesToScalar privateKeyBytes with
        | inl e => throw e
        | inr scalarBigInt =>
            if (curveOrder <=? scalarBigInt) && (attempts + 1 <? 1000)
            then draw_loop generateRandomBytes (attempts + 1)
            else ok (privateKeyBytes, attempts + 1)
        end
    end.
Proof.
  funelim (draw_loop generateRandomBytes attempts);
    repeat match goal with
           | H : generateRandomBytes _ = _ |- _ => rewrite H
           | H : bytesToScalar _ = _ |- _ => rewrite H
           end; try reflexivity;
    destruct (Z.leb_spec curveOrder scalarBigInt);
    destruct (Z.ltb_spec (attempts + 1) 1000);
    cbn [andb]; try reflexivity; lia.
Qed.

(** The loop stops at the first accepted draw, having counted it. *)
Lemma draw_loop_accepts (n a : nat) (privateKeyBytes : list byte) (scalar : Z) :
  (forall i, (a <= i < a + n)%nat -> rejected_draw generateRandomBytes i) ->
  (a + n < 1000)%nat ->
  accepted_draw generateRandomBytes (a + n) privateKeyBytes scalar ->
  draw_loop generateRandomBytes (Z.of_nat a)
  = ok (privateKeyBytes, Z.of_nat (a + n) + 1).
Proof.
  revert a. induction n as [|n IH]; intros a Hrej Hlt (Hg & Hs & Hv).
  - rewrite Nat.add_0_r in *. rewrite draw_loop_step, Nat2Z.id, Hg; cbn [ok]; rewrite Hs; cbn [ok].
    destruct (Z.leb_spec curveOrder scalar); [lia|]. reflexivity.
  - destruct (Hrej a ltac:(lia)) as (pk & sc & Hg' & Hs' & Hv').
    rewrite draw_loop_step, Nat2Z.id, Hg'; cbn [ok]; rewrite Hs'; cbn [ok].
    destruct (Z.leb_spec curveOrder sc); [|lia].
    destruct (Z.ltb_spec (Z.of_nat a + 1) 1000); [|lia]. cbn [andb].
    replace (Z.of_nat a + 1) with (Z.of_nat (S a)) by lia.
    replace (a + S n)%nat with (S a + n)%nat in * by lia.
    apply IH; [intros; apply Hrej; lia|lia|now repeat split].
Qed.

(** After 999 rejected draws the 1000th is returned whatever it is, with
    the counter at 1000. *)
Lemma draw_loop_last (n a : nat) (privateKeyBytes : list byte) (scalar : Z) :
  (forall i, (a <= i < a + n)%nat -> rejected_draw generateRandomBytes i) ->
  (a + n = 999)%nat ->
  generateRandomBytes 999%nat = ok privateKeyBytes ->
  bytesToScalar privateKeyBytes = ok scalar ->
  draw_loop generateRandomBytes (Z.of_nat a) = ok (privateKeyBytes, 1000).
Proof.
  revert a. induction n as [|n IH]; intros a Hrej Ha Hg Hs.
  - rewrite Nat.add_0_r in Ha. subst a.
    rewrite draw_loop_step, Nat2Z.id, Hg; cbn [ok]; rewrite Hs; cbn [ok].
    change (Z.of_nat 999 + 1 <? 1000) with false. rewrite andb_false_r. reflexivity.
  - destruct (Hrej a ltac:(lia)) as (pk & sc & Hg' & Hs' & Hv').
    rewrite draw_loop_step, Nat2Z.id, Hg'; cbn [ok]; rewrite Hs'; cbn [ok].
    destruct (Z.leb_spec curveOrder sc); [|lia].
    destruct (Z.ltb_spec (Z.of_nat a + 1) 1000); [|lia]. cbn [andb].
    replace (Z.of_nat a + 1) with (Z.of_nat (S a)) by lia.
    apply IH; [intros; apply Hrej; lia|lia|assumption|assumption].
Qed.

(** C8, the behaviour of the code at the bound. When the first 999 draws
    are rejected, [generateWallet] makes a 1000th draw and then fails with
    'Failed to generate valid scalar after 1000 attempts' whatever that
    draw is, so also when its scalar is below the curve order. *)
Theorem generateWallet_rejects_last_draw (privateKeyBytes : list byte) (scalar : Z) :
  (forall i, (i < 999)%nat -> rejected_draw generateRandomBytes i) ->
  accepted_draw generateRandomBytes 999 privateKeyBytes scalar ->
  generateWallet Point BASE_multiply toBytes keccak256 generateRandomBytes
  = throw EntropyExhausted.
Proof.
  intros Hrej (Hg & Hs & _). unfold generateWallet.
  change 0 with (Z.of_nat 0).
  rewrite (draw_loop_last 999 0 privateKeyBytes scalar)
    by (try assumption; try reflexivity; intros; apply Hrej; lia).
  reflexivity.
Qed.

End Generation.

Lemma late_rng_rejected (i : nat) : (i < 999)%nat -> rejected_draw late_rng i.
Proof.
  intros H. exists (repeat xff 32), (2 ^ 256 - 1). unfold late_rng.
  destruct (Nat.ltb_spec i 999); [|lia].
  split; [reflexivity|split; [vm_compute; reflexivity|vm_compute; discriminate]].
Qed.

Lemma generateWallet_rejects_last_draw_witness :
  accepted_draw late_rng 999 one_seed 1
  /\ generateWallet Stub.Point Stub.BASE_multiply Stub.toBytes Stub.keccak256 late_rng
     = throw EntropyExhausted.
Proof.
  assert (H : accepted_draw late_rng 999 one_seed 1).
  { split; [reflexivity|split; [vm_compute; reflexivity|vm_compute; reflexivity]]. }
  split; [exact H|].
  exact (generateWallet_rejects_last_draw Stub.Point Stub.BASE_multiply Stub.toBytes
           Stub.keccak256 late_rng one_seed 1 late_rng_rejected H).
Defined.

(** ** Errors of the mnemonic import *)

Lemma first_unknown_word (l : list string) :
  Exists (fun w => ~ In w WORDLIST) l ->
  exists pre w post,
    l = pre ++ w :: post
    /\ Forall (fun x => In x WORDLIST) pre
    /\ ~ In w WORDLIST.
Proof.
  induction l as [|x l IH]; intros H; [inversion H|].
  destruct (in_dec string_dec x WORDLIST) as [Hx|Hx].
  - inversion H as [? ? Hn|? ? Hl]; subst; [contradiction|].
    destruct (IH Hl) as (pre & w & post & -> & Hpre & Hw).
    exists (x :: pre), w, post. repeat split; [constructor|]; assumption.
  - exists [], x, l. repeat split; [constructor|assumption].
Qed.

Lemma wordIndexAt_before (pre post : list string) (w : string) (i : Z) :
  Forall (fun x => In x WORDLIST) pre ->
  0 <= i < Z.of_nat (List.length pre) ->
  wordIndexAt (pre ++ w :: post) i = ok (found_index (pre ++ w :: post) i).
Proof.
  intros Hpre Hi.
  assert (E : at_index (pre ++ w :: post) i = at_index pre i).
  { unfold at_index. destruct (Z.ltb_spec i 0); [lia|].
    apply nth_error_app1. lia. }
  destruct (wordIndexAt_known pre i Hpre Hi) as [x Hx].
  unfold found_index, wordIndexAt in *. rewrite E. now rewrite Hx.
Qed.

Lemma wordIndexAt_unknown (pre post : list string) (w : string) :
  ~ In w WORDLIST ->
  wordIndexAt (pre ++ w :: post) (Z.of_nat (List.length pre)) = throw (UnknownWord w).
Proof.
  intros Hw. unfold wordIndexAt, at_index.
  destruct (Z.ltb_spec (Z.of_nat (List.length pre)) 0); [lia|].
  rewrite Nat2Z.id, nth_error_app2, Nat.sub_diag by lia. cbn [nth_error].
  now apply getWordIndex_unknown.
Qed.

(** The decoder fails on the first data word that is not in the word list,
    and names it. *)
Lemma mnemonicToPrivateKey_loop_unknown (pre post : list string) (w : string) :
  List.length (pre ++ w :: post) = 24%nat ->
  Forall (fun x => In x WORDLIST) pre ->
  ~ In w WORDLIST ->
  for_each (steps 8 3) (mnemonicToPrivateKey_body (pre ++ w :: post)) []
  = throw (UnknownWord w).
Proof.
  intros L Hpre Hw. rewrite length_app in L. cbn [List.length] in L.
  set (dw := pre ++ w :: post) in *.
  pose proof (Nat.div_mod_eq (List.length pre) 3) as Hd.
  pose proof (Nat.mod_upper_bound (List.length pre) 3 ltac:(lia)) as Hm.
  set (k0 := (List.length pre / 3)%nat) in *.
  set (j0 := (List.length pre mod 3)%nat) in *.
  apply (for_each_throw_from 3 _ (decoded_group dw) _ 8 0 k0); [lia| |].
  - intros k s Hk. unfold decoded_group; cbv zeta.
    apply mnemonicToPrivateKey_body_ok; apply wordIndexAt_before; try assumption; lia.
  - intros s. unfold mnemonicToPrivateKey_body. unfold dw in *. clear dw.
    assert (Hthrow : wordIndexAt (pre ++ w :: post) (3 * Z.of_nat k0 + Z.of_nat j0) = throw (UnknownWord w)).
    { replace (3 * Z.of_nat k0 + Z.of_nat j0) with (Z.of_nat (List.length pre)) by lia.
      now apply wordIndexAt_unknown. }
    destruct j0 as [|[|[|?]]]; [| | |lia].
    + rewrite Z.add_0_r in Hthrow. now rewrite Hthrow.
    + rewrite (wordIndexAt_before pre post w (3 * Z.of_nat k0)) by (try assumption; lia).
      cbn [bind ok]. change (Z.of_nat 1) with 1 in Hthrow. now rewrite Hthrow.
    + rewrite (wordIndexAt_before pre post w (3 * Z.of_nat k0)) by (try assumption; lia).
      cbn [bind ok].
      rewrite (wordIndexAt_before pre post w (3 * Z.of_nat k0 + 1))
        by (try assumption; lia).
      cbn [bind ok]. change (Z.of_nat 2) with 2 in Hthrow. now rewrite Hthrow.
Qed.

Lemma mnemonicToPrivateKey_unknown_word (mnemonic : string) :
  List.length (split_ws (trim mnemonic)) = 25%nat ->
  Exists (fun w => ~ In w WORDLIST) (slice (split_ws (trim mnemonic)) 0 24) ->
  exists w,
    In w (slice (split_ws (trim mnemonic)) 0 24)
    /\ ~ In w WORDLIST
    /\ mnemonicToPrivateKey mnemonic = throw (UnknownWord w).
Proof.
  intros L Hex. unfold mnemonicToPrivateKey; cbv zeta. rewrite L. cbn [Nat.eqb negb].
  assert (Ldw : List.length (slice (split_ws (trim mnemonic)) 0 24) = 24%nat).
  { rewrite slice_length, L. reflexivity. }
  destruct (first_unknown_word _ Hex) as (pre & w & post & E & Hpre & Hw).
  rewrite E in *. exists w. repeat split; try assumption.
  - apply in_elt.
  - now apply mnemonicToPrivateKey_loop_unknown.
Qed.

Lemma words_25_split {A} (words : list A) :
  List.length words = 25%nat ->
  exists a, words = slice words 0 24 ++ [a] /\ at_index words 24 = Some a.
Proof.
  intros L. unfold slice. cbn [skipn Nat.sub].
  do 25 (destruct words as [|? words]; [discriminate|]).
  destruct words; [|discriminate]. eexists. split; reflexivity.
Qed.

Section MnemonicImport.

Variable Point : Type.
Variable BASE_multiply : Z -> Result Point.
Variable toBytes : Point -> list byte.
Variable keccak256 : list byte -> string.

(** C4, as the code behaves. [importFromMnemonic] checks the checksum
    first, so a mnemonic that does not have 25 words fails with 'Invalid
    mnemonic checksum', as does a 25-word mnemonic whose last word is not
    the checksum word of the first 24. A 25-word mnemonic with a matching
    checksum that contains a word outside the word list fails with 'Word not
    found in wordlist', naming a data word that is not in the list. *)
Theorem importFromMnemonic_errors (mnemonic : string) :
  let words := split_ws (trim mnemonic) in
  let import := importFromMnemonic Point BASE_multiply toBytes keccak256 mnemonic in
  (List.length words <> 25%nat -> import = throw InvalidChecksum)
  /\ (List.length words = 25%nat ->
      calculateChecksumWord (slice words 0 24) <> at_index words 24 ->
      import = throw InvalidChecksum)
  /\ (List.length words = 25%nat ->
      calculateChecksumWord (slice words 0 24) = at_index words 24 ->
      Exists (fun w => ~ In w WORDLIST) words ->
      exists w,
        In w (slice words 0 24) /\ ~ In w WORDLIST
        /\ import = throw (UnknownWord w)).
Proof.
  cbv zeta. unfold importFromMnemonic, verifyMnemonicChecksum; cbv zeta.
  split; [|split].
  - intros H. apply Nat.eqb_neq in H. now rewrite H.
  - intros L H. rewrite L. cbn [Nat.eqb negb].
    destruct (words_25_split _ L) as (a & _ & Ha).
    rewrite Ha in *.
    destruct (calculateChecksumWord _) as [e|]; [|reflexivity].
    destruct (String.eqb_spec e a) as [->|]; [congruence|reflexivity].
  - intros L H Hex. rewrite L. cbn [Nat.eqb negb].
    destruct (words_25_split _ L) as (a & Hw & Ha).
    rewrite Ha in *. rewrite H, String.eqb_refl. cbn [negb].
    assert (Ldw : List.length (slice (split_ws (trim mnemonic)) 0 24) = 24%nat).
    { rewrite slice_length, L. reflexivity. }
    assert (Hex' : Exists (fun w => ~ In w WORDLIST)
                     (slice (split_ws (trim mnemonic)) 0 24)).
    { rewrite Hw in Hex. apply Exists_app in Hex as [Hex|Hex]; [assumption|].
      destruct (calculateChecksumWord_24 _ Ldw) as (cs & Hcs & Hin & _).
      assert (cs = a) by congruence. subst cs.
      inversion Hex as [? ? Hn|? ? Hn]; subst; [|inversion Hn].
      apply Exists_exists. now exists a. }
    destruct (mnemonicToPrivateKey_unknown_word mnemonic L Hex')
      as (w & Hin & Hn & E).
    exists w. repeat split; try assumption. now rewrite E.
Qed.

End MnemonicImport.

(** C4, counterexample. A mnemonic of 24 words makes [importFromMnemonic]
    fail with 'Invalid mnemonic checksum', not with 'Mnemonic must have exactly
    25 words'. *)
Lemma importFromMnemonic_24_words :
  List.length (split_ws (trim mnemonic_24_words)) = 24%nat
  /\ importFromMnemonic Stub.Point Stub.BASE_multiply Stub.toBytes Stub.keccak256
       mnemonic_24_words = throw InvalidChecksum
  /\ importFromMnemonic Stub.Point Stub.BASE_multiply Stub.toBytes Stub.keccak256
       mnemonic_24_words <> throw InvalidLength.
Proof.
  split; [reflexivity|].
  assert (E : importFromMnemonic Stub.Point Stub.BASE_multiply Stub.toBytes
                Stub.keccak256 mnemonic_24_words = throw InvalidChecksum)
    by reflexivity.
  split; [exact E|]. rewrite E. discriminate.
Qed.

Lemma not_In_WORDLIST_dec (w : string) :
  existsb (String.eqb w) WORDLIST = false -> ~ In w WORDLIST.
Proof.
  intros H Hin.
  assert (existsb (String.eqb w) WORDLIST = true).
  { apply existsb_exists. exists w. split; [assumption|apply String.eqb_refl]. }
  congruence.
Qed.

Lemma some_unknown_word_dec (l : list string) :
  existsb (fun w => negb (existsb (String.eqb w) WORDLIST)) l = true ->
  Exists (fun w => ~ In w WORDLIST) l.
Proof.
  intros H. apply existsb_exists in H as (w & Hw & Hn).
  apply Exists_exists. exists w. split; [assumption|].
  apply not_In_WORDLIST_dec. now apply negb_true_iff.
Qed.

Lemma importFromMnemonic_errors_witness :
  importFromMnemonic Stub.Point Stub.BASE_multiply Stub.toBytes Stub.keccak256
    mnemonic_24_words = throw InvalidChecksum
  /\ importFromMnemonic Stub.Point Stub.BASE_multiply Stub.toBytes Stub.keccak256
       mnemonic_bad_checksum = throw InvalidChecksum
  /\ exists w,
       In w (slice (split_ws (trim mnemonic_unknown_word)) 0 24)
       /\ ~ In w WORDLIST
       /\ importFromMnemonic Stub.Point Stub.BASE_multiply Stub.toBytes Stub.keccak256
            mnemonic_unknown_word = throw (UnknownWord w).
Proof.
  destruct (importFromMnemonic_errors Stub.Point Stub.BASE_multiply Stub.toBytes
              Stub.keccak256 mnemonic_24_words) as (H1 & _ & _).
  destruct (importFromMnemonic_errors Stub.Point Stub.BASE_multiply Stub.toBytes
              Stub.keccak256 mnemonic_bad_checksum) as (_ & H2 & _).
  destruct (importFromMnemonic_errors Stub.Point Stub.BASE_multiply Stub.toBytes
              Stub.keccak256 mnemonic_unknown_word) as (_ & _ & H3).
  split; [|split].
  - apply H1. intros H. vm_compute in H. discriminate H.
  - apply H2; [reflexivity|].
    intros H. vm_compute in H. discriminate H.
  - apply H3; [reflexivity|vm_compute; reflexivity|].
    apply some_unknown_word_dec. vm_compute. reflexivity.
Defined.

(** ** Hexadecimal round trip *)

Lemma concat_empty_cons (x : string) (l : list string) :
  String.concat "" (x :: l) = (x ++ String.concat "" l)%string.
Proof.
  destruct l as [|y l]; cbn [String.concat].
  - now rewrite append_nil_r.
  - reflexivity.
Qed.

Lemma hex_pairs_byteToHex (b : byte) (rest : string) :
  hex_pairs (byteToHex b ++ rest) = byteToHex b :: hex_pairs rest.
Proof. reflexivity. Qed.

Lemma hex_pairs_bytesToHex (bytes : list byte) :
  hex_pairs (bytesToHex bytes) = map byteToHex bytes.
Proof.
  unfold bytesToHex. induction bytes as [|b bytes IH]; [reflexivity|].
  cbn [map]. rewrite concat_empty_cons, hex_pairs_byteToHex, IH. reflexivity.
Qed.

Lemma parse_byteToHex (b : byte) :
  match parseInt16 (byteToHex b) with Some v => u8 v | None => x00 end = b.
Proof. destruct b; vm_compute; reflexivity. Qed.

Lemma byteToHex_lower (b : byte) : string_forallb is_lower_hex (byteToHex b) = true.
Proof. destruct b; vm_compute; reflexivity. Qed.

Lemma string_forallb_app (p : ascii -> bool) (a b : string) :
  string_forallb p (a ++ b) = string_forallb p a && string_forallb p b.
Proof.
  induction a as [|c a IH]; [reflexivity|].
  cbn [String.append string_forallb]. now rewrite IH, andb_assoc.
Qed.

Lemma string_length_app (a b : string) :
  String.length (a ++ b) = (String.length a + String.length b)%nat.
Proof. induction a as [|c a IH]; cbn; [reflexivity|now rewrite IH]. Qed.

Lemma hexToBytes_rendered (bytes : list byte) :
  hexToBytes (bytesToHex bytes) = bytes.
Proof.
  unfold hexToBytes. rewrite hex_pairs_bytesToHex, map_map.
  induction bytes as [|b bytes IH]; [reflexivity|].
  cbn [map]. now rewrite parse_byteToHex, IH.
Qed.

(** X1. [hexToBytes] undoes [bytesToHex]: the hexadecimal rendering of a byte
    array parses back to the same bytes, so two byte arrays with the same
    rendering are equal. *)
Theorem hexToBytes_bytesToHex (bytes : list byte) :
  hexToBytes (bytesToHex bytes) = bytes
  /\ (forall other, bytesToHex other = bytesToHex bytes -> other = bytes).
Proof.
  split; [apply hexToBytes_rendered|].
  intros other E.
  rewrite <- (hexToBytes_rendered other), E. apply hexToBytes_rendered.
Qed.

Lemma bytesToHex_format (bytes : list byte) :
  String.length (bytesToHex bytes) = (2 * List.length bytes)%nat
  /\ string_forallb is_lower_hex (bytesToHex bytes) = true.
Proof.
  unfold bytesToHex. induction bytes as [|b bytes [IH1 IH2]]; [split; reflexivity|].
  cbn [map List.length]. rewrite concat_empty_cons, string_length_app, string_forallb_app.
  rewrite IH1, IH2, byteToHex_lower. split; [|reflexivity].
  change (String.length (byteToHex b)) with 2%nat. lia.
Qed.

Lemma lower_hex_is_hex (s : string) :
  string_forallb is_lower_hex s = true -> string_forallb is_hex_char s = true.
Proof.
  induction s as [|c s IH]; [reflexivity|].
  cbn [string_forallb]. intros H. apply andb_true_iff in H as [Hc Hs].
  rewrite (IH Hs), andb_true_r. unfold is_hex_char, is_lower_hex in *.
  cbv zeta in *. now rewrite Hc.
Qed.

(** X2. [bytesToHex] writes two lower-case hexadecimal digits per byte, so
    the rendering of a byte array passes [isValidBlockHash] and
    [isValidTxHash] exactly when the array has 32 bytes. *)
Theorem bytesToHex_valid_hash (bytes : list byte) :
  String.length (bytesToHex bytes) = (2 * List.length bytes)%nat
  /\ string_forallb is_lower_hex (bytesToHex bytes) = true
  /\ isValidBlockHash (bytesToHex bytes) = (List.length bytes =? 32)%nat
  /\ isValidTxHash (bytesToHex bytes) = (List.length bytes =? 32)%nat.
Proof.
  destruct (bytesToHex_format bytes) as [L F].
  split; [exact L|]. split; [exact F|].
  unfold isValidBlockHash, isValidTxHash, test_hash64.
  rewrite (lower_hex_is_hex _ F), andb_true_r, L.
  destruct (Nat.eqb_spec (List.length bytes) 32) as [E|E].
  - rewrite E. split; reflexivity.
  - destruct (Nat.eqb_spec (2 * List.length bytes) 0);
      destruct (Nat.eqb_spec (2 * List.length bytes) 64); try lia; split; reflexivity.
Qed.

(** ** Scalars, little-endian *)

Lemma for_each_steps_ind {S} (P : nat -> S -> Prop) (step : Z)
    (body : Z -> S -> Result S) (n a : nat) :
  (forall k s, (a <= k < a + n)%nat -> P k s ->
     exists s', body (step * Z.of_nat k) s = ok s' /\ P (Datatypes.S k) s') ->
  forall s, P a s ->
    exists s', for_each (map (fun k => step * Z.of_nat k) (seq a n)) body s = ok s'
               /\ P (a + n)%nat s'.
Proof.
  revert a. induction n as [|n IH]; intros a H s Hs.
  - exists s. rewrite Nat.add_0_r. now split.
  - cbn [seq map for_each].
    destruct (H a s ltac:(lia) Hs) as (s1 & E & Hs1). rewrite E. cbn [bind ok].
    destruct (IH (Datatypes.S a) ltac:(intros; apply H; [lia|assumption]) s1 Hs1)
      as (s2 & E2 & Hs2).
    exists s2. split; [exact E2|]. now replace (a + Datatypes.S n)%nat
      with (Datatypes.S a + n)%nat by lia.
Qed.

Lemma for_each_steps_throw {S} (step : Z) (body : Z -> S -> Result S) (e : error)
    (n a j : nat) :
  (a <= j < a + n)%nat ->
  (forall k s, (a <= k < j)%nat -> exists s', body (step * Z.of_nat k) s = ok s') ->
  (forall s, body (step * Z.of_nat j) s = throw e) ->
  forall s, for_each (map (fun k => step * Z.of_nat k) (seq a n)) body s = throw e.
Proof.
  revert a. induction n as [|n IH]; intros a Hj Hok He s; [lia|].
  cbn [seq map for_each].
  destruct (Nat.eq_dec a j) as [->|Hne].
  - now rewrite He.
  - destruct (Hok a s ltac:(lia)) as [s' ->]. cbn [bind ok].
    apply IH; [lia| |assumption]. intros; apply Hok; lia.
Qed.

Lemma testbit_above (s n m : Z) :
  0 <= s < 2 ^ n -> 0 <= n <= m -> Z.testbit s m = false.
Proof.
  intros Hs Hn. rewrite <- (Z.mod_small s (2 ^ n) Hs).
  apply Z.mod_pow2_bits_high. lia.
Qed.

(** A byte shifted above a number that has no bits there is added to it. *)
Lemma lor_shiftl_disjoint (s b n : Z) :
  0 <= s < 2 ^ n -> 0 <= n -> Z.lor s (Z.shiftl b n) = s + b * 2 ^ n.
Proof.
  intros Hs Hn.
  assert (E : Z.land s (Z.shiftl b n) = 0).
  { apply Z.bits_inj'. intros m Hm. rewrite Z.land_spec, Z.bits_0.
    destruct (Z.lt_ge_cases m n).
    - rewrite Z.shiftl_spec_low by assumption. apply andb_false_r.
    - rewrite (testbit_above s n m) by lia. reflexivity. }
  pose proof (Z.add_lor_land s (Z.shiftl b n)) as H.
  rewrite E, Z.add_0_r in H. rewrite H. now rewrite Z.shiftl_mul_pow2.
Qed.

Lemma le_value_snoc (l : list byte) (b : byte) :
  le_value (l ++ [b]) = le_value l + byteZ b * 256 ^ Z.of_nat (List.length l).
Proof.
  induction l as [|x l IH].
  - cbn. lia.
  - cbn [app le_value fold_right List.length]. fold (le_value (l ++ [b])).
    fold (le_value l). rewrite IH, Nat2Z.inj_succ, Z.pow_succ_r by lia. lia.
Qed.

Lemma le_value_range (l : list byte) :
  0 <= le_value l < 256 ^ Z.of_nat (List.length l).
Proof.
  induction l as [|x l IH].
  - cbn. lia.
  - cbn [le_value fold_right List.length]. fold (le_value l).
    rewrite Nat2Z.inj_succ, Z.pow_succ_r by lia.
    pose proof (byteZ_range x). lia.
Qed.

Lemma firstn_succ_nth {A} (l : list A) (k : nat) (x : A) :
  nth_error l k = Some x -> firstn (Datatypes.S k) l = firstn k l ++ [x].
Proof.
  revert k. induction l as [|y l IH]; intros [|k] H; try discriminate.
  - injection H as ->. reflexivity.
  - cbn [firstn app]. f_equal. now apply IH.
Qed.

Lemma bytesToScalar_le_value (privateKeyBytes : list byte) :
  (32 <= List.length privateKeyBytes)%nat ->
  bytesToScalar privateKeyBytes = ok (le_value (firstn 32 privateKeyBytes)).
Proof.
  intros L. unfold bytesToScalar, steps.
  destruct (for_each_steps_ind
              (fun k s => s = le_value (firstn k privateKeyBytes)) 1
              (fun i scalarBigInt =>
                 match at_index privateKeyBytes i with
                 | Some b => ok (Z.lor scalarBigInt (Z.shiftl (byteZ b) (i * 8)))
                 | None => throw TypeError
                 end) 32 0) with (s := 0) as (r & E & Hr).
  - intros k s Hk ->. unfold at_index.
    destruct (Z.ltb_spec (1 * Z.of_nat k) 0); [lia|].
    replace (Z.to_nat (1 * Z.of_nat k)) with k by lia.
    destruct (nth_error privateKeyBytes k) as [b|] eqn:Eb.
    + eexists. split; [reflexivity|].
      rewrite (firstn_succ_nth _ _ _ Eb), le_value_snoc, length_firstn.
      replace (Nat.min k (List.length privateKeyBytes)) with k by lia.
      pose proof (le_value_range (firstn k privateKeyBytes)) as R.
      rewrite length_firstn in R.
      replace (Nat.min k (List.length privateKeyBytes)) with k in R by lia.
      replace (256 ^ Z.of_nat k) with (2 ^ (1 * Z.of_nat k * 8)) in *
        by (change 256 with (2 ^ 8); rewrite <- Z.pow_mul_r by lia; f_equal; lia).
      apply lor_shiftl_disjoint; lia.
    + apply nth_error_None in Eb. lia.
  - reflexivity.
  - rewrite E. now rewrite Hr.
Qed.

(** X3. The scalar that the engine reads from a private key of 32 bytes or
    more is the little-endian value of its first 32 bytes, a number below
    2^256; bytes after the 32nd are not read. *)
Theorem bytesToScalar_little_endian (privateKeyBytes : list byte) :
  (32 <= List.length privateKeyBytes)%nat ->
  bytesToScalar privateKeyBytes = ok (le_value (firstn 32 privateKeyBytes))
  /\ 0 <= le_value (firstn 32 privateKeyBytes) < 2 ^ 256.
Proof.
  intros L. split; [now apply bytesToScalar_le_value|].
  pose proof (le_value_range (firstn 32 privateKeyBytes)) as R.
  rewrite length_firstn in R.
  replace (Nat.min 32 (List.length privateKeyBytes)) with 32%nat in R by lia.
  exact R.
Qed.

Lemma bytesToScalar_little_endian_witness :
  (32 <= List.length one_seed)%nat
  /\ bytesToScalar one_seed = ok (le_value (firstn 32 one_seed)).
Proof.
  split; [vm_compute; lia|].
  apply (bytesToScalar_little_endian one_seed). vm_compute. lia.
Defined.

Lemma bytesToScalar_short (privateKeyBytes : list byte) :
  (List.length privateKeyBytes < 32)%nat ->
  bytesToScalar privateKeyBytes = throw TypeError.
Proof.
  intros L. unfold bytesToScalar, steps.
  apply (for_each_steps_throw 1 _ TypeError 32 0 (List.length privateKeyBytes)); [lia| |].
  - intros k s Hk. unfold at_index.
    destruct (Z.ltb_spec (1 * Z.of_nat k) 0); [lia|].
    destruct (nth_error privateKeyBytes (Z.to_nat (1 * Z.of_nat k))) as [b|] eqn:E.
    + eexists. reflexivity.
    + apply nth_error_None in E. lia.
  - intros s. rewrite at_index_beyond by lia. reflexivity.
Qed.

(** ** Keys that are too short or too long *)

Lemma privateKeyToMnemonic_words_short (seed : list byte) :
  (List.length seed < 32)%nat ->
  privateKeyToMnemonic_words seed = throw RangeError.
Proof.
  intros L. unfold privateKeyToMnemonic_words, steps.
  rewrite (for_each_throw_from 4 _ (fun k => triplet_words (group_value seed k))
             RangeError 8 0 (List.length seed / 4)).
  - reflexivity.
  - pose proof (Nat.div_mod_eq (List.length seed) 4).
    pose proof (Nat.mod_upper_bound (List.length seed) 4 ltac:(lia)). lia.
  - intros k s Hk. apply privateKeyToMnemonic_body_ok.
    pose proof (Nat.div_mod_eq (List.length seed) 4).
    pose proof (Nat.mod_upper_bound (List.length seed) 4 ltac:(lia)). nia.
  - intros s. unfold privateKeyToMnemonic_body.
    rewrite getUint32LE_short; [reflexivity|].
    pose proof (Nat.div_mod_eq (List.length seed) 4).
    pose proof (Nat.mod_upper_bound (List.length seed) 4 ltac:(lia)). lia.
Qed.

Section ShortKeys.

Variable Point : Type.
Variable BASE_multiply : Z -> Result Point.
Variable toBytes : Point -> list byte.
Variable keccak256 : list byte -> string.

(** X4. A key of fewer than 32 bytes is refused before any library is
    called: [privateKeyToMnemonic] fails with a [RangeError] (the [DataView]
    cannot be built), [generateEd25519Keypair] fails with a [TypeError]
    ([BigInt(undefined)]) with or without [ensureValid], and so does
    [importFromPrivateKey] on fewer than 64 hexadecimal digits. *)
Theorem short_key_errors (privateKeyBytes : list byte) (privateKeyHex : string) :
  ((List.length privateKeyBytes < 32)%nat ->
     privateKeyToMnemonic privateKeyBytes = throw RangeError
     /\ forall ensureValid,
          generateEd25519Keypair Point BASE_multiply toBytes privateKeyBytes ensureValid
          = throw TypeError)
  /\ ((String.length privateKeyHex < 64)%nat ->
        importFromPrivateKey Point BASE_multiply toBytes keccak256 privateKeyHex
        = throw TypeError).
Proof.
  split.
  - intros L. split.
    + unfold privateKeyToMnemonic. now rewrite privateKeyToMnemonic_words_short.
    + intros ensureValid. unfold generateEd25519Keypair.
      now rewrite bytesToScalar_short.
  - intros L. unfold importFromPrivateKey, generateEd25519Keypair; cbv zeta.
    rewrite bytesToScalar_short; [reflexivity|].
    rewrite hexToBytes_length.
    rewrite Nat.div2_div. apply Nat.Div0.div_lt_upper_bound. lia.
Qed.

End ShortKeys.

Lemma short_key_errors_witness :
  privateKeyToMnemonic [x01; x02; x03] = throw RangeError
  /\ importFromPrivateKey Stub.Point Stub.BASE_multiply Stub.toBytes Stub.keccak256 "abcd"
     = throw TypeError.
Proof.
  destruct (short_key_errors Stub.Point Stub.BASE_multiply Stub.toBytes Stub.keccak256
              [x01; x02; x03] "abcd") as [H1 H2].
  split.
  - apply H1. cbn. lia.
  - apply H2. cbn. lia.
Defined.

Lemma slice_firstn {A} (l : list A) (n lo hi : nat) :
  (hi <= n)%nat -> slice (firstn n l) lo hi = slice l lo hi.
Proof.
  intros H. unfold slice.
  rewrite skipn_firstn_comm, firstn_firstn.
  destruct (Nat.le_gt_cases lo hi).
  - now replace (Nat.min (hi - lo) (n - lo)) with (hi - lo)%nat by lia.
  - replace (hi - lo)%nat with 0%nat by lia. rewrite Nat.min_0_l. reflexivity.
Qed.

Lemma flat_map_ext_In {A B} (f g : A -> list B) (l : list A) :
  (forall a, In a l -> f a = g a) -> flat_map f l = flat_map g l.
Proof.
  induction l as [|x l IH]; intros H; [reflexivity|].
  cbn [flat_map]. rewrite (H x (or_introl eq_refl)), IH; [reflexivity|].
  intros; apply H; now right.
Qed.

Lemma data_words_firstn (seed : list byte) :
  data_words (firstn 32 seed) = data_words seed.
Proof.
  unfold data_words. apply flat_map_ext_In. intros k Hk. apply in_seq in Hk.
  unfold group_value, group. rewrite slice_firstn by lia. reflexivity.
Qed.

(** X5. [privateKeyToMnemonic] reads the first 32 bytes of its argument and
    nothing else: a longer array gives the mnemonic of its first 32 bytes. *)
Theorem privateKeyToMnemonic_first_32 (seed : list byte) :
  (32 <= List.length seed)%nat ->
  privateKeyToMnemonic seed = privateKeyToMnemonic (firstn 32 seed).
Proof.
  intros L.
  destruct (generated_mnemonic seed L) as (cs & Hcs & _ & Hm & _).
  destruct (generated_mnemonic (firstn 32 seed)) as (cs' & Hcs' & _ & Hm' & _).
  { rewrite length_firstn. lia. }
  rewrite data_words_firstn in *.
  assert (cs' = cs) by congruence. subst cs'.
  now rewrite Hm, Hm'.
Qed.

Lemma privateKeyToMnemonic_first_32_witness :
  (32 <= List.length (one_seed ++ [xff]))%nat
  /\ privateKeyToMnemonic (one_seed ++ [xff])
     = privateKeyToMnemonic (firstn 32 (one_seed ++ [xff])).
Proof.
  split; [vm_compute; lia|].
  apply (privateKeyToMnemonic_first_32 (one_seed ++ [xff])). vm_compute. lia.
Defined.

(** ** The checksum word and the decoder *)

Lemma words_of_clean_mnemonic (data : list string) (a : string) :
  Forall (fun w => clean_word w = true) data -> clean_word a = true ->
  split_ws (trim (String.concat " " (data ++ [a]))) = data ++ [a].
Proof.
  intros Hd Ha. apply split_trim_concat.
  - destruct data; discriminate.
  - apply Forall_app. split; [assumption|now constructor].
Qed.

Lemma verifyMnemonicChecksum_clean (data : list string) (a : string) :
  List.length data = 24%nat ->
  Forall (fun w => clean_word w = true) data -> clean_word a = true ->
  verifyMnemonicChecksum (String.concat " " (data ++ [a]))
  = match calculateChecksumWord data with
    | Some e => String.eqb e a
    | None => false
    end.
Proof.
  intros L Hd Ha. unfold verifyMnemonicChecksum; cbv zeta.
  rewrite words_of_clean_mnemonic by assumption.
  rewrite length_app, L. cbn [List.length Nat.add Nat.eqb negb].
  rewrite <- L at 1. rewrite slice_0_app.
  change 24 with (Z.of_nat 24). rewrite <- L, at_index_last. reflexivity.
Qed.

(** X6. On 24 data words followed by a 25th word (words without white
    space, joined by spaces), [verifyMnemonicChecksum] answers [true] exactly
    when the 25th word is the checksum word of the first 24; that word is
    always one of the 24, so a 25th word that is not among them is refused. *)
Theorem verifyMnemonicChecksum_iff (data : list string) (a : string) :
  List.length data = 24%nat ->
  Forall (fun w => clean_word w = true) data -> clean_word a = true ->
  (verifyMnemonicChecksum (String.concat " " (data ++ [a])) = true
   <-> calculateChecksumWord data = Some a)
  /\ (~ In a data -> verifyMnemonicChecksum (String.concat " " (data ++ [a])) = false).
Proof.
  intros L Hd Ha. rewrite (verifyMnemonicChecksum_clean data a L Hd Ha).
  destruct (calculateChecksumWord_24 data L) as (cs & Hcs & Hin & _).
  rewrite Hcs. split.
  - rewrite String.eqb_eq. split; congruence.
  - intros Hn. apply String.eqb_neq. congruence.
Qed.

Lemma abbey24_clean : Forall (fun w => clean_word w = true) abbey24.
Proof. apply Forall_forall. intros w Hw. apply repeat_spec in Hw. now subst. Qed.

Lemma verifyMnemonicChecksum_iff_witness :
  verifyMnemonicChecksum (String.concat " " (abbey24 ++ ["zoom"])) = false.
Proof.
  refine (proj2 (verifyMnemonicChecksum_iff abbey24 "zoom" eq_refl abbey24_clean eq_refl) _).
  intros H. apply repeat_spec in H. discriminate H.
Defined.

(** X7. [mnemonicToPrivateKey] does not look at the 25th word: two mnemonics
    with the same 24 data words decode alike, whatever their last words. *)
Theorem mnemonicToPrivateKey_ignores_checksum (data : list string) (a a' : string) :
  List.length data = 24%nat ->
  Forall (fun w => clean_word w = true) data ->
  clean_word a = true -> clean_word a' = true ->
  mnemonicToPrivateKey (String.concat " " (data ++ [a]))
  = mnemonicToPrivateKey (String.concat " " (data ++ [a'])).
Proof.
  intros L Hd Ha Ha'. unfold mnemonicToPrivateKey; cbv zeta.
  rewrite !words_of_clean_mnemonic by assumption.
  rewrite !length_app, L. cbn [List.length Nat.add Nat.eqb negb].
  rewrite <- L. now rewrite !slice_0_app.
Qed.

Lemma mnemonicToPrivateKey_ignores_checksum_witness :
  mnemonicToPrivateKey (String.concat " " (abbey24 ++ ["abbey"]))
  = mnemonicToPrivateKey (String.concat " " (abbey24 ++ ["zoom"])).
Proof.
  exact (mnemonicToPrivateKey_ignores_checksum abbey24 "abbey" "zoom" eq_refl
           abbey24_clean eq_refl eq_refl).
Defined.

Lemma mnemonicToPrivateKey_known (mnemonic : string) :
  List.length (split_ws (trim mnemonic)) = 25%nat ->
  Forall (fun w => In w WORDLIST) (slice (split_ws (trim mnemonic)) 0 24) ->
  mnemonicToPrivateKey mnemonic
  = ok (flat_map (decoded_group (slice (split_ws (trim mnemonic)) 0 24)) (seq 0 8)).
Proof.
  intros L Hall. unfold mnemonicToPrivateKey; cbv zeta.
  rewrite L. cbn [Nat.eqb negb].
  set (dw := slice (split_ws (trim mnemonic)) 0 24) in *.
  assert (Ldw : List.length dw = 24%nat).
  { unfold dw. rewrite slice_length, L. reflexivity. }
  rewrite (for_each_app 3 _ (decoded_group dw) 8); [reflexivity|].
  intros k s Hk. unfold decoded_group; cbv zeta.
  apply mnemonicToPrivateKey_body_ok; apply found_index_ok; try assumption; lia.
Qed.

(** X8. The errors of [mnemonicToPrivateKey]. A mnemonic that does not have
    exactly 25 words fails with 'Mnemonic must have exactly 25 words'. With
    25 words the only possible error is 'Word not found in wordlist', and it
    names a word among the first 24 that is not in the word list; with the
    first 24 words in the list the result is 32 bytes. *)
Theorem mnemonicToPrivateKey_errors (mnemonic : string) :
  let words := split_ws (trim mnemonic) in
  (List.length words <> 25%nat -> mnemonicToPrivateKey mnemonic = throw InvalidLength)
  /\ (List.length words = 25%nat ->
      (exists seed, mnemonicToPrivateKey mnemonic = ok seed /\ List.length seed = 32%nat)
      \/ (exists w, In w (slice words 0 24) /\ ~ In w WORDLIST
                    /\ mnemonicToPrivateKey mnemonic = throw (UnknownWord w))).
Proof.
  cbv zeta. split.
  - intros H. unfold mnemonicToPrivateKey; cbv zeta.
    apply Nat.eqb_neq in H. now rewrite H.
  - intros L.
    destruct (Forall_Exists_dec (fun w => In w WORDLIST)
                (fun w => in_dec string_dec w WORDLIST)
                (slice (split_ws (trim mnemonic)) 0 24)) as [Hall|Hex].
    + left. rewrite (mnemonicToPrivateKey_known mnemonic L Hall).
      eexists. split; [reflexivity|].
      now rewrite (flat_map_length_const _ 4).
    + right. now apply mnemonicToPrivateKey_unknown_word.
Qed.

Lemma mnemonicToPrivateKey_errors_witness :
  mnemonicToPrivateKey mnemonic_24_words = throw InvalidLength.
Proof.
  apply (mnemonicToPrivateKey_errors mnemonic_24_words).
  intros H. vm_compute in H. discriminate H.
Defined.

(** ** Wallets: how the entry points agree *)

Lemma data_words_clean (seed : list byte) :
  Forall (fun w => clean_word w = true) (data_words seed).
Proof.
  apply Forall_forall. intros w Hw. now apply In_WORDLIST_clean, (data_words_In seed).
Qed.

Lemma decode_generated (seed : list byte) (cs : string) :
  List.length seed = 32%nat -> clean_word cs = true ->
  mnemonicToPrivateKey (String.concat " " (data_words seed ++ [cs])) = ok seed.
Proof.
  intros L Hcs. unfold mnemonicToPrivateKey; cbv zeta.
  rewrite words_of_clean_mnemonic by (try apply data_words_clean; assumption).
  rewrite length_app, data_words_length. cbn [List.length Nat.add Nat.eqb negb].
  rewrite <- (data_words_length seed) at 1. rewrite slice_0_app.
  rewrite (for_each_app 3 _ (group seed) 8)
    by (intros; apply mnemonicToPrivateKey_body_data; lia).
  cbn [app]. now rewrite groups_concat.
Qed.

Lemma bytesToScalar_length (privateKeyBytes : list byte) (scalar : Z) :
  bytesToScalar privateKeyBytes = ok scalar -> (32 <= List.length privateKeyBytes)%nat.
Proof.
  intros H. destruct (Nat.le_gt_cases 32 (List.length privateKeyBytes)) as [|Hs];
    [assumption|].
  rewrite (bytesToScalar_short _ Hs) in H. now apply eq_sym, ok_not_throw in H.
Qed.

Section Agreement.

Variable Point : Type.
Variable BASE_multiply : Z -> Result Point.
Variable toBytes : Point -> list byte.
Variable keccak256 : list byte -> string.
Variable generateRandomBytes : nat -> Result (list byte).

(** X9. Importing the mnemonic of a 32-byte seed and importing the seed's
    hexadecimal rendering give the same outcome: the same wallet, field by
    field, or the same error of the base-point multiplication. *)
Theorem import_paths_agree (seed : list byte) :
  List.length seed = 32%nat ->
  exists m,
    privateKeyToMnemonic seed = ok m
    /\ importFromMnemonic Point BASE_multiply toBytes keccak256 m
       = importFromPrivateKey Point BASE_multiply toBytes keccak256 (bytesToHex seed).
Proof.
  intros L.
  destruct (generated_mnemonic seed ltac:(lia)) as (cs & Hcs & Hin & Hm & _).
  assert (Hclean : clean_word cs = true)
    by now apply In_WORDLIST_clean, (data_words_In seed).
  eexists. split; [exact Hm|].
  unfold importFromMnemonic, importFromPrivateKey; cbv zeta.
  rewrite (verifyMnemonicChecksum_clean _ _ (data_words_length seed)
             (data_words_clean seed) Hclean), Hcs, String.eqb_refl.
  cbn [negb]. rewrite (decode_generated seed cs L Hclean), hexToBytes_rendered.
  cbn [bind ok].
  destruct (generateEd25519Keypair Point BASE_multiply toBytes seed false)
    as [e|keypair]; [reflexivity|]. cbn [bind].
  destruct (publicKeyToAddress keccak256 (kp_publicKey keypair)) as [e|addr];
    [reflexivity|]. cbn [bind]. rewrite Hm. reflexivity.
Qed.

(** X10. When a draw before the 1000th is the first whose scalar is below the
    curve order, [generateWallet] returns exactly what [importFromPrivateKey]
    returns on the hexadecimal rendering of that draw: the scalar is used as
    it is, none of the earlier draws leaves a trace. *)
Theorem generateWallet_first_accepted (k : nat) (privateKeyBytes : list byte)
    (scalar : Z) :
  (k < 999)%nat ->
  (forall i, (i < k)%nat -> rejected_draw generateRandomBytes i) ->
  accepted_draw generateRandomBytes k privateKeyBytes scalar ->
  generateWallet Point BASE_multiply toBytes keccak256 generateRandomBytes
  = importFromPrivateKey Point BASE_multiply toBytes keccak256
      (bytesToHex privateKeyBytes).
Proof.
  intros Hk Hrej Hacc. pose proof Hacc as (Hg & Hs & Hv).
  pose proof (bytesToScalar_length _ _ Hs) as L.
  unfold generateWallet. change 0 with (Z.of_nat 0).
  rewrite (draw_loop_accepts generateRandomBytes k 0 privateKeyBytes scalar)
    by (try assumption; try lia; intros; apply Hrej; lia).
  cbn [bind ok Nat.add].
  destruct (Z.leb_spec 1000 (Z.of_nat k + 1)); [lia|].
  destruct (generated_mnemonic privateKeyBytes L) as (cs & _ & _ & Hm & _).
  rewrite Hm. cbn [bind ok].
  unfold importFromPrivateKey; cbv zeta. rewrite hexToBytes_rendered.
  unfold generateEd25519Keypair. rewrite Hs. cbn [bind ok].
  destruct (Z.leb_spec curveOrder scalar); [lia|]. cbn [andb].
  destruct (BASE_multiply scalar) as [e|P]; [reflexivity|]. cbn [bind ok kp_publicKey].
  destruct (publicKeyToAddress keccak256 (toBytes P)) as [e|addr]; [reflexivity|].
  cbn [bind]. rewrite Hm. reflexivity.
Qed.

(** X11. When the first 1000 draws all have a scalar at or above the curve
    order, [generateWallet] fails with 'Failed to generate valid scalar after
    1000 attempts' and makes no further draw; a draw that throws makes
    [generateWallet] fail with that error. *)
Theorem generateWallet_exhausted :
  ((forall i, (i < 1000)%nat -> rejected_draw generateRandomBytes i) ->
     generateWallet Point BASE_multiply toBytes keccak256 generateRandomBytes
     = throw EntropyExhausted)
  /\ (forall e, generateRandomBytes 0%nat = throw e ->
        generateWallet Point BASE_multiply toBytes keccak256 generateRandomBytes
        = throw e).
Proof.
  split.
  - intros Hrej. destruct (Hrej 999%nat ltac:(lia)) as (pk & sc & Hg & Hs & _).
    unfold generateWallet. change 0 with (Z.of_nat 0).
    rewrite (draw_loop_last generateRandomBytes 999 0 pk sc)
      by (try assumption; try reflexivity; intros; apply Hrej; lia).
    reflexivity.
  - intros e He. unfold generateWallet.
    rewrite draw_loop_step. change (Z.to_nat 0) with 0%nat. now rewrite He.
Qed.

(** X12. With [ensureValid] the scalar handed to the base-point multiplication
    is always below the curve order: a scalar in range is passed as it is, a
    scalar at or above the order is replaced by its remainder. *)
Theorem generateEd25519Keypair_ensureValid (privateKeyBytes : list byte) :
  (32 <= List.length privateKeyBytes)%nat ->
  let scalar := le_value (firstn 32 privateKeyBytes) in
  0 <= scalar mod curveOrder < curveOrder
  /\ (scalar < curveOrder -> scalar mod curveOrder = scalar)
  /\ generateEd25519Keypair Point BASE_multiply toBytes privateKeyBytes true
     = (let* point := BASE_multiply (scalar mod curveOrder) in
        ok {| kp_publicKey := toBytes point; kp_privateKey := privateKeyBytes |}).
Proof.
  intros L. cbv zeta.
  pose proof (bytesToScalar_le_value privateKeyBytes L) as Hs.
  pose proof (le_value_range (firstn 32 privateKeyBytes)) as Hr.
  set (scalar := le_value (firstn 32 privateKeyBytes)) in *.
  assert (Hc : 0 < curveOrder) by (vm_compute; reflexivity).
  split; [apply Z.mod_pos_bound; assumption|].
  split; [intros; apply Z.mod_small; lia|].
  unfold generateEd25519Keypair. rewrite Hs. cbn [bind ok andb].
  destruct (Z.leb_spec curveOrder scalar).
  - now rewrite Z.rem_mod_nonneg by lia.
  - now rewrite Z.mod_small by lia.
Qed.

End Agreement.

Lemma import_paths_agree_witness :
  List.length one_seed = 32%nat
  /\ exists m,
       privateKeyToMnemonic one_seed = ok m
       /\ importFromMnemonic Stub.Point Stub.BASE_multiply Stub.toBytes Stub.keccak256 m
          = importFromPrivateKey Stub.Point Stub.BASE_multiply Stub.toBytes
              Stub.keccak256 (bytesToHex one_seed).
Proof.
  split; [reflexivity|].
  exact (import_paths_agree Stub.Point Stub.BASE_multiply Stub.toBytes Stub.keccak256
           one_seed eq_refl).
Defined.

Lemma one_rng_accepted : accepted_draw one_rng 0 one_seed 1.
Proof. split; [reflexivity|split; [vm_compute; reflexivity|vm_compute; reflexivity]]. Qed.

Lemma generateWallet_first_accepted_witness :
  generateWallet Stub.Point Stub.BASE_multiply Stub.toBytes Stub.keccak256 one_rng
  = importFromPrivateKey Stub.Point Stub.BASE_multiply Stub.toBytes Stub.keccak256
      (bytesToHex one_seed).
Proof.
  apply (generateWallet_first_accepted Stub.Point Stub.BASE_multiply Stub.toBytes
           Stub.keccak256 one_rng 0 one_seed 1).
  - lia.
  - intros i Hi. lia.
  - exact one_rng_accepted.
Defined.

Lemma ff_rng_rejected (i : nat) : rejected_draw ff_rng i.
Proof.
  exists (repeat xff 32), (2 ^ 256 - 1).
  split; [reflexivity|split; [vm_compute; reflexivity|vm_compute; discriminate]].
Qed.

Lemma generateWallet_exhausted_witness :
  generateWallet Stub.Point Stub.BASE_multiply Stub.toBytes Stub.keccak256 ff_rng
  = throw EntropyExhausted.
Proof.
  apply (proj1 (generateWallet_exhausted Stub.Point Stub.BASE_multiply Stub.toBytes
                  Stub.keccak256 ff_rng)).
  intros i _. apply ff_rng_rejected.
Defined.

Lemma generateEd25519Keypair_ensureValid_witness :
  (32 <= List.length (repeat xff 32))%nat
  /\ 0 <= le_value (firstn 32 (repeat xff 32)) mod curveOrder < curveOrder.
Proof.
  split; [vm_compute; lia|].
  apply (generateEd25519Keypair_ensureValid Stub.Point Stub.BASE_multiply Stub.toBytes
           (repeat xff 32)).
  vm_compute. lia.
Defined.

(** ** Block-based Base58: the characters *)

Lemma base58_digits_stop (num j resultStart : Z) (result : list string) :
  num <= 0 -> base58_digits num j resultStart result = result.
Proof.
  intros H. funelim (base58_digits num j resultStart result); [lia|reflexivity].
Qed.

Lemma base58_digits_step (num j resultStart : Z) (result : list string) :
  0 < num ->
  base58_digits num j resultStart result
  = base58_digits (Z.quot num 58) (j - 1) resultStart
      (array_set result (resultStart + j) (alphabet_at (Z.rem num 58))).
Proof.
  intros H. funelim (base58_digits num j resultStart result); [|lia].
  reflexivity.
Qed.

Lemma list_update_middle {A} (a b : list A) (x v : A) :
  list_update (a ++ x :: b) (List.length a) v = a ++ v :: b.
Proof. induction a as [|y a IH]; cbn; [reflexivity|now rewrite IH]. Qed.

Lemma array_set_middle (a b : list string) (x v : string) :
  array_set (a ++ x :: b) (Z.of_nat (List.length a)) v = a ++ v :: b.
Proof.
  unfold array_set. destruct (Z.ltb_spec (Z.of_nat (List.length a)) 0); [lia|].
  rewrite length_app. cbn [List.length].
  destruct (Z.ltb_spec (Z.of_nat (List.length a))
              (Z.of_nat (List.length a + S (List.length b)))); [|lia].
  rewrite Nat2Z.id. apply list_update_middle.
Qed.

Lemma digit_slots_zero (n : nat) : digit_slots n 0 = repeat "1" n.
Proof.
  induction n as [|n IH]; [reflexivity|].
  cbn [digit_slots]. change (0 / 58) with 0. rewrite IH.
  change (alphabet_at (0 mod 58)) with "1".
  change ["1"] with (repeat "1" 1). rewrite <- repeat_app.
  f_equal. lia.
Qed.

Lemma digit_slots_length (n : nat) (num : Z) : List.length (digit_slots n num) = n.
Proof.
  revert num. induction n as [|n IH]; intros num; [reflexivity|].
  cbn [digit_slots]. rewrite length_app, IH. cbn. lia.
Qed.

(** The digit loop writes the digits of [num] into the [n] slots that end at
    its starting position, when [num] has at most [n] digits. *)
Lemma base58_digits_writes (n : nat) (num : Z) (pre post : list string) :
  0 <= num < 58 ^ Z.of_nat n ->
  base58_digits num (Z.of_nat n - 1) (Z.of_nat (List.length pre))
    (pre ++ repeat "1" n ++ post)
  = pre ++ digit_slots n num ++ post.
Proof.
  revert num post. induction n as [|n IH]; intros num post Hn.
  - cbn in Hn. rewrite base58_digits_stop by lia. reflexivity.
  - destruct (Z.eq_dec num 0) as [->|Hnz].
    + rewrite base58_digits_stop by lia. now rewrite digit_slots_zero.
    + rewrite base58_digits_step by lia.
      rewrite Z.rem_mod_nonneg, Z.quot_div_nonneg by lia.
      change (repeat "1" (S n)) with ("1" :: repeat "1" n).
      rewrite repeat_cons, <- app_assoc. cbn [app].
      rewrite (app_assoc pre (repeat "1" n)).
      replace (Z.of_nat (List.length pre) + (Z.of_nat (S n) - 1))
        with (Z.of_nat (List.length (pre ++ repeat "1" n)))
        by (rewrite length_app, repeat_length; lia).
      rewrite array_set_middle, <- app_assoc.
      replace (Z.of_nat (S n) - 1 - 1) with (Z.of_nat n - 1) by lia.
      rewrite IH.
      * cbn [digit_slots]. rewrite <- !app_assoc. reflexivity.
      * rewrite Nat2Z.inj_succ, Z.pow_succ_r in Hn by lia.
        split; [apply Z.div_pos; lia|apply Z.div_lt_upper_bound; lia].
Qed.

Lemma be_value_snoc (l : list byte) (b : byte) :
  be_value (l ++ [b]) = be_value l * 256 + byteZ b.
Proof. unfold be_value. now rewrite fold_left_app. Qed.

Lemma be_value_range (l : list byte) :
  0 <= be_value l < 256 ^ Z.of_nat (List.length l).
Proof.
  induction l as [|b l IH] using rev_ind.
  - cbn. lia.
  - rewrite be_value_snoc, length_app. cbn [List.length].
    replace (Z.of_nat (List.length l + 1)) with (Z.succ (Z.of_nat (List.length l))) by lia.
    rewrite Z.pow_succ_r by lia. pose proof (byteZ_range b). lia.
Qed.

(** Appending a byte below a shifted number adds it. *)
Lemma lor_shiftl_8 (num : Z) (b : byte) :
  0 <= num -> Z.lor (Z.shiftl num 8) (byteZ b) = num * 256 + byteZ b.
Proof.
  intros H. rewrite Z.lor_comm.
  rewrite lor_shiftl_disjoint by (pose proof (byteZ_range b);
                                  change (2 ^ 8) with 256; lia).
  change (2 ^ 8) with 256. lia.
Qed.

Lemma skipn_nth_cons {A} (l : list A) (k : nat) (x : A) :
  nth_error l k = Some x -> skipn k l = x :: skipn (S k) l.
Proof.
  revert k. induction l as [|y l IH]; intros [|k] H; try discriminate.
  - injection H as ->. reflexivity.
  - cbn [skipn]. now apply IH.
Qed.

Lemma slice_cons {A} (l : list A) (lo n : nat) (x : A) :
  nth_error l lo = Some x ->
  slice l lo (lo + S n) = x :: slice l (S lo) (S lo + n).
Proof.
  intros H. unfold slice. rewrite (skipn_nth_cons _ _ _ H).
  replace (lo + S n - lo)%nat with (S n) by lia.
  replace (S lo + n - S lo)%nat with n by lia. reflexivity.
Qed.

Lemma slice_empty {A} (l : list A) (lo : nat) : slice l lo (lo + 0) = [].
Proof. unfold slice. now replace (lo + 0 - lo)%nat with 0%nat by lia. Qed.

Lemma uint8Be_loop_value (buffer : list byte) (offset n a : nat) (num : Z) :
  0 <= num -> (offset + a + n <= List.length buffer)%nat ->
  uint8Be_loop buffer (Z.of_nat offset) (map (fun k => 1 * Z.of_nat k) (seq a n)) num
  = ok (fold_left (fun acc b => acc * 256 + byteZ b)
          (slice buffer (offset + a) (offset + a + n)) num).
Proof.
  revert a num. induction n as [|n IH]; intros a num Hnum L.
  - rewrite slice_empty. reflexivity.
  - cbn [seq map uint8Be_loop]. unfold at_index.
    destruct (Z.ltb_spec (Z.of_nat offset + 1 * Z.of_nat a) 0); [lia|].
    replace (Z.to_nat (Z.of_nat offset + 1 * Z.of_nat a)) with (offset + a)%nat by lia.
    destruct (nth_error buffer (offset + a)) as [b|] eqn:E.
    + rewrite (slice_cons _ _ _ _ E). cbn [fold_left].
      rewrite lor_shiftl_8 by assumption.
      replace (S (offset + a)) with (offset + S a)%nat by lia.
      apply IH; [pose proof (byteZ_range b); lia|lia].
    + apply nth_error_None in E. lia.
Qed.

Lemma uint8BeToBigInt_value (buffer : list byte) (offset size : nat) :
  (1 <= size <= 8)%nat -> (offset + size <= List.length buffer)%nat ->
  uint8BeToBigInt buffer (Z.of_nat offset) (Z.of_nat size)
  = ok (be_value (slice buffer offset (offset + size))).
Proof.
  intros Hs L. unfold uint8BeToBigInt.
  destruct (Z.ltb_spec (Z.of_nat size) 1); [lia|].
  destruct (Z.ltb_spec 8 (Z.of_nat size)); [lia|]. cbn [orb].
  unfold steps. rewrite Nat2Z.id.
  rewrite (uint8Be_loop_value buffer offset size 0 0) by lia.
  now rewrite Nat.add_0_r.
Qed.

(** A block of [size] bytes has no more Base58 digits than its slots. *)
Lemma block_fits (size : nat) :
  (1 <= size <= 8)%nat ->
  256 ^ Z.of_nat size <= 58 ^ encoded_block_size (Z.of_nat size)
  /\ 0 < encoded_block_size (Z.of_nat size).
Proof.
  intros H.
  destruct size as [|[|[|[|[|[|[|[|[|?]]]]]]]]]; try lia;
    (vm_compute; split; [discriminate|reflexivity]).
Qed.

Lemma encode_block_writes (buffer : list byte) (start size : nat)
    (pre post : list string) :
  (1 <= size <= 8)%nat -> (start + size <= List.length buffer)%nat ->
  encode_block buffer (Z.of_nat start) (Z.of_nat (List.length pre)) (Z.of_nat size)
    (pre ++ repeat "1" (Z.to_nat (encoded_block_size (Z.of_nat size))) ++ post)
  = ok (pre ++ block_slots buffer start size ++ post).
Proof.
  intros Hs L. unfold encode_block, block_slots.
  rewrite uint8BeToBigInt_value by assumption. cbn [bind ok]. cbv zeta.
  destruct (block_fits size Hs) as [Hfit Hpos].
  set (n := Z.to_nat (encoded_block_size (Z.of_nat size))).
  replace (encoded_block_size (Z.of_nat size)) with (Z.of_nat n) in * by (unfold n; lia).
  rewrite base58_digits_writes; [reflexivity|].
  pose proof (be_value_range (slice buffer start (start + size))) as R.
  rewrite slice_length in R.
  replace (Nat.min (start + size - start) (List.length buffer - start)) with size in R
    by lia.
  lia.
Qed.

Lemma encode_block_full (buffer : list byte) (start : nat) (pre post : list string) :
  (start + 8 <= List.length buffer)%nat ->
  encode_block buffer (Z.of_nat start) (Z.of_nat (List.length pre)) 8
    (pre ++ repeat "1" 11 ++ post)
  = ok (pre ++ block_slots buffer start 8 ++ post).
Proof.
  intros L. exact (encode_block_writes buffer start 8 pre post ltac:(lia) L).
Qed.

Lemma flat_map_seq_S {A} (f : nat -> list A) (k : nat) :
  flat_map f (seq 0 (S k)) = flat_map f (seq 0 k) ++ f k.
Proof. rewrite seq_S, flat_map_app. cbn [flat_map Nat.add]. now rewrite app_nil_r. Qed.

Lemma block_slots_length (buffer : list byte) (start size : nat) :
  List.length (block_slots buffer start size)
  = Z.to_nat (encoded_block_size (Z.of_nat size)).
Proof. unfold block_slots. apply digit_slots_length. Qed.

Lemma base58Encode_all_slots (buffer : list byte) :
  base58Encode buffer = ok (String.concat "" (all_slots buffer)).
Proof.
  unfold base58Encode, all_slots; cbv zeta.
  set (len := List.length buffer).
  destruct (Z.eqb_spec (Z.of_nat len) 0) as [E|Hne].
  { replace len with 0%nat by lia. reflexivity. }
  unfold FULL_BLOCK_SIZE, FULL_ENCODED_BLOCK_SIZE.
  rewrite Z.rem_mod_nonneg by lia.
  change 8 with (Z.of_nat 8). rewrite <- Nat2Z.inj_div, <- Nat2Z.inj_mod.
  rewrite Nat2Z.id. change (Z.of_nat 8) with 8.
  pose proof (Nat.div_mod_eq len 8) as Hd.
  pose proof (Nat.mod_upper_bound len 8 ltac:(lia)) as Hm.
  set (q := (len / 8)%nat) in *. set (r := (len mod 8)%nat) in *.
  pose proof (encoded_block_size_range (Z.of_nat r) ltac:(lia)) as He.
  set (e := Z.to_nat (encoded_block_size (Z.of_nat r))).
  replace (Z.to_nat (Z.of_nat q * 11 + encoded_block_size (Z.of_nat r)))
    with (11 * q + e)%nat by (unfold e; lia).
  unfold steps.
  destruct (for_each_steps_ind
              (fun k result =>
                 result = flat_map (fun k => block_slots buffer (8 * k) 8) (seq 0 k)
                          ++ repeat "1" (11 * (q - k) + e))
              1
              (fun i result => encode_block buffer (i * 8) (i * 11) 8 result)
              q 0) with (s := repeat "1" (11 * q + e)) as (r1 & E1 & ->).
  - intros k s Hk ->.
    eexists. split; [|reflexivity].
    replace (11 * (q - k) + e)%nat with (11 + (11 * (q - S k) + e))%nat by lia.
    rewrite repeat_app.
    replace (1 * Z.of_nat k * 8) with (Z.of_nat (8 * k)) by lia.
    replace (1 * Z.of_nat k * 11)
      with (Z.of_nat (List.length
                        (flat_map (fun k => block_slots buffer (8 * k) 8) (seq 0 k))))
      by (rewrite (flat_map_length_const _ 11)
            by (intros; apply block_slots_length); lia).
    rewrite encode_block_full by lia.
    rewrite flat_map_seq_S, <- app_assoc. reflexivity.
  - cbn [seq flat_map app]. f_equal. lia.
  - rewrite E1. cbn [bind ok Nat.add]. rewrite Nat.sub_diag, Nat.mul_0_r. cbn [Nat.add].
    unfold e in *. clear e E1. clearbody r.
    destruct (Z.ltb_spec 0 (Z.of_nat r)) as [Hpos|Hz].
    + replace (Z.of_nat q * 8) with (Z.of_nat (8 * q)) by lia.
      replace (Z.of_nat q * 11)
        with (Z.of_nat (List.length
                          (flat_map (fun k => block_slots buffer (8 * k) 8) (seq 0 q))))
        by (rewrite (flat_map_length_const _ 11)
              by (intros; apply block_slots_length); lia).
      rewrite <- (app_nil_r (repeat "1" (Z.to_nat (encoded_block_size (Z.of_nat r))))).
      rewrite encode_block_writes by lia.
      cbn [bind ok]. now rewrite app_nil_r.
    + cbn [bind ok]. assert (r = 0%nat) by lia. subst r. reflexivity.
Qed.

Lemma digit_of_alphabet_at (d : Z) : 0 <= d < 58 -> digit_of (alphabet_at d) = d.
Proof.
  intros H. rewrite <- (Z2Nat.id d) by lia.
  assert (Hn : (Z.to_nat d < 58)%nat) by lia.
  remember (Z.to_nat d) as n eqn:En. clear En H d.
  do 58 (destruct n as [|n]; [vm_compute; reflexivity|]). lia.
Qed.

Lemma slots_value_snoc (l : list string) (c : string) :
  slots_value (l ++ [c]) = slots_value l * 58 + digit_of c.
Proof. unfold slots_value. now rewrite fold_left_app. Qed.

Lemma slots_value_digit_slots (n : nat) (num : Z) :
  0 <= num < 58 ^ Z.of_nat n -> slots_value (digit_slots n num) = num.
Proof.
  revert num. induction n as [|n IH]; intros num H.
  - cbn in *. lia.
  - cbn [digit_slots]. rewrite slots_value_snoc.
    rewrite Nat2Z.inj_succ, Z.pow_succ_r in H by lia.
    rewrite IH by (split; [apply Z.div_pos; lia|apply Z.div_lt_upper_bound; lia]).
    rewrite digit_of_alphabet_at by (apply Z.mod_pos_bound; lia).
    pose proof (Z.div_mod num 58 ltac:(lia)). lia.
Qed.

Lemma block_slots_value (buffer : list byte) (start size : nat) :
  (1 <= size <= 8)%nat -> (start + size <= List.length buffer)%nat ->
  slots_value (block_slots buffer start size)
  = be_value (slice buffer start (start + size)).
Proof.
  intros Hs L. unfold block_slots. apply slots_value_digit_slots.
  destruct (block_fits size Hs) as [Hfit Hpos].
  rewrite Z2Nat.id by lia.
  pose proof (be_value_range (slice buffer start (start + size))) as R.
  rewrite slice_length in R.
  replace (Nat.min (start + size - start) (List.length buffer - start)) with size in R
    by lia.
  lia.
Qed.

(** X13. The characters of [base58Encode]: each full block of 8 bytes gives
    11 characters and the last block of [r] bytes gives
    [ENCODED_BLOCK_SIZES[r]]; the characters of a block are the Base58 digits
    of the block read as a big-endian number, most significant first, with
    leading '1' for the missing digits, so that the block's number can be
    read back from them. *)
Theorem base58Encode_blocks (buffer : list byte) :
  base58Encode buffer = ok (String.concat "" (all_slots buffer))
  /\ forall start size,
       (1 <= size <= 8)%nat -> (start + size <= List.length buffer)%nat ->
       List.length (block_slots buffer start size)
       = Z.to_nat (nth size ENCODED_BLOCK_SIZES 0)
       /\ slots_value (block_slots buffer start size)
          = be_value (slice buffer start (start + size)).
Proof.
  split; [apply base58Encode_all_slots|].
  intros start size Hs L. split; [|now apply block_slots_value].
  rewrite block_slots_length. unfold encoded_block_size. now rewrite Nat2Z.id.
Qed.

Lemma base58Encode_blocks_witness :
  base58Encode zero_seed = ok (String.concat "" (all_slots zero_seed))
  /\ slots_value (block_slots zero_seed 0 8) = be_value (slice zero_seed 0 (0 + 8)).
Proof.
  destruct (base58Encode_blocks zero_seed) as [H1 H2].
  split; [exact H1|].
  apply (H2 0%nat 8%nat); vm_compute; lia.
Defined.

(** ** Block-based Base58: blocks are independent *)

Lemma concat_empty_app (l1 l2 : list string) :
  String.concat "" (l1 ++ l2) = (String.concat "" l1 ++ String.concat "" l2)%string.
Proof.
  induction l1 as [|x l1 IH]; [reflexivity|].
  cbn [app]. rewrite !concat_empty_cons, IH. now rewrite append_assoc.
Qed.

Lemma slice_app_l {A} (a b : list A) (lo hi : nat) :
  (hi <= List.length a)%nat -> slice (a ++ b) lo hi = slice a lo hi.
Proof.
  intros H. unfold slice. rewrite skipn_app, firstn_app, length_skipn.
  replace (hi - lo - (List.length a - lo))%nat with 0%nat by lia.
  cbn [firstn]. now rewrite app_nil_r.
Qed.

Lemma slice_app_r {A} (a b : list A) (lo hi : nat) :
  slice (a ++ b) (List.length a + lo) (List.length a + hi) = slice b lo hi.
Proof.
  unfold slice. rewrite skipn_app.
  rewrite skipn_all2 by lia. cbn [app].
  replace (List.length a + lo - List.length a)%nat with lo by lia.
  now replace (List.length a + hi - (List.length a + lo))%nat with (hi - lo)%nat by lia.
Qed.

Lemma flat_map_seq_shift {A} (f : nat -> list A) (m n : nat) :
  flat_map f (seq m n) = flat_map (fun k => f (m + k)%nat) (seq 0 n).
Proof.
  revert f m. induction n as [|n IH]; intros f m; [reflexivity|].
  cbn [seq flat_map]. rewrite Nat.add_0_r. f_equal.
  rewrite (IH f (S m)), (IH (fun k => f (m + k)%nat) 1%nat).
  apply flat_map_ext_In. intros k _. f_equal. lia.
Qed.

Lemma all_slots_app (a b : list byte) (m : nat) :
  List.length a = (8 * m)%nat -> all_slots (a ++ b) = all_slots a ++ all_slots b.
Proof.
  intros La. unfold all_slots; cbv zeta. rewrite length_app, La.
  assert (Eq1 : ((8 * m + List.length b) / 8 = m + List.length b / 8)%nat).
  { rewrite (Nat.mul_comm 8 m), Nat.div_add_l by lia. reflexivity. }
  assert (Er1 : ((8 * m + List.length b) mod 8 = List.length b mod 8)%nat).
  { rewrite Nat.add_comm, (Nat.mul_comm 8 m). apply Nat.Div0.mod_add. }
  assert (Eq2 : (8 * m / 8 = m)%nat) by (rewrite Nat.mul_comm; apply Nat.div_mul; lia).
  assert (Er2 : ((8 * m) mod 8 = 0)%nat) by (rewrite Nat.mul_comm; apply Nat.Div0.mod_mul).
  rewrite Eq1, Er1, Eq2, Er2.
  set (qb := (List.length b / 8)%nat). set (rb := (List.length b mod 8)%nat).
  pose proof (Nat.div_mod_eq (List.length b) 8) as Hd. fold qb rb in Hd.
  rewrite seq_app, flat_map_app, <- !app_assoc. f_equal.
  - apply flat_map_ext_In. intros k Hk. apply in_seq in Hk.
    unfold block_slots. rewrite slice_app_l by lia. reflexivity.
  - change (block_slots a (8 * m) 0) with (@nil string). cbn [app]. f_equal.
    + cbn [Nat.add]. rewrite flat_map_seq_shift.
      apply flat_map_ext_In. intros k Hk. unfold block_slots.
      replace (8 * (m + k))%nat with (List.length a + 8 * k)%nat by lia.
      rewrite <- Nat.add_assoc, slice_app_r. reflexivity.
    + unfold block_slots.
      replace (8 * (m + qb))%nat with (List.length a + 8 * qb)%nat by lia.
      rewrite <- Nat.add_assoc, slice_app_r. reflexivity.
Qed.

(** X14. Blocks are encoded independently: when the first part of a buffer
    is a whole number of 8-byte blocks, the encoding of the buffer is the
    encoding of that part followed by the encoding of the rest. *)
Theorem base58Encode_app (a b : list byte) :
  (List.length a mod 8 = 0)%nat ->
  exists sa sb,
    base58Encode a = ok sa /\ base58Encode b = ok sb
    /\ base58Encode (a ++ b) = ok (sa ++ sb)%string.
Proof.
  intros H.
  exists (String.concat "" (all_slots a)), (String.concat "" (all_slots b)).
  rewrite !base58Encode_all_slots.
  repeat split.
  rewrite (all_slots_app a b (List.length a / 8)), concat_empty_app; [reflexivity|].
  pose proof (Nat.div_mod_eq (List.length a) 8). lia.
Qed.

Lemma base58Encode_app_witness :
  exists sa sb,
    base58Encode (repeat xff 8) = ok sa /\ base58Encode [x01] = ok sb
    /\ base58Encode (repeat xff 8 ++ [x01]) = ok (sa ++ sb)%string.
Proof. apply (base58Encode_app (repeat xff 8) [x01]). reflexivity. Defined.

(** ** Block-based Base58: distinct buffers, distinct strings *)

Lemma app_inv_length {A} (x1 x2 y1 y2 : list A) :
  List.length x1 = List.length x2 -> x1 ++ y1 = x2 ++ y2 -> x1 = x2 /\ y1 = y2.
Proof.
  revert x2. induction x1 as [|a x1 IH]; intros [|b x2] L H; try discriminate.
  - now split.
  - cbn [app] in H. injection H as -> H. cbn [List.length] in L.
    destruct (IH x2 ltac:(lia) H) as [-> ->]. now split.
Qed.

Lemma concat_slots_inj (l1 l2 : list string) :
  Forall (fun c => String.length c = 1%nat) l1 ->
  Forall (fun c => String.length c = 1%nat) l2 ->
  String.concat "" l1 = String.concat "" l2 -> l1 = l2.
Proof.
  intros H1. revert l2. induction H1 as [|x l1 Hx H1 IH]; intros l2 H2 E.
  - destruct H2 as [|y l2 Hy H2]; [reflexivity|].
    rewrite concat_empty_cons in E. destruct y; discriminate.
  - destruct H2 as [|y l2 Hy H2].
    + rewrite concat_empty_cons in E. destruct x; discriminate.
    + rewrite !concat_empty_cons in E.
      destruct x as [|c [|? ?]]; try discriminate.
      destruct y as [|d [|? ?]]; try discriminate.
      cbn [String.append] in E. injection E as -> E.
      f_equal. now apply IH.
Qed.

Lemma digit_slots_single (n : nat) (num : Z) :
  Forall (fun c => String.length c = 1%nat) (digit_slots n num).
Proof.
  revert num. induction n as [|n IH]; intros num; [constructor|].
  cbn [digit_slots]. apply Forall_app. split; [apply IH|].
  constructor; [|constructor]. apply alphabet_at_length, Z.mod_pos_bound. lia.
Qed.

Lemma all_slots_single (buffer : list byte) :
  Forall (fun c => String.length c = 1%nat) (all_slots buffer).
Proof.
  unfold all_slots; cbv zeta. apply Forall_app. split.
  - apply Forall_flat_map, Forall_forall. intros k _. apply digit_slots_single.
  - apply digit_slots_single.
Qed.

Lemma be_value_inj (l1 l2 : list byte) :
  List.length l1 = List.length l2 -> be_value l1 = be_value l2 -> l1 = l2.
Proof.
  revert l2. induction l1 as [|b1 l1 IH] using rev_ind; intros l2 L E.
  - destruct l2; [reflexivity|discriminate].
  - destruct (exists_last (l := l2)) as (l2' & b2 & ->).
    { intros ->. rewrite length_app in L. cbn in L. lia. }
    rewrite !be_value_snoc in E. rewrite !length_app in L. cbn [List.length] in L.
    pose proof (byteZ_range b1). pose proof (byteZ_range b2).
    assert (be_value l1 = be_value l2' /\ byteZ b1 = byteZ b2) as [E1 E2] by lia.
    rewrite (IH l2' ltac:(lia) E1), (byteZ_inj _ _ E2). reflexivity.
Qed.

Lemma firstn_add_skipn {A} (l : list A) (a b : nat) :
  firstn (a + b) l = firstn a l ++ firstn b (skipn a l).
Proof.
  revert l. induction a as [|a IH]; intros l; [reflexivity|].
  destruct l as [|x l]; [now rewrite !firstn_nil|].
  cbn [Nat.add firstn skipn app]. now rewrite IH.
Qed.

Lemma blocks_firstn {A} (l : list A) (q : nat) :
  flat_map (fun k => slice l (8 * k) (8 * k + 8)) (seq 0 q) = firstn (8 * q) l.
Proof.
  induction q as [|q IH]; [reflexivity|].
  rewrite flat_map_seq_S, IH. unfold slice.
  replace (8 * q + 8 - 8 * q)%nat with 8%nat by lia.
  replace (8 * S q)%nat with (8 * q + 8)%nat by lia.
  now rewrite firstn_add_skipn.
Qed.

(** A buffer is the concatenation of its blocks. *)
Lemma blocks_concat {A} (l : list A) :
  l = flat_map (fun k => slice l (8 * k) (8 * k + 8)) (seq 0 (List.length l / 8))
      ++ slice l (8 * (List.length l / 8))
           (8 * (List.length l / 8) + List.length l mod 8).
Proof.
  rewrite blocks_firstn. unfold slice.
  pose proof (Nat.div_mod_eq (List.length l) 8) as Hd.
  replace (8 * (List.length l / 8) + List.length l mod 8 - 8 * (List.length l / 8))%nat
    with (List.length l mod 8)%nat by lia.
  rewrite (firstn_all2 (n := (List.length l mod 8)%nat))
    by (rewrite length_skipn; lia).
  now rewrite firstn_skipn.
Qed.

Lemma flat_map_blocks_inj {A} (f g : nat -> list A) (c n a : nat) :
  (forall k, List.length (f k) = c) -> (forall k, List.length (g k) = c) ->
  flat_map f (seq a n) = flat_map g (seq a n) ->
  forall k, In k (seq a n) -> f k = g k.
Proof.
  intros Hf Hg. revert a. induction n as [|n IH]; intros a E k Hk; [inversion Hk|].
  cbn [seq flat_map] in E.
  apply app_inv_length in E as [E1 E2]; [|now rewrite Hf, Hg].
  cbn [seq] in Hk. destruct Hk as [<-|Hk]; [exact E1|]. now apply (IH (S a)).
Qed.

Lemma block_count_inj (q1 q2 r1 r2 : nat) :
  (r1 < 8)%nat -> (r2 < 8)%nat ->
  (11 * q1 + Z.to_nat (encoded_block_size (Z.of_nat r1))
   = 11 * q2 + Z.to_nat (encoded_block_size (Z.of_nat r2)))%nat ->
  q1 = q2 /\ r1 = r2.
Proof.
  intros H1 H2.
  destruct r1 as [|[|[|[|[|[|[|[|?]]]]]]]]; try lia;
    destruct r2 as [|[|[|[|[|[|[|[|?]]]]]]]]; try lia;
      (vm_compute (Z.to_nat _); lia).
Qed.

Lemma all_slots_length (buffer : list byte) :
  List.length (all_slots buffer)
  = (11 * (List.length buffer / 8)
     + Z.to_nat (encoded_block_size (Z.of_nat (List.length buffer mod 8))))%nat.
Proof.
  unfold all_slots; cbv zeta.
  rewrite length_app, (flat_map_length_const _ 11), block_slots_length; [reflexivity|].
  intros; apply block_slots_length.
Qed.

Lemma block_slots_inj (a b : list byte) (start size : nat) :
  (start + size <= List.length a)%nat -> (start + size <= List.length b)%nat ->
  (size <= 8)%nat ->
  block_slots a start size = block_slots b start size ->
  slice a start (start + size) = slice b start (start + size).
Proof.
  intros La Lb Hs E.
  destruct size as [|size].
  - now rewrite !slice_empty.
  - apply be_value_inj.
    + rewrite !slice_length. lia.
    + rewrite <- !block_slots_value by lia. now rewrite E.
Qed.

Lemma all_slots_inj (a b : list byte) : all_slots a = all_slots b -> a = b.
Proof.
  intros E.
  pose proof (f_equal (@List.length string) E) as EL.
  rewrite !all_slots_length in EL.
  pose proof (Nat.mod_upper_bound (List.length a) 8 ltac:(lia)) as Ha.
  pose proof (Nat.mod_upper_bound (List.length b) 8 ltac:(lia)) as Hb.
  destruct (block_count_inj _ _ _ _ Ha Hb EL) as [Eq Er].
  pose proof (Nat.div_mod_eq (List.length a) 8) as Da.
  pose proof (Nat.div_mod_eq (List.length b) 8) as Db.
  unfold all_slots in E; cbv zeta in E. rewrite <- Eq, <- Er in E.
  apply app_inv_length in E as [E1 E2].
  2:{ rewrite !(flat_map_length_const _ 11); [reflexivity| |];
      intros; apply block_slots_length. }
  rewrite (blocks_concat a), (blocks_concat b), <- Eq, <- Er.
  f_equal.
  - apply flat_map_ext_In. intros k Hk.
    pose proof Hk as Hk'. apply in_seq in Hk'.
    apply block_slots_inj; try lia.
    apply (flat_map_blocks_inj (fun k => block_slots a (8 * k) 8)
             (fun k => block_slots b (8 * k) 8) 11 (List.length a / 8) 0
             ltac:(intros; apply block_slots_length)
             ltac:(intros; apply block_slots_length) E1 k Hk).
  - apply block_slots_inj; try lia. exact E2.
Qed.

Lemma base58Encode_injective_blocks (a b : list byte) :
  base58Encode a = base58Encode b -> all_slots a = all_slots b /\ a = b.
Proof.
  rewrite !base58Encode_all_slots. intros E. apply ok_inj in E.
  assert (Es : all_slots a = all_slots b)
    by (apply concat_slots_inj; try apply all_slots_single; exact E).
  split; [exact Es|now apply all_slots_inj].
Qed.

(** X15. [base58Encode] is injective: two buffers with the same encoding are
    the same buffer. *)
Theorem base58Encode_injective (a b : list byte) :
  base58Encode a = base58Encode b -> a = b.
Proof.
  intros E. pose proof (base58Encode_all_slots a) as Ea.
  pose proof (base58Encode_all_slots b) as Eb.
  rewrite Ea, Eb in E. apply ok_inj in E.
  apply all_slots_inj, concat_slots_inj; try apply all_slots_single. exact E.
Qed.

Lemma base58Encode_injective_witness : [x00] = [x00].
Proof. apply (base58Encode_injective [x00] [x00]). reflexivity. Defined.

(** ** Addresses *)

Lemma digit_slots_split (a b : nat) (num : Z) :
  digit_slots (a + b) num = digit_slots a (num / 58 ^ Z.of_nat b) ++ digit_slots b num.
Proof.
  revert num. induction b as [|b IH]; intros num.
  - rewrite Nat.add_0_r. cbn [digit_slots Z.of_nat]. rewrite Z.pow_0_r, Z.div_1_r.
    now rewrite app_nil_r.
  - replace (a + S b)%nat with (S (a + b)) by lia. cbn [digit_slots].
    rewrite IH, app_assoc. f_equal. f_equal.
    rewrite Nat2Z.inj_succ, Z.pow_succ_r, Z.div_div by lia. reflexivity.
Qed.

Lemma be_value_app (a b : list byte) :
  be_value (a ++ b) = be_value a * 256 ^ Z.of_nat (List.length b) + be_value b.
Proof.
  induction b as [|x b IH] using rev_ind.
  - rewrite app_nil_r. cbn. lia.
  - rewrite app_assoc, !be_value_snoc, IH, length_app. cbn [List.length].
    replace (Z.of_nat (List.length b + 1)) with (Z.succ (Z.of_nat (List.length b))) by lia.
    rewrite Z.pow_succ_r by lia. lia.
Qed.

Section Addresses.

Variable keccak256 : list byte -> string.

(** The last four bytes of the buffer of an address: the checksum, completed
    with zeros when the digest is too short. *)
Lemma address_tail_length (body : list byte) :
  let checksum := slice (hexToBytes (keccak256 body)) 0 4 in
  List.length (checksum ++ repeat x00 (4 - List.length checksum)) = 4%nat.
Proof.
  cbv zeta. rewrite length_app, repeat_length, slice_length. lia.
Qed.

(** X16. The address of a 32-byte public key has 54 characters and starts
    with "PAS1", whatever the key and whatever the hash function returns. *)
Theorem address_shape (publicKeyBytes : list byte) :
  List.length publicKeyBytes = 32%nat ->
  exists rest,
    publicKeyToAddress keccak256 publicKeyBytes = ok ("PAS1" ++ rest)%string
    /\ String.length rest = 50%nat.
Proof.
  intros L.
  pose proof (publicKeyToAddress_buffer keccak256 publicKeyBytes) as E. cbv zeta in E.
  rewrite E, base58Encode_all_slots. clear E.
  pose proof (address_tail_length (encodeVarint PREFIX ++ publicKeyBytes)) as Lt.
  cbv zeta in Lt.
  set (tail := slice _ 0 4 ++ repeat x00 _) in *.
  rewrite encodeVarint_PREFIX.
  do 32 (destruct publicKeyBytes as [|? publicKeyBytes]; [discriminate|]).
  destruct publicKeyBytes; [|discriminate]. clear L.
  do 4 (destruct tail as [|? tail]; [discriminate|]).
  destruct tail; [|discriminate]. clear Lt.
  unfold all_slots; cbv zeta.
  cbn [app List.length Nat.div Nat.divmod fst Nat.modulo snd Nat.sub seq flat_map].
  unfold block_slots at 1.
  change (Z.to_nat (encoded_block_size (Z.of_nat 8))) with (4 + 7)%nat.
  rewrite digit_slots_split.
  match goal with
  | |- context [digit_slots 4 (be_value (slice ?l ?lo ?hi) / _)] =>
      change (slice l lo hi) with ([x84; x80; x66] ++ [b; b0; b1; b2; b3])
  end.
  rewrite be_value_app.
  pose proof (be_value_range [b; b0; b1; b2; b3]) as R.
  set (v := be_value [b; b0; b1; b2; b3]) in *.
  assert (Ed : (be_value [x84; x80; x66] * 256 ^ Z.of_nat (List.length [b; b0; b1; b2; b3]) + v)
               / 58 ^ Z.of_nat 7 = 4324190).
  { change (be_value [x84; x80; x66] * 256 ^ Z.of_nat (List.length [b; b0; b1; b2; b3]))
      with 9547743360211484672 in *.
    change (256 ^ Z.of_nat (List.length [b; b0; b1; b2; b3])) with 1099511627776 in R.
    change (58 ^ Z.of_nat 7) with 2207984167552.
    symmetry.
    apply Z.div_unique with (r := 9547743360211484672 + v - 2207984167552 * 4324190); lia. }
  rewrite Ed. change (digit_slots 4 4324190) with ["P"; "A"; "S"; "1"].
  rewrite <- !app_assoc. cbn [app].
  rewrite !concat_empty_cons. cbn [String.append].
  eexists. split; [reflexivity|].
  match goal with
  | |- String.length (String.concat "" ?l) = _ =>
      rewrite (concat_slots_length 50 l); [reflexivity|]
  end.
  split.
  - rewrite !length_app, !block_slots_length, digit_slots_length. reflexivity.
  - repeat first [apply digit_slots_single | apply Forall_nil
                 | apply Forall_app; split].
Qed.

(** X17. Two public keys with the same address are the same key: the
    address encoder is injective. *)
Theorem publicKeyToAddress_injective (pk1 pk2 : list byte) :
  publicKeyToAddress keccak256 pk1 = publicKeyToAddress keccak256 pk2 -> pk1 = pk2.
Proof.
  pose proof (publicKeyToAddress_buffer keccak256 pk1) as E1.
  pose proof (publicKeyToAddress_buffer keccak256 pk2) as E2.
  cbv zeta in E1, E2. rewrite E1, E2. intros E.
  apply base58Encode_injective_blocks in E as [_ E].
  pose proof (address_tail_length (encodeVarint PREFIX ++ pk1)) as L1.
  pose proof (address_tail_length (encodeVarint PREFIX ++ pk2)) as L2.
  cbv zeta in L1, L2.
  apply app_inv_length in E as [E _].
  - now apply app_inv_head in E.
  - apply (f_equal (@List.length byte)) in E. rewrite !length_app in *. lia.
Qed.

End Addresses.

Lemma address_shape_witness :
  List.length zero_seed = 32%nat
  /\ exists rest,
       publicKeyToAddress Stub.keccak256 zero_seed = ok ("PAS1" ++ rest)%string
       /\ String.length rest = 50%nat.
Proof.
  split; [reflexivity|]. apply (address_shape Stub.keccak256 zero_seed). reflexivity.
Defined.

Lemma publicKeyToAddress_injective_witness : zero_seed = zero_seed.
Proof.
  apply (publicKeyToAddress_injective Stub.keccak256 zero_seed zero_seed). reflexivity.
Defined.

(** ** Varint length *)

Lemma varint_value_bound (bs : list byte) :
  0 <= varint_value bs < 128 ^ Z.of_nat (List.length bs).
Proof.
  induction bs as [|b bs IH].
  - cbn. lia.
  - cbn [varint_value List.length]. rewrite Nat2Z.inj_succ, Z.pow_succ_r by lia.
    pose proof (Z.mod_pos_bound (byteZ b) 128 ltac:(lia)). lia.
Qed.

Lemma varint_value_last (init : list byte) (last : byte) :
  varint_value (init ++ [last])
  = varint_value init + byteZ last mod 128 * 128 ^ Z.of_nat (List.length init).
Proof.
  induction init as [|b init IH].
  - cbn. lia.
  - cbn [app varint_value List.length]. rewrite IH, Nat2Z.inj_succ, Z.pow_succ_r by lia.
    lia.
Qed.

(** X18. The varint of [n], for [0 <= n < 2^32], has as many bytes as [n] has
    seven-bit groups: one to five bytes, [k] bytes exactly when
    [128^(k-1) <= n < 128^k] (one byte for 0). *)
Theorem encodeVarint_length (n : Z) :
  0 <= n < 2 ^ 32 ->
  let k := Z.of_nat (List.length (encodeVarint n)) in
  1 <= k <= 5 /\ n < 128 ^ k /\ (1 < k -> 128 ^ (k - 1) <= n).
Proof.
  intros Hn. cbv zeta.
  destruct (encodeVarint_uint32 n Hn) as [(init & last & E & Hi & Hl & Hc) Hv].
  rewrite E in *. rewrite length_app. cbn [List.length].
  pose proof (varint_value_bound (init ++ [last])) as Hb.
  rewrite length_app in Hb. cbn [List.length] in Hb.
  rewrite varint_value_last in Hv.
  pose proof (varint_value_bound init) as Hbi.
  pose proof (byteZ_range last) as Hr.
  rewrite Z.mod_small in Hv by lia.
  rewrite varint_value_last, Z.mod_small in Hb by lia.
  replace (Z.of_nat (List.length init + 1)) with (Z.of_nat (List.length init) + 1) in * by lia.
  replace (Z.of_nat (List.length init) + 1 - 1) with (Z.of_nat (List.length init)) by lia.
  assert (Hp : 0 < 128 ^ Z.of_nat (List.length init)) by (apply Z.pow_pos_nonneg; lia).
  assert (Hlow : 1 < Z.of_nat (List.length init) + 1 ->
                 128 ^ Z.of_nat (List.length init) <= n).
  { intros Hk. destruct Hc as [->|Hc]; [cbn in Hk; lia|]. nia. }
  split; [|split; [lia|exact Hlow]].
  split; [lia|].
  destruct (Z.le_gt_cases (Z.of_nat (List.length init) + 1) 5) as [|Hbig]; [assumption|].
  assert (128 ^ 5 <= 128 ^ Z.of_nat (List.length init)) by (apply Z.pow_le_mono_r; lia).
  specialize (Hlow ltac:(lia)).
  change (128 ^ 5) with 34359738368 in *. change (2 ^ 32) with 4294967296 in Hn. lia.
Qed.

Lemma encodeVarint_length_witness :
  1 <= Z.of_nat (List.length (encodeVarint PREFIX)) <= 5.
Proof. apply (encodeVarint_length PREFIX). unfold PREFIX. lia. Defined.

(** ** Hexadecimal input that is not well formed *)

Lemma hex_pairs_app (a b : string) :
  Nat.even (String.length a) = true ->
  hex_pairs (a ++ b) = hex_pairs a ++ hex_pairs b.
Proof.
  enough (H : forall n a, (String.length a <= n)%nat ->
                          Nat.even (String.length a) = true ->
                          hex_pairs (a ++ b) = hex_pairs a ++ hex_pairs b)
    by (apply (H (String.length a)); lia).
  clear a. induction n as [|n IH]; intros a L E.
  - destruct a; [reflexivity|cbn in L; lia].
  - destruct a as [|x [|y a]]; [reflexivity|discriminate|].
    cbn [String.append hex_pairs app]. f_equal.
    apply IH; [cbn [String.length] in L; lia|exact E].
Qed.

Lemma parseInt16_nan (a b : ascii) :
  hex_digit_value a = None -> is_space a = false ->
  a <> "-"%char -> a <> "+"%char ->
  parseInt16 (String a (String b "")) = None.
Proof.
  intros Hd Hs Hm Hp.
  destruct a as [[] [] [] [] [] [] [] []];
    first [discriminate Hd | discriminate Hs | now elim Hm | now elim Hp | reflexivity].
Qed.

(** X19. [hexToBytes] never fails and returns [floor(length / 2)] bytes: a
    last digit without a partner is dropped, and a pair whose first
    character is neither a hexadecimal digit, white space nor a sign becomes
    the byte 0. *)
Theorem hexToBytes_malformed (hex : string) (a b : ascii) :
  List.length (hexToBytes hex) = Nat.div2 (String.length hex)
  /\ (Nat.even (String.length hex) = true ->
      hexToBytes (hex ++ String a "") = hexToBytes hex
      /\ (hex_digit_value a = None -> is_space a = false ->
          a <> "-"%char -> a <> "+"%char ->
          hexToBytes (hex ++ String a (String b "")) = hexToBytes hex ++ [x00])).
Proof.
  split; [apply hexToBytes_length|].
  intros E. unfold hexToBytes. rewrite !hex_pairs_app by assumption.
  rewrite !map_app. split.
  - cbn [hex_pairs map]. now rewrite app_nil_r.
  - intros Hd Hs Hm Hp. cbn [hex_pairs map].
    now rewrite parseInt16_nan.
Qed.

Lemma hexToBytes_malformed_witness :
  hexToBytes ("ab" ++ "c") = hexToBytes "ab"
  /\ hexToBytes ("ab" ++ "zz") = hexToBytes "ab" ++ [x00].
Proof.
  destruct (hexToBytes_malformed "ab" "z" "z") as [_ H].
  destruct (H eq_refl) as [_ Hz].
  split.
  - apply (hexToBytes_malformed "ab" "c" "c"). reflexivity.
  - apply Hz; [reflexivity|reflexivity|discriminate|discriminate].
Defined.

(** ** Truncated hashes *)

Lemma substring_length (n m : nat) (s : string) :
  (n + m <= String.length s)%nat -> String.length (String.substring n m s) = m.
Proof.
  revert n m. induction s as [|c s IH]; intros n m H; cbn [String.length] in H.
  - destruct n, m; cbn; lia.
  - destruct n as [|n].
    + destruct m as [|m]; [reflexivity|]. cbn [String.substring String.length].
      rewrite IH by lia. reflexivity.
    + cbn [String.substring]. apply IH. lia.
Qed.

(** X20. When [truncateHash] shortens a hash (non-negative lengths, the hash
    longer than their sum) the result is the first [startLength] characters,
    three dots and the last [endLength] characters, so it has
    [startLength + endLength + 3] characters; a hash of length at most
    [startLength + endLength] is returned unchanged. *)
Theorem truncateHash_spec (hash : string) (startLength endLength : Z) :
  0 <= startLength -> 0 <= endLength ->
  let len := Z.of_nat (String.length hash) in
  (len <= startLength + endLength -> truncateHash hash startLength endLength = hash)
  /\ (startLength + endLength < len ->
      truncateHash hash startLength endLength
      = (String.substring 0 (Z.to_nat startLength) hash ++ "..."
         ++ String.substring (Z.to_nat (len - endLength)) (Z.to_nat endLength) hash)%string
      /\ Z.of_nat (String.length (truncateHash hash startLength endLength))
         = startLength + endLength + 3).
Proof.
  intros Hs He. cbv zeta. unfold truncateHash.
  set (len := Z.of_nat (String.length hash)).
  split.
  - intros H. destruct (Nat.eqb_spec (String.length hash) 0) as [E|_].
    + destruct hash; [reflexivity|discriminate].
    + destruct (Z.leb_spec len (startLength + endLength)); [reflexivity|lia].
  - intros H. destruct (Nat.eqb_spec (String.length hash) 0) as [E|_]; [lia|].
    destruct (Z.leb_spec len (startLength + endLength)); [lia|].
    assert (E1 : js_substring hash 0 startLength
                 = String.substring 0 (Z.to_nat startLength) hash).
    { unfold js_substring, clamp_index; cbv zeta. fold len.
      replace (Z.max 0 (Z.min 0 len)) with 0 by lia.
      replace (Z.max 0 (Z.min startLength len)) with startLength by lia.
      replace (Z.min 0 startLength) with 0 by lia.
      replace (Z.max 0 startLength) with startLength by lia.
      now rewrite Z.sub_0_r. }
    assert (E2 : js_substring_from hash (len - endLength)
                 = String.substring (Z.to_nat (len - endLength)) (Z.to_nat endLength) hash).
    { unfold js_substring_from, js_substring, clamp_index; cbv zeta. fold len.
      replace (Z.max 0 (Z.min (len - endLength) len)) with (len - endLength) by lia.
      replace (Z.max 0 (Z.min len len)) with len by lia.
      replace (Z.min (len - endLength) len) with (len - endLength) by lia.
      replace (Z.max (len - endLength) len) with len by lia.
      now replace (len - (len - endLength)) with endLength by lia. }
    rewrite E1, E2. split; [reflexivity|].
    rewrite !string_length_app, !substring_length by (unfold len in *; lia).
    cbn [String.length]. lia.
Qed.

Lemma truncateHash_spec_witness :
  truncateHash "0123456789abcdefghijklmnop" 10 10 = "0123456789...ghijklmnop".
Proof.
  refine (proj1 (proj2 (truncateHash_spec "0123456789abcdefghijklmnop" 10 10 _ _) _));
    cbn; lia.
Defined.

(** ** Decoding, then encoding *)

(** The three indices of a rebuilt value are the indices it was built from. *)
Lemma triplet_value_inverse (w1 w2 w3 : Z) :
  0 <= w1 < wlLen -> 0 <= w2 < wlLen -> 0 <= w3 < wlLen ->
  index1 (triplet_value w1 w2 w3) = w1
  /\ index2 (triplet_value w1 w2 w3) = w2
  /\ index3 (triplet_value w1 w2 w3) = w3.
Proof.
  intros H1 H2 H3.
  destruct (triplet_value_residue w1 w2 w3 H1 H2 H3) as [R _].
  unfold index3, index2, index1. rewrite R.
  unfold triplet_value, wlLen in *.
  rewrite (Z.rem_mod_nonneg (1626 - w1 + w2)) by lia.
  rewrite (Z.rem_mod_nonneg (1626 - w2 + w3)) by lia.
  pose proof (Z.mod_pos_bound (1626 - w1 + w2) 1626 ltac:(lia)) as Ha.
  pose proof (Z.mod_pos_bound (1626 - w2 + w3) 1626 ltac:(lia)) as Hb.
  set (a := (1626 - w1 + w2) mod 1626) in *.
  set (b := (1626 - w2 + w3) mod 1626) in *.
  assert (D1 : (w1 + 1626 * a + 1626 * 1626 * b) / 1626 = a + 1626 * b)
    by (symmetry; apply (Z.div_unique_pos _ _ _ w1); lia).
  assert (D2 : (a + 1626 * b) / 1626 = b)
    by (symmetry; apply (Z.div_unique_pos _ _ _ a); lia).
  rewrite D1, D2.
  assert (E2 : Z.rem (a + 1626 * b + w1) 1626 = w2).
  { rewrite Z.rem_mod_nonneg by lia. subst a. Z.div_mod_to_equations. lia. }
  rewrite E2. split; [reflexivity|]. split; [reflexivity|].
  rewrite Z.rem_mod_nonneg by lia. subst b. Z.div_mod_to_equations. lia.
Qed.

Lemma uint32_of_setUint32LE (val : Z) :
  match setUint32LE val with
  | [b0; b1; b2; b3] => uint32_of b0 b1 b2 b3
  | _ => 0
  end = JS.ToUint32 val.
Proof.
  unfold setUint32LE; cbv zeta. unfold uint32_of.
  assert (Hv : 0 <= JS.ToUint32 val < 4294967296)
    by (apply Z.mod_pos_bound; reflexivity).
  set (v := JS.ToUint32 val) in *.
  rewrite !byteZ_u8, !Z.shiftl_mul_pow2, !Z.shiftr_div_pow2 by lia.
  change (2 ^ 8) with 256. change (2 ^ 16) with 65536. change (2 ^ 24) with 16777216.
  Z.div_mod_to_equations. lia.
Qed.

Lemma slice_flat_map4 {A} (f : nat -> list A) (n a k : nat) :
  (forall x, List.length (f x) = 4%nat) -> (k < n)%nat ->
  slice (flat_map f (seq a n)) (4 * k) (4 * k + 4) = f (a + k)%nat.
Proof.
  intros Hf. unfold slice. replace (4 * k + 4 - 4 * k)%nat with 4%nat by lia.
  revert a k. induction n as [|n IH]; intros a k Hk; [lia|].
  cbn [seq flat_map]. destruct k as [|k].
  - change (4 * 0)%nat with 0%nat. cbn [skipn].
    rewrite firstn_app, Hf, Nat.sub_diag, firstn_O, app_nil_r, Nat.add_0_r.
    apply firstn_all2. rewrite Hf. lia.
  - rewrite skipn_app, Hf, skipn_all2 by (rewrite Hf; lia). cbn [app].
    replace (4 * S k - 4)%nat with (4 * k)%nat by lia.
    rewrite IH by lia. f_equal. lia.
Qed.

Lemma group_value_decoded (data : list string) (k : nat) :
  (k < 8)%nat ->
  group_value (flat_map (decoded_group data) (seq 0 8)) k
  = JS.ToUint32 (decoded_value data k).
Proof.
  intros Hk. unfold group_value, group.
  rewrite (slice_flat_map4 (decoded_group data) 8 0 k) by (auto; lia).
  cbn [Nat.add]. apply uint32_of_setUint32LE.
Qed.

Lemma getWordIndex_inv (w : string) (i : Z) : getWordIndex w = ok i -> word i = w.
Proof.
  unfold getWordIndex; cbv zeta.
  destruct (Z.eqb_spec (indexOf WORDLIST w) (-1)) as [|Hn];
    [intros E; now apply eq_sym, ok_not_throw in E|].
  intros E. apply ok_inj in E. subst i.
  unfold word. apply nth_error_nth. now apply indexOf_found.
Qed.

Lemma found_index_word (data : list string) (i : Z) :
  Forall (fun w => In w WORDLIST) data ->
  0 <= i < Z.of_nat (List.length data) ->
  0 <= found_index data i < wlLen
  /\ nth_error data (Z.to_nat i) = Some (word (found_index data i)).
Proof.
  intros Hall Hi. pose proof (found_index_ok data i Hall Hi) as E.
  unfold wordIndexAt, at_index in E.
  destruct (Z.ltb_spec i 0); [lia|].
  destruct (nth_error data (Z.to_nat i)) as [w|];
    [|now apply eq_sym, ok_not_throw in E].
  split; [exact (getWordIndex_range _ _ E)|].
  now rewrite (getWordIndex_inv _ _ E).
Qed.

Lemma word_inj (i j : Z) :
  0 <= i < wlLen -> 0 <= j < wlLen -> word i = word j -> i = j.
Proof.
  intros Hi Hj E. apply ok_inj.
  rewrite <- (getWordIndex_word i Hi), <- (getWordIndex_word j Hj). now rewrite E.
Qed.

Lemma cons3_inj {A} (a b c a' b' c' : A) :
  [a; b; c] = [a'; b'; c'] -> a = a' /\ b = b' /\ c = c'.
Proof. intros E. now inversion E. Qed.

(** The data words, three by three, as the words of the indices found. *)
Lemma data_as_triplets (data : list string) :
  List.length data = 24%nat -> Forall (fun w => In w WORDLIST) data ->
  data = flat_map (fun k => [word (found_index data (3 * Z.of_nat k));
                             word (found_index data (3 * Z.of_nat k + 1));
                             word (found_index data (3 * Z.of_nat k + 2))])
                  (seq 0 8).
Proof.
  intros L Hall.
  set (g := fun k => [word (found_index data (3 * Z.of_nat k));
                      word (found_index data (3 * Z.of_nat k + 1));
                      word (found_index data (3 * Z.of_nat k + 2))]).
  assert (Hg : forall x, List.length (g x) = 3%nat) by reflexivity.
  assert (H : forall k j, (k < 8)%nat -> (j < 3)%nat ->
                          nth_error data (3 * k + j)
                          = nth_error (flat_map g (seq 0 8)) (3 * k + j)).
  { intros k j Hk Hj. rewrite (nth_error_flat_map3 g 8 0 k j Hg Hk Hj).
    cbn [Nat.add].
    destruct (found_index_word data (3 * Z.of_nat k + Z.of_nat j) Hall ltac:(lia))
      as [_ E].
    replace (Z.to_nat (3 * Z.of_nat k + Z.of_nat j)) with (3 * k + j)%nat in E by lia.
    rewrite E. unfold g.
    destruct j as [|[|[|j]]]; [| | |lia]; cbn [nth_error Z.of_nat Pos.of_succ_nat Pos.succ].
    - now rewrite Z.add_0_r.
    - reflexivity.
    - reflexivity. }
  apply nth_error_ext. intros n.
  destruct (Nat.lt_ge_cases n 24) as [Hn|Hn].
  - pose proof (H (n / 3)%nat (n mod 3)%nat
                  ltac:(apply Nat.Div0.div_lt_upper_bound; lia)
                  ltac:(apply Nat.mod_upper_bound; lia)) as E.
    now rewrite <- (Nat.div_mod_eq n 3) in E.
  - transitivity (@None string); [|symmetry]; apply nth_error_None.
    + lia.
    + rewrite (flat_map_length3 g 8 0 Hg). lia.
Qed.

(** X21. Decoding, then encoding. A mnemonic of 24 words of the word list
    and a 25th word always decodes to 32 bytes, and encoding those bytes
    gives the 24 data words back exactly when each of the eight values
    rebuilt from three words fits in 32 bits: a larger value is stored
    modulo [2^32]. *)
Theorem decode_then_encode (data : list string) (a : string) :
  List.length data = 24%nat ->
  Forall (fun w => In w WORDLIST) data ->
  clean_word a = true ->
  exists seed,
    mnemonicToPrivateKey (String.concat " " (data ++ [a])) = ok seed
    /\ List.length seed = 32%nat
    /\ (data_words seed = data
        <-> forall k, (k < 8)%nat -> decoded_value data k < 2 ^ 32).
Proof.
  intros L Hin Ha.
  assert (Hclean : Forall (fun w => clean_word w = true) data)
    by (eapply Forall_impl; [|exact Hin]; apply In_WORDLIST_clean).
  pose proof (words_of_clean_mnemonic data a Hclean Ha) as Hw.
  assert (Hs : slice (data ++ [a]) 0 24 = data) by (rewrite <- L; apply slice_0_app).
  pose proof (mnemonicToPrivateKey_known (String.concat " " (data ++ [a]))) as Hk.
  rewrite Hw, Hs in Hk.
  specialize (Hk ltac:(rewrite length_app, L; reflexivity) Hin).
  exists (flat_map (decoded_group data) (seq 0 8)).
  split; [exact Hk|]. split; [now rewrite (flat_map_length_const _ 4)|].
  set (f := fun k => triplet_words (JS.ToUint32 (decoded_value data k))).
  set (g := fun k => [word (found_index data (3 * Z.of_nat k));
                      word (found_index data (3 * Z.of_nat k + 1));
                      word (found_index data (3 * Z.of_nat k + 2))]).
  assert (Hdw : data_words (flat_map (decoded_group data) (seq 0 8))
                = flat_map f (seq 0 8)).
  { unfold data_words. apply flat_map_ext_In. intros k Hk'. apply in_seq in Hk'.
    unfold f. now rewrite group_value_decoded by lia. }
  assert (Hdata : data = flat_map g (seq 0 8)) by now apply data_as_triplets.
  assert (Hr : forall k j, (k < 8)%nat -> 0 <= j < 3 ->
                           0 <= found_index data (3 * Z.of_nat k + j) < wlLen).
  { intros k j Hk' Hj. apply found_index_word; [assumption|lia]. }
  assert (Hpos : forall k, (k < 8)%nat -> 0 <= decoded_value data k).
  { intros k Hk'. unfold decoded_value; cbv zeta.
    pose proof (Hr k 0 Hk' ltac:(lia)) as R0. rewrite Z.add_0_r in R0.
    apply (triplet_value_residue _ _ _ R0 (Hr k 1 Hk' ltac:(lia))
             (Hr k 2 Hk' ltac:(lia))). }
  rewrite Hdw. split.
  - intros E k Hk'.
    assert (E' : flat_map f (seq 0 8) = flat_map g (seq 0 8)) by (now rewrite <- Hdata).
    pose proof (flat_map_blocks_inj f g 3 8 0 (fun _ => eq_refl) (fun _ => eq_refl)
                  E' k ltac:(apply in_seq; lia)) as Ek.
    unfold f, g, triplet_words in Ek. apply cons3_inj in Ek as (I1 & I2 & I3).
    assert (Hu : 0 <= JS.ToUint32 (decoded_value data k) < 2 ^ 32)
      by (apply Z.mod_pos_bound; reflexivity).
    destruct (index_ranges _ (proj1 Hu)) as (R1 & R2 & R3).
    pose proof (Hr k 0 Hk' ltac:(lia)) as R0. rewrite Z.add_0_r in R0.
    apply word_inj in I1; [|assumption|assumption].
    apply word_inj in I2; [|assumption|apply Hr; lia].
    apply word_inj in I3; [|assumption|apply Hr; lia].
    pose proof (triplet_value_indices _ Hu) as T.
    rewrite I1, I2, I3 in T.
    change (decoded_value data k = JS.ToUint32 (decoded_value data k)) in T.
    rewrite T. apply Hu.
  - intros Hfit. etransitivity; [|symmetry; exact Hdata].
    apply flat_map_ext_In. intros k Hk'. apply in_seq in Hk'.
    unfold f, g, triplet_words.
    assert (Eu : JS.ToUint32 (decoded_value data k) = decoded_value data k).
    { apply Z.mod_small. split; [apply Hpos; lia|apply Hfit; lia]. }
    rewrite Eu. unfold decoded_value; cbv zeta.
    pose proof (Hr k 0 ltac:(lia) ltac:(lia)) as R0. rewrite Z.add_0_r in R0.
    destruct (triplet_value_inverse _ _ _ R0 (Hr k 1 ltac:(lia) ltac:(lia))
                (Hr k 2 ltac:(lia) ltac:(lia))) as (I1 & I2 & I3).
    now rewrite I1, I2, I3.
Qed.

Lemma abbey24_In : Forall (fun w => In w WORDLIST) abbey24.
Proof. apply all_In_WORDLIST_dec. vm_compute. reflexivity. Qed.

Lemma decode_then_encode_witness :
  exists seed,
    mnemonicToPrivateKey (String.concat " " (abbey24 ++ ["zoom"])) = ok seed
    /\ data_words seed = abbey24.
Proof.
  destruct (decode_then_encode abbey24 "zoom" eq_refl abbey24_In eq_refl)
    as (seed & E & _ & H).
  exists seed. split; [exact E|]. apply H. intros k Hk.
  do 8 (destruct k as [|k]; [vm_compute; reflexivity|]). lia.
Defined.

(** X22. [mnemonicToPrivateKey] is not injective on mnemonics that pass
    [verifyMnemonicChecksum]: there are two of them, made of list words, that
    decode to the same 32 bytes, and [privateKeyToMnemonic] gives only one of
    the two back. *)
Theorem mnemonic_decoding_collides :
  wrapping_mnemonic <> plain_mnemonic
  /\ verifyMnemonicChecksum wrapping_mnemonic = true
  /\ verifyMnemonicChecksum plain_mnemonic = true
  /\ exists seed,
       mnemonicToPrivateKey wrapping_mnemonic = ok seed
       /\ mnemonicToPrivateKey plain_mnemonic = ok seed
       /\ privateKeyToMnemonic seed = ok plain_mnemonic.
Proof.
  split; [discriminate|]. split; [vm_compute; reflexivity|].
  split; [vm_compute; reflexivity|].
  exists (flat_map (fun _ : nat => setUint32LE 1332830) (seq 0 8)).
  split; [vm_compute; reflexivity|]. split; vm_compute; reflexivity.
Qed.

(** ** Keys that are too long *)

Section LongKeys.

Variable Point : Type.
Variable BASE_multiply : Z -> Result Point.
Variable toBytes : Point -> list byte.
Variable keccak256 : list byte -> string.

(** X23. [importFromPrivateKey] reads the first 64 characters of its
    argument and nothing else: what follows them changes neither the
    outcome, nor the public key, the address or the mnemonic of the wallet;
    only the [privateKey] field, which echoes the argument, keeps it. *)
Theorem importFromPrivateKey_long_key (privateKeyHex rest : string) :
  String.length privateKeyHex = 64%nat ->
  importFromPrivateKey Point BASE_multiply toBytes keccak256 (privateKeyHex ++ rest)
  = let* wallet :=
      importFromPrivateKey Point BASE_multiply toBytes keccak256 privateKeyHex in
    ok {| privateKey := (privateKeyHex ++ rest)%string;
          publicKey := publicKey wallet;
          address := address wallet;
          mnemonic := mnemonic wallet |}.
Proof.
  intros L. unfold importFromPrivateKey; cbv zeta.
  assert (Elong : hexToBytes (privateKeyHex ++ rest)
                  = hexToBytes privateKeyHex ++ hexToBytes rest).
  { unfold hexToBytes. rewrite hex_pairs_app by (rewrite L; reflexivity).
    apply map_app. }
  assert (Lbs : List.length (hexToBytes privateKeyHex) = 32%nat)
    by (rewrite hexToBytes_length, L; reflexivity).
  rewrite Elong.
  set (bs := hexToBytes privateKeyHex) in *.
  set (more := hexToBytes rest).
  assert (F : firstn 32 (bs ++ more) = bs).
  { rewrite firstn_app, Lbs, Nat.sub_diag, firstn_O, app_nil_r.
    apply firstn_all2. lia. }
  assert (S1 : bytesToScalar (bs ++ more) = bytesToScalar bs).
  { rewrite !bytesToScalar_le_value by (rewrite ?length_app; lia).
    rewrite F, firstn_all2 by lia. reflexivity. }
  assert (M : privateKeyToMnemonic (bs ++ more) = privateKeyToMnemonic bs).
  { destruct (generated_mnemonic (bs ++ more)) as (cs & Hcs & _ & Hm & _);
      [rewrite length_app; lia|].
    destruct (generated_mnemonic bs) as (cs' & Hcs' & _ & Hm' & _); [lia|].
    rewrite <- data_words_firstn, F in Hcs, Hm.
    assert (cs' = cs) by congruence. subst cs'.
    now rewrite Hm, Hm'. }
  unfold generateEd25519Keypair; cbv zeta. rewrite S1, M.
  destruct (bytesToScalar bs) as [e|scalar]; [reflexivity|].
  cbn [bind andb].
  destruct (BASE_multiply scalar) as [e|point]; [reflexivity|].
  cbn [bind ok kp_publicKey].
  destruct (publicKeyToAddress keccak256 (toBytes point)) as [e|addr]; [reflexivity|].
  cbn [bind].
  destruct (privateKeyToMnemonic bs) as [e|m]; reflexivity.
Qed.

End LongKeys.

Lemma importFromPrivateKey_long_key_witness :
  match importFromPrivateKey Stub.Point Stub.BASE_multiply Stub.toBytes Stub.keccak256
          (hex_key ++ "ffff"),
        importFromPrivateKey Stub.Point Stub.BASE_multiply Stub.toBytes Stub.keccak256
          hex_key
  with
  | inr long, inr short =>
      address long = address short /\ mnemonic long = mnemonic short
  | _, _ => False
  end.
Proof.
  rewrite (importFromPrivateKey_long_key Stub.Point Stub.BASE_multiply Stub.toBytes
             Stub.keccak256 hex_key "ffff" eq_refl).
  vm_compute. split; reflexivity.
Defined.

(** ** The layout of an address *)

Lemma Stub_digest_length (b : list byte) : List.length (Stub.digest b) = 32%nat.
Proof.
  unfold Stub.digest. rewrite length_firstn, length_app, repeat_length. lia.
Qed.

Section AddressLayout.

(** [keccak256] of js-sha3 returns the 32 bytes of the digest rendered in
    hexadecimal; [digest] names those bytes. *)
Variable keccak256 : list byte -> string.
Variable digest : list byte -> list byte.
Hypothesis keccak256_hex : forall b, keccak256 b = bytesToHex (digest b).
Hypothesis digest_length : forall b, List.length (digest b) = 32%nat.

(** C5. The address of a 32-byte public key is the block-based Base58
    encoding of the 39 bytes [varint(PREFIX) || pk || checksum], where
    [PREFIX] is 0x198004, the checksum is the first four bytes of the digest
    of [varint(PREFIX) || pk], and the varint, the bytes 84 80 66, is in
    seven-bit groups, least significant first, high bit set on every byte
    but the last. *)
Theorem publicKeyToAddress_layout (publicKeyBytes : list byte) :
  List.length publicKeyBytes = 32%nat ->
  let body := encodeVarint PREFIX ++ publicKeyBytes in
  let checksum := firstn 4 (digest body) in
  publicKeyToAddress keccak256 publicKeyBytes = base58Encode (body ++ checksum)
  /\ List.length checksum = 4%nat
  /\ List.length (body ++ checksum) = 39%nat
  /\ PREFIX = 0x198004
  /\ encodeVarint PREFIX = [x84; x80; x66]
  /\ varint_wf (encodeVarint PREFIX)
  /\ varint_value (encodeVarint PREFIX) = PREFIX.
Proof.
  intros L. cbv zeta.
  assert (L4 : List.length (firstn 4 (digest (encodeVarint PREFIX ++ publicKeyBytes)))
               = 4%nat).
  { rewrite length_firstn, digest_length. reflexivity. }
  split.
  - pose proof (publicKeyToAddress_buffer keccak256 publicKeyBytes) as E.
    cbv zeta in E. rewrite E, keccak256_hex, hexToBytes_rendered.
    unfold slice. cbn [skipn Nat.sub]. rewrite L4. cbn [Nat.sub repeat].
    now rewrite app_nil_r.
  - split; [exact L4|]. split.
    { rewrite !length_app, L4, L, encodeVarint_PREFIX. reflexivity. }
    split; [reflexivity|]. split; [apply encodeVarint_PREFIX|].
    apply encodeVarint_uint32. unfold PREFIX. lia.
Qed.

End AddressLayout.

Lemma publicKeyToAddress_layout_witness :
  publicKeyToAddress Stub.keccak256 one_seed
  = base58Encode ((encodeVarint PREFIX ++ one_seed) ++ [x84; x80; x66; x01]).
Proof.
  pose proof (proj1 (publicKeyToAddress_layout Stub.keccak256 Stub.digest
                       (fun _ => eq_refl) Stub_digest_length one_seed eq_refl)) as H.
  rewrite H, encodeVarint_PREFIX. reflexivity.
Defined.

(** ** Importing a private key *)



Section PrivateKeyImport.

Variable Point : Type.
Variable BASE_multiply : Z -> Result Point.
Variable toBytes : Point -> list byte.
Variable keccak256 : list byte -> string.

(** [Point.BASE.multiply] of @noble/ed25519 multiplies by the scalars from 1
    to the curve order excluded, and throws a [RangeError] on any other. *)
Hypothesis BASE_multiply_accepts :
  forall n, 0 < n < curveOrder -> exists P, BASE_multiply n = ok P.
Hypothesis BASE_multiply_rejects :
  forall n, n <= 0 \/ curveOrder <= n -> BASE_multiply n = throw RangeError.


End PrivateKeyImport.



(** ** Block-based Base58: widths and padding *)

Lemma digit_slots_padding (width digits : nat) (num : Z) :
  (digits <= width)%nat -> 0 <= num < 58 ^ Z.of_nat digits ->
  digit_slots width num = repeat "1" (width - digits) ++ digit_slots digits num.
Proof.
  intros Hd Hn. replace width with ((width - digits) + digits)%nat at 1 by lia.
  rewrite digit_slots_split, Z.div_small by lia. now rewrite digit_slots_zero.
Qed.

Lemma be_value_nonneg (l : list byte) : 0 <= be_value l.
Proof. pose proof (be_value_range l). lia. Qed.

(** C7. For a buffer of [n] bytes [base58Encode] returns a string of
    [floor(n/8) * 11 + [0,2,3,5,6,7,9,10,11][n mod 8]] characters: the
    characters of the full blocks of 8 bytes, 11 for each, followed by those
    of the last block of [n mod 8] bytes. A block of [size] bytes gives
    [[0,2,3,5,6,7,9,10,11][size]] characters, and when the number of the
    block has no more than [digits] Base58 digits the characters before the
    last [digits] are all "1", the first symbol of the alphabet. *)
Theorem base58Encode_widths_and_padding (buffer : list byte) :
  let n := List.length buffer in
  exists result,
    base58Encode buffer = ok (String.concat "" result)
    /\ Z.of_nat (String.length (String.concat "" result))
       = Z.of_nat n / 8 * 11
         + nth (Z.to_nat (Z.of_nat n mod 8)) [0; 2; 3; 5; 6; 7; 9; 10; 11] 0
    /\ Forall (fun c => String.length c = 1%nat) result
    /\ result = flat_map (fun k => block_slots buffer (8 * k) 8) (seq 0 (n / 8))
                ++ block_slots buffer (8 * (n / 8)) (n mod 8)
    /\ String.get 0 BASE58_ALPHABET = Some "1"%char
    /\ forall start size,
         (size <= 8)%nat ->
         let width := Z.to_nat (nth size [0; 2; 3; 5; 6; 7; 9; 10; 11] 0) in
         let num := be_value (slice buffer start (start + size)) in
         List.length (block_slots buffer start size) = width
         /\ forall digits,
              (digits <= width)%nat -> num < 58 ^ Z.of_nat digits ->
              block_slots buffer start size
              = repeat "1" (width - digits) ++ digit_slots digits num.
Proof.
  cbv zeta. exists (all_slots buffer).
  pose proof (base58Encode_all_slots buffer) as E.
  split; [exact E|]. split.
  - destruct (base58Encode_slots buffer) as (result & E' & S). cbv zeta in S.
    rewrite E in E'. apply ok_inj in E'. rewrite E', (concat_slots_length _ _ S).
    set (len := Z.of_nat (List.length buffer)) in *.
    assert (Hq : 0 <= len / 8) by (apply Z.div_pos; lia).
    pose proof (Z.mod_pos_bound len 8 ltac:(lia)) as Hm.
    pose proof (encoded_block_size_range (len mod 8) ltac:(lia)) as He.
    unfold encoded_block_size, ENCODED_BLOCK_SIZES in *. lia.
  - split; [apply all_slots_single|]. split; [reflexivity|]. split; [reflexivity|].
    intros start size Hs.
    assert (W : List.length (block_slots buffer start size)
                = Z.to_nat (nth size [0; 2; 3; 5; 6; 7; 9; 10; 11] 0)).
    { rewrite block_slots_length. unfold encoded_block_size. now rewrite Nat2Z.id. }
    split; [exact W|].
    intros digits Hd Hn. unfold block_slots.
    replace (Z.to_nat (encoded_block_size (Z.of_nat size)))
      with (Z.to_nat (nth size [0; 2; 3; 5; 6; 7; 9; 10; 11] 0))
      by (unfold encoded_block_size; now rewrite Nat2Z.id).
    apply digit_slots_padding; [exact Hd|].
    split; [apply be_value_nonneg|exact Hn].
Qed.

Lemma base58Encode_widths_and_padding_witness :
  base58Encode [x00; x01] = ok "112"
  /\ block_slots [x00; x01] 0 2 = ["1"; "1"; "2"].
Proof.
  destruct (base58Encode_widths_and_padding [x00; x01])
    as (result & E & _ & _ & Hr & _ & Hb).
  destruct (Hb 0%nat 2%nat ltac:(lia)) as [_ Hpad].
  split.
  - rewrite E, Hr. reflexivity.
  - apply (Hpad 1%nat); vm_compute; [lia|reflexivity].
Defined.
